(** * PDF page organizer: the page-session model and the export pipeline

    A shallow embedding of [src/pdf.jsx] (the component mounted by the
    application) and of the older copy of the same component that the
    repository still carries, followed by the properties of the page
    descriptor store, the range selector, the reorder engine and the export
    engine.

    Conventions.
    - A JavaScript string is a [string]; every character stands for one code
      unit below 256.
    - A JavaScript number is an IEEE 754 double, kept by its exact value;
      [Number] and [++] round to the nearest double, ties to even.  The two
      zeros are one value.
    - The [previews] object is a finite map from file names to entries.
    - The PDF codec (pdf-lib), the archive builder (JSZip) and the browser's
      download machinery are collaborators: an interface whose operations may
      throw.
    - [async]/[await] is sequential composition in the export; the preview
      generator, which other events interleave with and which a flag
      cancels, is a machine that runs from one [await] to the next. *)

From Stdlib Require Import ZArith Ascii.
From Stdlib Require DecimalString DecimalZ.
From stdpp Require Import gmap strings list fin_maps.

(* ===================================================================== *)
(** * JavaScript primitives used by the component                          *)
(* ===================================================================== *)

Module Js.

Local Open Scope Z_scope.

(** ** Strings *)

(** [WhiteSpace] and [LineTerminator] code units below 256: TAB, LF, VT, FF,
    CR, SP and NBSP.  [trim] and [Number] strip exactly these. *)
Definition isWhiteSpace (c : ascii) : bool :=
  let n := Z.of_N (Ascii.N_of_ascii c) in
  ((9 <=? n) && (n <=? 13)) || (n =? 32) || (n =? 160).

Definition isEmpty (s : string) : bool :=
  match s with EmptyString => true | String _ _ => false end.

Fixpoint trimStart (s : string) : string :=
  match s with
  | EmptyString => EmptyString
  | String c s' => if isWhiteSpace c then trimStart s' else s
  end.

Fixpoint trimEnd (s : string) : string :=
  match s with
  | EmptyString => EmptyString
  | String c s' =>
      let t := trimEnd s' in
      if isWhiteSpace c && isEmpty t then EmptyString else String c t
  end.

(** [s.trim()] *)
Definition trim (s : string) : string := trimEnd (trimStart s).

(** [s.includes(c)] for a one-character needle. *)
Fixpoint includes (s : string) (c : ascii) : bool :=
  match s with
  | EmptyString => false
  | String d s' => if Ascii.eqb d c then true else includes s' c
  end.

(** [s.split(c)] for a one-character separator: never empty, an empty string
    splits into one empty piece. *)
Fixpoint split (s : string) (sep : ascii) : list string :=
  match s with
  | EmptyString => [EmptyString]
  | String c s' =>
      if Ascii.eqb c sep then EmptyString :: split s' sep
      else match split s' sep with
           | p :: ps => String c p :: ps
           | [] => [String c EmptyString]
           end
  end.

(** ** Numbers *)

(** A JavaScript number is an IEEE 754 double.  A finite double is kept by
    its exact value, in lowest terms: [Int z] for a double that is an
    integer, [Frac m k], with [m] odd, for the double [m / 2^k] that is
    not.  [Int 0] stands for both zeros, which [<=], [++] and [Set]
    membership do not tell apart. *)
Inductive number : Type :=
  | NaN
  | Int (z : Z)
  | Frac (m : Z) (k : positive)
  | Infinity (neg : bool).

Definition MAX_SAFE_INTEGER : Z := 2 ^ 53 - 1.

(** The exact value of a finite number is [numerator / denominator]. *)
Definition numerator (x : number) : Z :=
  match x with
  | Int z => z
  | Frac m _ => m
  | _ => 0
  end.

Definition denominator (x : number) : Z :=
  match x with
  | Frac _ k => 2 ^ Z.pos k
  | _ => 1
  end.

(** SameValueZero: [NaN] equals itself. *)
Definition number_eqb (a b : number) : bool :=
  match a, b with
  | NaN, NaN => true
  | Int x, Int y => x =? y
  | Frac m k, Frac m' k' => (m =? m') && (k =? k')%positive
  | Infinity s, Infinity t => Bool.eqb s t
  | _, _ => false
  end.

(** [a <= b]: false as soon as one side is [NaN]. *)
Definition le (a b : number) : bool :=
  match a, b with
  | NaN, _ | _, NaN => false
  | Infinity true, _ | _, Infinity false => true
  | Infinity false, _ | _, Infinity true => false
  | _, _ => numerator a * denominator b <=? numerator b * denominator a
  end.

(** [Number.isFinite] *)
Definition isFinite (x : number) : bool :=
  match x with
  | Int _ | Frac _ _ => true
  | NaN | Infinity _ => false
  end.

(** [Math.floor] of a finite number. *)
Definition floor (x : number) : Z := numerator x / denominator x.

(** *** The Number value for a real: round to nearest, ties to even *)

(** [m / 2^k] in lowest terms. *)
Fixpoint dyadic (m : Z) (k : nat) : number :=
  match k with
  | O => Int m
  | S k' => if Z.even m then dyadic (m / 2) k' else Frac m (Pos.of_succ_nat k')
  end.

(** The [e] with [2^e <= p / q < 2^(e+1)], for positive [p] and [q]. *)
Definition exponent (p q : Z) : Z :=
  let d := Z.log2 p - Z.log2 q in
  if (if 0 <=? d then q * 2 ^ d <=? p else q <=? p * 2 ^ (- d))
  then d else d - 1.

(** The integer nearest to [n / d], for positive [d]: the even one when
    [n / d] is half way between two. *)
Definition roundHalfEven (n d : Z) : Z :=
  let f := n / d in
  let r := n mod d in
  if 2 * r <? d then f
  else if d <? 2 * r then f + 1
  else if Z.even f then f else f + 1.

(** The double nearest to [p / q], for positive [p] and [q].  The doubles
    near [p / q] are the multiples of [2^u], where [u] is the exponent of
    [p / q] less the 52 fraction bits, and not below that of the
    subnormals; [p / q] goes to the nearest multiple, and to infinity when
    that is past the largest double. *)
Definition roundPositive (p q : Z) : number :=
  let u := Z.max (exponent p q - 52) (- 1074) in
  if 0 <=? u then
    let m := roundHalfEven p (q * 2 ^ u) in
    if 2 ^ 1024 <=? m * 2 ^ u then Infinity false else Int (m * 2 ^ u)
  else dyadic (roundHalfEven (p * 2 ^ (- u)) q) (Z.to_nat (- u)).

(** [-x] *)
Definition negate (x : number) : number :=
  match x with
  | NaN => NaN
  | Int z => Int (- z)
  | Frac m k => Frac (- m) k
  | Infinity neg => Infinity (negb neg)
  end.

(** The Number value for the rational [p / q], with [q] positive. *)
Definition ofRational (p q : Z) : number :=
  if p =? 0 then Int 0
  else if 0 <? p then roundPositive p q
  else negate (roundPositive (- p) q).

(** *** [Number(string)]: the StringToNumber grammar *)

Definition digitValue (radix : Z) (c : ascii) : option Z :=
  let n := Z.of_N (Ascii.N_of_ascii c) in
  let v := if (48 <=? n) && (n <=? 57) then n - 48
           else if (97 <=? n) && (n <=? 102) then n - 87
           else if (65 <=? n) && (n <=? 70) then n - 55
           else radix in
  if v <? radix then Some v else None.

(** Reads the longest prefix of digits in [radix]: the value read so far
    (starting from [acc]), how many digits were read, and the rest. *)
Fixpoint readDigits (radix : Z) (s : string) (acc : Z) (count : Z)
  : Z * Z * string :=
  match s with
  | EmptyString => (acc, count, s)
  | String c s' =>
      match digitValue radix c with
      | Some v => readDigits radix s' (acc * radix + v) (count + 1)
      | None => (acc, count, s)
      end
  end.

(** What a string denotes after trimming: not a numeric literal, an
    infinity, or the mathematical value [(-1)^neg * mant * 10^exp10]. *)
Inductive literal : Type :=
  | NotNumeric
  | Infinite (neg : bool)
  | Value (neg : bool) (mant : Z) (exp10 : Z).

(** [ExponentPart_opt] followed by the end of the string. *)
Definition readExponent (s : string) : option Z :=
  match s with
  | EmptyString => Some 0
  | String c s' =>
      if Ascii.eqb c "e"%char || Ascii.eqb c "E"%char then
        let '(neg, s'') :=
          match s' with
          | String "+"%char r => (false, r)
          | String "-"%char r => (true, r)
          | _ => (false, s')
          end in
        match readDigits 10 s'' 0 0 with
        | (e, n, EmptyString) =>
            if 0 <? n then Some (if neg then - e else e) else None
        | _ => None
        end
      else None
  end.

(** [StrUnsignedDecimalLiteral] *)
Definition readUnsignedDecimal (neg : bool) (s : string) : literal :=
  if String.eqb s "Infinity" then Infinite neg
  else
    let '(ip, ni, r1) := readDigits 10 s 0 0 in
    let '(m, nf, r2) :=
      match r1 with
      | String c r =>
          if Ascii.eqb c "."%char then readDigits 10 r ip 0 else (ip, 0, r1)
      | EmptyString => (ip, 0, r1)
      end in
    if (0 <? ni) || (0 <? nf) then
      match readExponent r2 with
      | Some e => Value neg m (e - nf)
      | None => NotNumeric
      end
    else NotNumeric.

(** [NonDecimalIntegerLiteral]: the digits after [0x], [0o] or [0b]. *)
Definition readRadix (radix : Z) (s : string) : literal :=
  match readDigits radix s 0 0 with
  | (v, n, EmptyString) => if 0 <? n then Value false v 0 else NotNumeric
  | _ => NotNumeric
  end.

(** The radix announced by a two-character prefix [0x], [0o] or [0b]. *)
Definition radixOfPrefix (c0 c1 : ascii) : option Z :=
  if Ascii.eqb c0 "0"%char then
    if Ascii.eqb c1 "x"%char || Ascii.eqb c1 "X"%char then Some 16
    else if Ascii.eqb c1 "o"%char || Ascii.eqb c1 "O"%char then Some 8
    else if Ascii.eqb c1 "b"%char || Ascii.eqb c1 "B"%char then Some 2
    else None
  else None.

(** [StrDecimalLiteral]: an optional sign, then the unsigned literal. *)
Definition readDecimal (s : string) : literal :=
  match s with
  | String c r =>
      if Ascii.eqb c "+"%char then readUnsignedDecimal false r
      else if Ascii.eqb c "-"%char then readUnsignedDecimal true r
      else readUnsignedDecimal false s
  | EmptyString => readUnsignedDecimal false s
  end.

(** [StrNumericLiteral] *)
Definition readLiteral (s : string) : literal :=
  match s with
  | String c0 (String c1 r) =>
      match radixOfPrefix c0 c1 with
      | Some radix => readRadix radix r
      | None => readDecimal s
      end
  | _ => readDecimal s
  end.

(** The Number value for what a literal denotes. *)
Definition ofLiteral (l : literal) : number :=
  match l with
  | NotNumeric => NaN
  | Infinite neg => Infinity neg
  | Value neg m k =>
      let signed := if neg then - m else m in
      if 0 <=? k then ofRational (signed * 10 ^ k) 1
      else ofRational signed (10 ^ (- k))
  end.

(** [Number(s)] for a string [s]: an empty or blank string is [0], a
    string that is no numeric literal is [NaN]. *)
Definition Number (s : string) : number :=
  let t := trim s in
  if isEmpty t then Int 0 else ofLiteral (readLiteral t).

(** [i++]: the Number value for [i + 1]. *)
Definition incr (i : number) : number :=
  match i with
  | NaN | Infinity _ => i
  | _ => ofRational (numerator i + denominator i) (denominator i)
  end.

(** ** [Set] of numbers: insertion-ordered, membership by SameValueZero *)

Definition Set_has (s : list number) (x : number) : bool :=
  existsb (number_eqb x) s.

Definition Set_add (s : list number) (x : number) : list number :=
  if Set_has s x then s else s ++ [x].

(** ** Arrays *)

(** [a.findIndex(pred)]: the first position that satisfies [pred], or -1. *)
Fixpoint findIndexFrom {A} (pred : A → bool) (a : list A) (i : Z) : Z :=
  match a with
  | [] => -1
  | x :: a' => if pred x then i else findIndexFrom pred a' (i + 1)
  end.

Definition findIndex {A} (pred : A → bool) (a : list A) : Z :=
  findIndexFrom pred a 0.

(** [a.splice(start, deleteCount, ...items)]: the removed elements and the
    array afterwards.  A negative [start] counts from the end; both
    arguments are clamped to the array. *)
Definition splice {A} (a : list A) (start deleteCount : Z) (items : list A)
  : list A * list A :=
  let len := Z.of_nat (length a) in
  let actualStart :=
    if start <? 0 then Z.max (len + start) 0 else Z.min start len in
  let actualDeleteCount := Z.min (Z.max deleteCount 0) (len - actualStart) in
  let k := Z.to_nat actualStart in
  let d := Z.to_nat actualDeleteCount in
  (take d (drop k a), take k a ++ items ++ drop (k + d) a).

(** ** Exceptions *)

Inductive exn : Type :=
  | TypeError
  | Failure (what : string).

Inductive result (A : Type) : Type :=
  | Ok (a : A)
  | Throw (e : exn).
Global Arguments Ok {A} a.
Global Arguments Throw {A} e.

Global Instance result_ret : MRet result := λ A a, Ok a.
Global Instance result_bind : MBind result := λ A B f r,
  match r with
  | Ok a => f a
  | Throw e => Throw e
  end.

End Js.

Export Js (number(..), exn(..), result(..)).

(* ===================================================================== *)
(** * [arrayMove] of @dnd-kit/sortable                                     *)
(* ===================================================================== *)

(** The library's function, imported by the component:
<<
   function arrayMove(array, from, to) {
     const newArray = array.slice();
     newArray.splice(to < 0 ? newArray.length + to : to, 0,
                     newArray.splice(from, 1)[0]);
     return newArray;
   }
>>
    The insertion position is computed before the inner [splice] removes
    the element.  [None] stands for the one outcome that is not a list of
    [A]: nothing was removed ([from] outside the array), so the library
    inserts [undefined]. *)
Definition arrayMove {A} (array : list A) (from to : Z) : option (list A) :=
  let newArray := array in
  let start :=
    if (to <? 0)%Z then (Z.of_nat (length newArray) + to)%Z else to in
  let '(removed, newArray) := Js.splice newArray from 1 [] in
  match removed with
  | x :: _ => Some (snd (Js.splice newArray start 0 [x]))
  | [] => None
  end.

(* ===================================================================== *)
(** * The component: data                                                  *)
(* ===================================================================== *)

(** An uploaded blob, as the component reads it. *)
Record File : Type := mkFile {
  name : string;
  type : string;
  size : Z
}.

(** One entry of a document's page list (built by the preview generator:
    [id] is the file name, then [-page-], then the page number; [pageNo]
    is the 1-based page number in the source document). *)
Record Page : Type := mkPage {
  id : string;
  img : string;
  pageNo : Z;
  deleted : bool
}.

(** [previews[name]] *)
Record Preview : Type := mkPreview {
  pages : list Page
}.

(** The [previews] state: an object keyed by file name. *)
Abbreviation Previews := (gmap string Preview).

(** The argument of [onDragEnd]: [active.id] and [over?.id]. *)
Record DragEndEvent : Type := mkDragEnd {
  active : string;
  over : option string
}.

(** The descriptor at position [i] of the page list of [file]. *)
Definition pageAt (previews : Previews) (file : string) (i : nat)
  : option Page :=
  entry ← previews !! file;
  pages entry !! i.

(* ===================================================================== *)
(** * Upload                                                               *)
(* ===================================================================== *)

(** [handleFiles(list)]: the new value of the [files] state. *)
Definition handleFiles (fileList : list File) : list File :=
  List.filter (λ f, String.eqb (type f) "application/pdf") fileList.

(* ===================================================================== *)
(** * Toggle delete                                                        *)
(* ===================================================================== *)

(** [{ ...p, deleted: !p.deleted }] *)
Definition flipDeleted (p : Page) : Page :=
  {| id := id p; img := img p; pageNo := pageNo p;
     deleted := negb (deleted p) |}.

(** The state updater of [toggleDelete(file, pageNo)].  Reading [.pages] of
    a missing entry throws. *)
Definition toggleDelete (file : string) (pageNo' : Z) (prev : Previews)
  : result Previews :=
  match prev !! file with
  | None => Throw TypeError
  | Some entry =>
      Ok (<[file :=
             {| pages :=
                 map (λ p, if (pageNo p =? pageNo')%Z then flipDeleted p else p)
                     (pages entry) |}]> prev)
  end.

(* ===================================================================== *)
(** * Bulk delete (add-only)                                               *)
(* ===================================================================== *)

(** [for (let i = s; i <= e; i++) toDelete.add(i)], at most [fuel] rounds;
    [None] if the test still holds when the fuel is spent. *)
Fixpoint forLoop (fuel : nat) (i e : number) (toDelete : list number)
  : option (list number) :=
  if Js.le i e then
    match fuel with
    | O => None
    | S fuel' => forLoop fuel' (Js.incr i) e (Js.Set_add toDelete i)
    end
  else Some toDelete.

(** A bound on the rounds of a loop that ends: a round that moves [i]
    takes it past the next integer, so a loop that has not ended after
    these rounds never ends (an upper bound of [2^53] or more, or
    infinite: there [i++] leaves [i] as it is). *)
Definition rounds (s e : number) : nat :=
  if Js.isFinite s && Js.isFinite e
  then Z.to_nat (Js.floor e - Js.floor s + 1)%Z
  else 0.

(** The callback of [ranges.forEach]: one comma-separated term [r].
    [const [s, e] = r.split("-").map(Number)] keeps the first two pieces; a
    missing second piece is [undefined], for which the loop test is false.
    [None]: the loop does not end. *)
Definition addRange (toDelete : list number) (r : string)
  : option (list number) :=
  if Js.includes r "-" then
    match Js.split r "-" with
    | s :: e :: _ =>
        let s := Js.Number s in
        let e := Js.Number e in
        forLoop (rounds s e) s e toDelete
    | _ => Some toDelete
    end
  else Some (Js.Set_add toDelete (Js.Number r)).

(** [ranges.forEach(...)] *)
Fixpoint forEachRange (ranges : list string) (toDelete : list number)
  : option (list number) :=
  match ranges with
  | [] => Some toDelete
  | r :: ranges' =>
      toDelete' ← addRange toDelete r;
      forEachRange ranges' toDelete'
  end.

(** The set [toDelete] built from the text of the input field. *)
Definition parseRanges (deleteInput : string) : option (list number) :=
  forEachRange (Js.split deleteInput ",") [].

(** [{ ...p, deleted: p.deleted || toDelete.has(p.pageNo) }] *)
Definition markPage (toDelete : list number) (p : Page) : Page :=
  {| id := id p; img := img p; pageNo := pageNo p;
     deleted := deleted p || Js.Set_has toDelete (Int (pageNo p)) |}.

(** The state updater: every page of every file, [deleted] or-ed with
    membership of its [pageNo]. *)
Definition markDeleted (toDelete : list number) (prev : Previews) : Previews :=
  (λ entry, {| pages := map (markPage toDelete) (pages entry) |}) <$> prev.

(** [applyBulkDeleteAll()] with [deleteInput] the text of the field: the
    [previews] state afterwards.  A blank field returns at once.  [None]:
    the loop of one of the terms does not end, and no state is set. *)
Definition applyBulkDeleteAll (deleteInput : string) (prev : Previews)
  : option Previews :=
  if Js.isEmpty (Js.trim deleteInput) then Some prev
  else
    toDelete ← parseRanges deleteInput;
    Some (markDeleted toDelete prev).

(* ===================================================================== *)
(** * Drag reorder                                                         *)
(* ===================================================================== *)

(** The state updater of [onDragEnd], run past the guard.  Reading
    [.pages] of a missing entry throws.  [Ok None]: the updater returns a
    state in which the page list of [file] is [[undefined]], which is what
    [arrayMove] makes of an empty list. *)
Definition moveUpdater (file : string) (activeId overId : string)
  (prev : Previews) : result (option Previews) :=
  match prev !! file with
  | None => Throw TypeError
  | Some entry =>
      let pages := pages entry in
      let oldIndex := Js.findIndex (λ p, String.eqb (id p) activeId) pages in
      let newIndex := Js.findIndex (λ p, String.eqb (id p) overId) pages in
      Ok (match arrayMove pages oldIndex newIndex with
          | Some moved => Some (<[file := {| pages := moved |}]> prev)
          | None => None
          end)
  end.

(** The render that follows a state update: the component maps
    [(p) => p.id] over the page list of every file, which throws on
    [undefined]. *)
Definition rerender (updated : result (option Previews)) : result Previews :=
  match updated with
  | Ok (Some next) => Ok next
  | Ok None => Throw TypeError
  | Throw e => Throw e
  end.

(** [onDragEnd(file, event)] and the render that follows it: the
    [previews] state afterwards.  Without a drop target, or with the page
    dropped on itself, nothing is updated. *)
Definition onDragEnd (file : string) (event : DragEndEvent) (prev : Previews)
  : result Previews :=
  match over event with
  | None => Ok prev
  | Some over_id =>
      if String.eqb (active event) over_id then Ok prev
      else rerender (moveUpdater file (active event) over_id prev)
  end.

(** A sequence of drags, each on some file. *)
Fixpoint dragAll (events : list (string * DragEndEvent)) (prev : Previews)
  : result Previews :=
  match events with
  | [] => Ok prev
  | (file, event) :: events' =>
      next ← onDragEnd file event prev;
      dragAll events' next
  end.

(* ===================================================================== *)
(** * Export                                                               *)
(* ===================================================================== *)

Abbreviation Bytes := (list Byte.byte).

(** The collaborators of the export: the file reader, the PDF codec, the
    archive builder and the download machinery.  Each call may throw. *)
Class Collaborators : Type := {
  PDFDocument : Type;
  PDFPage : Type;
  (** [file.arrayBuffer()] *)
  arrayBuffer : File → result Bytes;
  (** [PDFDocument.load(bytes)] *)
  load : Bytes → result PDFDocument;
  (** [newDoc.copyPages(pdfDoc, [index])], the one copied page; [index] is
      0-based *)
  copyPages : PDFDocument → Z → result PDFPage;
  (** the page that [newDoc.addPage()] creates when it is given none *)
  blankPage : PDFPage;
  (** writing out a document that holds these pages *)
  serializeToBuffer : list PDFPage → result Bytes;
  (** [zip.generateAsync({ type: "blob" })], for the entries added so far *)
  generateAsync : list (string * Bytes) → result Bytes;
  (** wrapping the bytes in a blob and clicking a link that downloads it
      under the given name *)
  download : string → Bytes → result unit
}.

(** [prepareForSave] of pdf-lib, with the default options:
<<
   const { addDefaultPage = true, ... } = options;
   if (addDefaultPage && this.getPageCount() === 0) this.addPage();
>>
    A document without pages is given one blank page. *)
Definition prepareForSave `{Collaborators} (newDoc : list PDFPage)
  : list PDFPage :=
  match newDoc with
  | [] => [blankPage]
  | _ => newDoc
  end.

(** [newDoc.save()] of pdf-lib, called without options, for a document
    that holds these pages: [prepareForSave], then the writer. *)
Definition save `{Collaborators} (newDoc : list PDFPage) : result Bytes :=
  serializeToBuffer (prepareForSave newDoc).

(** What the export can change: the [loading] state, the [cursor-loading]
    class of the document body, and the files handed to the browser. *)
Record World : Type := mkWorld {
  loading : bool;
  cursorLoading : bool;
  downloads : list (string * Bytes)
}.

(** Computations over the world that may throw. *)
Definition M (A : Type) : Type := World → World * result A.

Global Instance M_ret : MRet M := λ A a w, (w, Ok a).
Global Instance M_bind : MBind M := λ A B f m w,
  match m w with
  | (w', Ok a) => f a w'
  | (w', Throw e) => (w', Throw e)
  end.

Definition lift {A} (r : result A) : M A := λ w, (w, r).

(** [try { body } finally { cleanup }] *)
Definition tryFinally {A} (body : M A) (cleanup : M unit) : M A := λ w,
  let '(w1, r) := body w in
  match cleanup w1 with
  | (w2, Ok _) => (w2, r)
  | (w2, Throw e) => (w2, Throw e)
  end.

Definition setLoading (b : bool) : M unit := λ w,
  ({| loading := b; cursorLoading := cursorLoading w;
      downloads := downloads w |}, Ok ()).

Definition setCursorLoading (b : bool) : M unit := λ w,
  ({| loading := loading w; cursorLoading := b;
      downloads := downloads w |}, Ok ()).

Section ExportEngine.
Context `{Collaborators}.

(** The browser saves [payload] under [fileName]. *)
Definition deliver (fileName : string) (payload : Bytes) : M unit := λ w,
  match download fileName payload with
  | Ok _ =>
      ({| loading := loading w; cursorLoading := cursorLoading w;
          downloads := downloads w ++ [(fileName, payload)] |}, Ok ())
  | Throw e => (w, Throw e)
  end.

(** The inner loop: [for (const p of previews[file.name].pages)], with
    [newDoc] the pages added to the new document so far. *)
Fixpoint copyLoop (pdfDoc : PDFDocument) (ps : list Page)
  (newDoc : list PDFPage) : result (list PDFPage) :=
  match ps with
  | [] => Ok newDoc
  | p :: ps' =>
      if deleted p then copyLoop pdfDoc ps' newDoc
      else
        copied ← copyPages pdfDoc (pageNo p - 1)%Z;
        copyLoop pdfDoc ps' (newDoc ++ [copied])
  end.

(** The pages of the document built for [file], as handed to [save]. *)
Definition buildDoc (previews : Previews) (file : File)
  : result (list PDFPage) :=
  bytes ← arrayBuffer file;
  pdfDoc ← load bytes;
  entry ← match previews !! name file with
          | Some entry => Ok entry
          | None => Throw TypeError
          end;
  copyLoop pdfDoc (pages entry) [].

(** The outer loop of [processPDFs] in [src/pdf.jsx]: [zip] holds the
    entries added so far. *)
Fixpoint forFiles (previews : Previews) (downloadMode : string)
  (files : list File) (zip : list (string * Bytes))
  : M (list (string * Bytes)) :=
  match files with
  | [] => mret zip
  | file :: files' =>
      newDoc ← lift (buildDoc previews file);
      pdfBytes ← lift (save newDoc);
      let fileName := "modified-" +:+ name file in
      zip' ← (if String.eqb downloadMode "single"
              then deliver fileName pdfBytes ≫= λ _, mret zip
              else mret (zip ++ [(fileName, pdfBytes)]));
      forFiles previews downloadMode files' zip'
  end.

(** [processPDFs()] of [src/pdf.jsx]. *)
Definition processPDFs (files : list File) (previews : Previews)
  (downloadMode : string) : M unit :=
  setLoading true ≫= λ _,
  setCursorLoading true ≫= λ _,
  tryFinally
    (zip ← forFiles previews downloadMode files [];
     if String.eqb downloadMode "zip"
     then blob ← lift (generateAsync zip);
          deliver "processed-pdfs.zip" blob
     else mret ())
    (setLoading false ≫= λ _, setCursorLoading false).

End ExportEngine.

(** The older copy of the component (the second file of the repository
    that defines [PdfPageOrganizerFinal]): always an archive, and no
    [try]/[finally]. *)
Module Legacy.
Section LegacyExport.
Context `{Collaborators}.

Fixpoint forFiles (previews : Previews) (files : list File)
  (zip : list (string * Bytes)) : M (list (string * Bytes)) :=
  match files with
  | [] => mret zip
  | file :: files' =>
      newDoc ← lift (buildDoc previews file);
      pdfBytes ← lift (save newDoc);
      forFiles previews files' (zip ++ [("modified-" +:+ name file, pdfBytes)])
  end.

Definition processPDFs (files : list File) (previews : Previews) : M unit :=
  setLoading true ≫= λ _,
  zip ← forFiles previews files [];
  blob ← lift (generateAsync zip);
  deliver "processed-pdfs.zip" blob ≫= λ _,
  setLoading false.

End LegacyExport.
End Legacy.

(* ===================================================================== *)
(** * Generate previews                                                    *)
(* ===================================================================== *)

(** The decimal text of an integer, as a template literal prints it. *)
Definition toString (z : Z) : string :=
  DecimalString.NilEmpty.string_of_int (Z.to_int z).

(** The renderer of the previews (pdf.js): each call may throw. *)
Class PdfJs : Type := {
  PDFDocumentProxy : Type;
  (** [pdfjsLib.getDocument({ data: buffer }).promise] *)
  getDocument : Bytes → result PDFDocumentProxy;
  (** [pdf.numPages] *)
  numPages : PDFDocumentProxy → Z;
  (** [pdf.getPage(i)], rendering it on a canvas at the fixed scale, and
      the object URL of the resulting blob *)
  renderPage : PDFDocumentProxy → Z → result string
}.

(** [init]: one entry with no pages per file, a later file of the same
    name overwriting an earlier one. *)
Definition initPreviews (files : list File) : Previews :=
  foldl (λ init f, <[name f := mkPreview []]> init) ∅ files.

(** The state updater that adds the descriptor of page [i] of [fileName].
    Reading [.pages] of a missing entry throws. *)
Definition appendPage (fileName : string) (i : Z) (url : string)
  (prev : Previews) : result Previews :=
  match prev !! fileName with
  | None => Throw TypeError
  | Some entry =>
      Ok (<[fileName :=
             {| pages := pages entry
                         ++ [{| id := fileName +:+ "-page-" +:+ toString i;
                                img := url; pageNo := i;
                                deleted := false |}] |}]> prev)
  end.

Section Generate.
Context `{Collaborators} `{PdfJs}.

(** Where [generate] is suspended.  Awaits between which the function
    neither reads nor writes shared state are taken together:
    - [AwaitDocument]: at [file.arrayBuffer()] and then [getDocument];
    - [AwaitPage]: past the [cancelled] test of page [i], at [getPage],
      [render] and [toBlob];
    - [AwaitFrame]: past the [setPreviews] of page [i], at
      [requestAnimationFrame];
    - [Returned]: the function returned;
    - [Rejected]: an awaited call threw, which nothing catches. *)
Inductive generator : Type :=
  | AwaitDocument (file : File) (rest : list File)
  | AwaitPage (file : File) (rest : list File) (pdf : PDFDocumentProxy) (i : Z)
  | AwaitFrame (file : File) (rest : list File) (pdf : PDFDocumentProxy) (i : Z)
  | Returned
  | Rejected (e : exn).

(** The head of [for (const file of files)]. *)
Definition nextFile (rest : list File) : generator :=
  match rest with
  | [] => Returned
  | file :: rest' => AwaitDocument file rest'
  end.

(** The head of [for (let i = 1; i <= pdf.numPages; i++)] with the test
    of [cancelled] that opens its body. *)
Definition loopHead (cancelled : bool) (file : File) (rest : list File)
  (pdf : PDFDocumentProxy) (i : Z) : generator :=
  if (i <=? numPages pdf)%Z then
    if cancelled then Returned else AwaitPage file rest pdf i
  else nextFile rest.

(** The run of [generate] from one suspension to the next, with the value
    of [cancelled] at that time: the place where it suspends again and the
    [previews] state afterwards. *)
Definition resume (cancelled : bool) (g : generator) (previews : Previews)
  : generator * result Previews :=
  match g with
  | AwaitDocument file rest =>
      match buffer ← arrayBuffer file; getDocument buffer with
      | Ok pdf => (loopHead cancelled file rest pdf 1, Ok previews)
      | Throw e => (Rejected e, Ok previews)
      end
  | AwaitPage file rest pdf i =>
      match renderPage pdf i with
      | Ok url => (AwaitFrame file rest pdf i,
                   appendPage (name file) i url previews)
      | Throw e => (Rejected e, Ok previews)
      end
  | AwaitFrame file rest pdf i =>
      (loopHead cancelled file rest pdf (i + 1), Ok previews)
  | Returned | Rejected _ => (g, Ok previews)
  end.

(** The effect of a change of [files], up to the first suspension of
    [generate]: where it is suspended, the [previews] state, and whether
    the body still has the [cursor-loading] class, given whether it had.
    [generate] adds the class and sets [init] before its first [await];
    the effect removes the class as soon as the call returns. *)
Definition startGenerate (files : list File) (cursorLoading : bool)
  : generator * Previews * bool :=
  let '(g, previews, cursorLoading) :=
    match files with
    | [] => (Returned, ∅, cursorLoading)
    | _ => (nextFile files, initPreviews files, true)
    end in
  (g, previews, false).

(** At most [fuel] resumptions with [cancelled] constant, stopping when
    the function has returned or rejected, or when a state updater
    throws. *)
Fixpoint run (fuel : nat) (cancelled : bool) (g : generator)
  (previews : Previews) : generator * result Previews :=
  match fuel, g with
  | _, Returned | _, Rejected _ | O, _ => (g, Ok previews)
  | S fuel', _ =>
      match resume cancelled g previews with
      | (g', Ok previews') => run fuel' cancelled g' previews'
      | (g', Throw e) => (g', Throw e)
      end
  end.

End Generate.

(* ===================================================================== *)
(** * Vocabulary of the properties                                         *)
(* ===================================================================== *)

(** Membership of a number in the integer interval from [a] to [b]. *)
Definition between (a b : Z) (x : number) : bool :=
  match x with
  | Int n => (a <=? n)%Z && (n <=? b)%Z
  | _ => false
  end.

(** [s] after [n] rounds of [++]. *)
Fixpoint after (n : nat) (s : number) : number :=
  match n with
  | O => s
  | S n' => after n' (Js.incr s)
  end.

(** What a term contributes, in terms of [Number] alone.  A term without
    a dash contributes the one value [Number] gives it.  A term with a
    dash contributes, with [s] and [e] the values of its first two
    dash-separated pieces, [s] and what [++] makes of it step by step, as
    long as nothing so far is above [e]. *)
Definition contributes (r : string) (x : number) : Prop :=
  if Js.includes r "-" then
    ∃ s e rest, Js.split r "-" = s :: e :: rest ∧
      ∃ n, x = after n (Js.Number s) ∧
           ∀ j, j ≤ n → Js.le (after j (Js.Number s)) (Js.Number e) = true
  else x = Js.Number r.

(** A field whose ranges are within reach: in every term with a dash the
    upper bound is at most [Number.MAX_SAFE_INTEGER], unless the lower
    bound is not below or equal to it in the first place. *)
Definition withinReach (deleteInput : string) : Prop :=
  ∀ r s e rest,
    r ∈ Js.split deleteInput "," → Js.split r "-" = s :: e :: rest →
    Js.le (Js.Number s) (Js.Number e) = false ∨
    Js.le (Js.Number e) (Int Js.MAX_SAFE_INTEGER) = true.

(** ** Well-formed terms, in the words of the specification *)

Definition isDigit (c : ascii) : bool :=
  let n := Z.of_N (Ascii.N_of_ascii c) in
  ((48 <=? n) && (n <=? 57))%Z.

Fixpoint allDigits (s : string) : bool :=
  match s with
  | EmptyString => true
  | String c s' => isDigit c && allDigits s'
  end.

Fixpoint decimalValue (acc : Z) (s : string) : Z :=
  match s with
  | EmptyString => acc
  | String c s' =>
      decimalValue (acc * 10 + (Z.of_N (Ascii.N_of_ascii c) - 48))%Z s'
  end.

(** A single positive integer: one or more decimal digits, not all zero. *)
Definition spec_integer (s : string) : option Z :=
  if negb (Js.isEmpty s) && allDigits s && (0 <? decimalValue 0 s)%Z
  then Some (decimalValue 0 s)
  else None.

(** The pages a term stands for according to the specification: a single
    positive integer, an inclusive [start-end] range of two positive
    integers, and nothing for any other term. *)
Definition spec_termPages (r : string) : list Z :=
  match spec_integer r with
  | Some n => [n]
  | None =>
      match Js.split r "-" with
      | [s; e] =>
          match spec_integer s, spec_integer e with
          | Some a, Some b => seqZ a (b - a + 1)
          | _, _ => []
          end
      | _ => []
      end
  end.

(** The delete set of an expression according to the specification: the
    union of its well-formed terms. *)
Definition spec_deleteSet (deleteInput : string) : list Z :=
  concat (spec_termPages <$> Js.split deleteInput ",").

(** The claim as the specification words it: at every page number, the
    set built by the code agrees with the union of the well-formed
    terms. *)
Definition spec_effective_set (deleteInput : string) : Prop :=
  ∀ toDelete, parseRanges deleteInput = Some toDelete →
  ∀ n : Z, (1 ≤ n)%Z →
    Js.Set_has toDelete (Int n) = true ↔ n ∈ spec_deleteSet deleteInput.

(** ** Page lists *)

(** [ident] occurs in [ps], first at position [i]. *)
Definition firstAt (ps : list Page) (ident : string) (i : nat) : Prop :=
  ∃ p, ps !! i = Some p ∧ id p = ident ∧
       ∀ k q, k < i → ps !! k = Some q → id q ≠ ident.

(** A file of the accepted type. *)
Definition isPdf (f : File) : bool := String.eqb (type f) "application/pdf".

(** A descriptor that the export keeps. *)
Definition kept (p : Page) : bool := negb (deleted p).

(** What the export makes of one file: the name it is saved under and the
    bytes of the document built for it. *)
Definition exported `{Collaborators} (previews : Previews) (file : File)
  : result (string * Bytes) :=
  newDoc ← buildDoc previews file;
  pdfBytes ← save newDoc;
  Ok ("modified-" +:+ name file, pdfBytes).

(** The document that the export writes out for [file]: the pages that
    [save] hands to the writer. *)
Definition written `{Collaborators} (previews : Previews) (file : File)
  : result (list PDFPage) :=
  newDoc ← buildDoc previews file;
  Ok (prepareForSave newDoc).

(** The claim on the page count as the specification words it: the
    document written for a file has one page for each descriptor that is
    not deleted, and none when all are deleted. *)
Definition spec_page_count `{Collaborators} (previews : Previews)
  (file : File) : Prop :=
  ∀ entry out,
    previews !! name file = Some entry → written previews file = Ok out →
    length out = length (List.filter kept (pages entry)).

(** ** A sample session and a toy codec *)

(** A toy codec: a document is its list of pages, one byte each, and the
    blank page is the zero byte; an empty buffer does not load; copying
    reads the page at the 0-based index and throws outside the document;
    writing and archiving concatenate. *)
Definition toy_copyPages (pdfDoc : Bytes) (index : Z) : result Byte.byte :=
  if (index <? 0)%Z then Throw TypeError
  else match pdfDoc !! Z.to_nat index with
       | Some page => Ok page
       | None => Throw TypeError
       end.

(** The files of the toy reader: [a.pdf] has three pages, [b.pdf] two,
    [broken.pdf] is empty, and any other file cannot be read. *)
Definition toy_arrayBuffer (file : File) : result Bytes :=
  if String.eqb (name file) "a.pdf" then Ok [Byte.x01; Byte.x02; Byte.x03]
  else if String.eqb (name file) "b.pdf" then Ok [Byte.x0a; Byte.x0b]
  else if String.eqb (name file) "broken.pdf" then Ok []
  else Throw (Failure "NotFoundError").

Definition toy : Collaborators := {|
  PDFDocument := Bytes;
  PDFPage := Byte.byte;
  arrayBuffer := toy_arrayBuffer;
  load := λ bytes,
    match bytes with
    | [] => Throw (Failure "No PDF header found")
    | _ => Ok bytes
    end;
  copyPages := toy_copyPages;
  blankPage := Byte.x00;
  serializeToBuffer := λ newDoc, Ok newDoc;
  generateAsync := λ zip, Ok (concat (snd <$> zip));
  download := λ _ _, Ok ()
|}.

Definition a_pdf : File := mkFile "a.pdf" "application/pdf" 3.
Definition b_pdf : File := mkFile "b.pdf" "application/pdf" 2.
Definition broken_pdf : File := mkFile "broken.pdf" "application/pdf" 0.

(** Nothing in progress, nothing downloaded. *)
Definition idle : World := mkWorld false false [].

(** The descriptors the preview generator makes for the pages of [a.pdf]
    and [b.pdf]; the second page of [b.pdf] is marked deleted. *)
Definition a1 : Page := mkPage "a.pdf-page-1" "blob:1" 1 false.
Definition a2 : Page := mkPage "a.pdf-page-2" "blob:2" 2 false.
Definition a3 : Page := mkPage "a.pdf-page-3" "blob:3" 3 false.
Definition b1 : Page := mkPage "b.pdf-page-1" "blob:4" 1 false.
Definition b2 : Page := mkPage "b.pdf-page-2" "blob:5" 2 true.

(** The [previews] state with these page lists for the two files. *)
Definition session (a b : list Page) : Previews :=
  <["a.pdf" := mkPreview a]> (<["b.pdf" := mkPreview b]> ∅).

(** The descriptors of pages [first], [first + 1], ... of [fileName] with
    these thumbnails. *)
Fixpoint generatedPages (fileName : string) (first : Z) (urls : list string)
  : list Page :=
  match urls with
  | [] => []
  | url :: urls' =>
      {| id := fileName +:+ "-page-" +:+ toString first; img := url;
         pageNo := first; deleted := false |}
      :: generatedPages fileName (first + 1) urls'
  end.

(** The thumbnails of the pages of a file, in page order, and the entry
    an undisturbed generation builds for it. *)
Definition thumbnails `{Collaborators} `{PdfJs} (file : File)
  : result (list string) :=
  buffer ← arrayBuffer file;
  pdf ← getDocument buffer;
  mapM (renderPage pdf) (seqZ 1 (numPages pdf)).

(** What an undisturbed generation adds for one file: its descriptors,
    after those the entry of its name already holds. *)
Definition addGenerated (previews : Previews) (item : File * list string)
  : Previews :=
  match previews !! name item.1 with
  | Some entry =>
      <[name item.1 :=
          mkPreview (pages entry ++ generatedPages (name item.1) 1 item.2)]>
        previews
  | None => previews
  end.

(** The resumptions an undisturbed generation takes for these files. *)
Definition resumptions (urlss : list (list string)) : nat :=
  length urlss + 2 * length (concat urlss).

(** How many more resumptions a cancelled [generate] can take. *)
Definition stepsLeft `{PdfJs} (g : generator) : nat :=
  match g with
  | AwaitDocument _ rest | AwaitFrame _ rest _ _ => S (length rest)
  | AwaitPage _ rest _ _ => S (S (length rest))
  | Returned | Rejected _ => 0
  end.

(** A toy renderer: a document is its list of pages, an empty buffer does
    not open, and the thumbnail of a page is named after its byte. *)
Definition toy_renderPage (pdf : Bytes) (i : Z) : result string :=
  match toy_copyPages pdf (i - 1) with
  | Ok page => Ok ("blob:" +:+ toString (Z.of_N (Byte.to_N page)))
  | Throw e => Throw e
  end.

Definition toy_pdfjs : PdfJs := {|
  PDFDocumentProxy := Bytes;
  getDocument := λ buffer,
    match buffer with
    | [] => Throw (Failure "InvalidPDFException")
    | _ => Ok buffer
    end;
  numPages := λ pdf, Z.of_nat (length pdf);
  renderPage := toy_renderPage
|}.

(** What [toggleDelete] does to one descriptor. *)
Definition togglePage (n : Z) (p : Page) : Page :=
  if (pageNo p =? n)%Z then flipDeleted p else p.

(** Only white space, or nothing. *)
Fixpoint allWhiteSpace (s : string) : bool :=
  match s with
  | EmptyString => true
  | String c s' => Js.isWhiteSpace c && allWhiteSpace s'
  end.

(** The page numbers of every file are distinct. *)
Definition distinctPages (previews : Previews) : Prop :=
  ∀ file entry, previews !! file = Some entry →
                NoDup (pageNo <$> pages entry).

(** A double that is not negative, in the form the numbers are kept in:
    an integer with a significand of 53 bits at most, or a fraction
    [m / 2^k] with such a significand. *)
Definition unsignedDouble (x : number) : Prop :=
  match x with
  | NaN => True
  | Int z => ∃ m u, (0 ≤ u ∧ 0 ≤ m < 2 ^ 53 ∧ z = m * 2 ^ u)%Z
  | Frac m _ => (0 ≤ m < 2 ^ 53)%Z
  | Infinity neg => neg = false
  end.

(** The loop from [s] to [e] never ends: no number of rounds is enough. *)
Definition neverEnds (s e : number) : Prop :=
  ∀ fuel toDelete, forLoop fuel s e toDelete = None.

(** A literal that is not negative. *)
Definition unsigned (l : Js.literal) : Prop :=
  match l with
  | Js.NotNumeric => True
  | Js.Infinite neg => neg = false
  | Js.Value neg m _ => neg = false ∧ (0 ≤ m)%Z
  end.

(* ===================================================================== *)
(** * Properties                                                           *)
(* ===================================================================== *)

(** ** Doubles *)

Section Doubles.
Local Open Scope Z_scope.

Lemma number_eqb_eq (a b : number) : Js.number_eqb a b = true ↔ a = b.
Proof.
  destruct a as [|x|m k|s], b as [|y|m' k'|t]; simpl; split; try done.
  - intros ?%Z.eqb_eq. by f_equal.
  - intros [= ->]. apply Z.eqb_refl.
  - intros [?%Z.eqb_eq ?%Pos.eqb_eq]%andb_true_iff. by f_equal.
  - intros [= -> ->]. by rewrite Z.eqb_refl, Pos.eqb_refl.
  - intros ?%Bool.eqb_prop. by f_equal.
  - intros [= ->]. by destruct t.
Qed.

Lemma denominator_pos (x : number) : 0 < Js.denominator x.
Proof. destruct x; simpl; lia. Qed.

(** ** Lowest terms *)

Lemma dyadic_floor (m : Z) (k : nat) :
  Js.floor (Js.dyadic m k) = m / 2 ^ Z.of_nat k.
Proof.
  revert m. induction k as [|k IH]; intros m.
  - unfold Js.floor. simpl. by rewrite Z.pow_0_r.
  - cbn [Js.dyadic]. destruct (Z.even m) eqn:Hm.
    + rewrite IH, Nat2Z.inj_succ, Z.pow_succ_r by lia.
      by rewrite Z.div_div by lia.
    + unfold Js.floor. simpl. by rewrite Zpos_P_of_succ_nat, Nat2Z.inj_succ.
Qed.

Lemma dyadic_nonneg (m : Z) (k : nat) :
  0 ≤ m →
  Js.isFinite (Js.dyadic m k) = true ∧ 0 ≤ Js.numerator (Js.dyadic m k).
Proof.
  revert m. induction k as [|k IH]; intros m Hm; [done|].
  cbn [Js.dyadic]. destruct (Z.even m); [|done].
  apply IH. by apply Z.div_pos.
Qed.

Lemma dyadic_shift (p : Z) (k : nat) :
  Js.dyadic (p * 2 ^ Z.of_nat k) k = Int p.
Proof.
  induction k as [|k IH]; simpl Js.dyadic.
  - f_equal. simpl. lia.
  - rewrite Nat2Z.inj_succ, Z.pow_succ_r by lia.
    replace (p * (2 * 2 ^ Z.of_nat k)) with (2 * (p * 2 ^ Z.of_nat k)) by lia.
    rewrite Z.even_mul. simpl.
    replace (2 * (p * 2 ^ Z.of_nat k) / 2) with (p * 2 ^ Z.of_nat k); [done|].
    rewrite (Z.mul_comm 2), Z.div_mul; lia.
Qed.

(** ** Rounding *)

Lemma roundHalfEven_bounds (n d : Z) :
  n / d ≤ Js.roundHalfEven n d ≤ n / d + 1.
Proof.
  unfold Js.roundHalfEven.
  destruct (2 * (n mod d) <? d); [lia|].
  destruct (d <? 2 * (n mod d)); [lia|].
  destruct (Z.even (n / d)); lia.
Qed.

Lemma roundHalfEven_exact (n d : Z) :
  0 < d → n mod d = 0 → Js.roundHalfEven n d = n / d.
Proof.
  intros Hd Hr. unfold Js.roundHalfEven. rewrite Hr.
  destruct (Z.ltb_spec (2 * 0) d); [done|lia].
Qed.

(** [exponent p q] is not above the binary logarithm of [p / q]. *)
Lemma exponent_lower (p q : Z) :
  0 < p → 0 < q →
  (0 ≤ Js.exponent p q → q * 2 ^ Js.exponent p q ≤ p) ∧
  (Js.exponent p q < 0 → q ≤ p * 2 ^ (- Js.exponent p q)).
Proof.
  intros Hp Hq. unfold Js.exponent.
  destruct (Z.log2_spec p Hp) as [Hp1 _].
  destruct (Z.log2_spec q Hq) as [_ Hq2].
  pose proof (Z.log2_nonneg p) as Hlp. pose proof (Z.log2_nonneg q) as Hlq.
  set (lp := Z.log2 p) in *. set (lq := Z.log2 q) in *.
  assert (0 ≤ lp - lq - 1 → q * 2 ^ (lp - lq - 1) ≤ p) as Habove.
  { intros He. assert (q * 2 ^ (lp - lq - 1) < 2 ^ lp); [|lia].
    replace lp with (Z.succ lq + (lp - lq - 1)) at 2 by lia.
    rewrite Z.pow_add_r by lia.
    apply Z.mul_lt_mono_pos_r; [|lia]. apply Z.pow_pos_nonneg; lia. }
  assert (lp - lq - 1 < 0 → q ≤ p * 2 ^ (- (lp - lq - 1))) as Hbelow.
  { intros He. assert (2 ^ Z.succ lq ≤ p * 2 ^ (- (lp - lq - 1))); [|lia].
    replace (Z.succ lq) with (lp + (- (lp - lq - 1))) by lia.
    rewrite Z.pow_add_r by lia.
    apply Z.mul_le_mono_nonneg_r; [|lia]. apply Z.pow_nonneg; lia. }
  destruct (Z.leb_spec 0 (lp - lq)) as [Hd|Hd].
  - destruct (Z.leb_spec (q * 2 ^ (lp - lq)) p) as [Hc|Hc]; cbv iota.
    + split; [done|lia].
    + done.
  - destruct (Z.leb_spec q (p * 2 ^ (- (lp - lq)))) as [Hc|Hc]; cbv iota.
    + split; [lia|done].
    + done.
Qed.

Lemma exponent_le (p q e : Z) :
  0 < p → 0 < q → 0 ≤ e → p < q * 2 ^ (e + 1) → Js.exponent p q ≤ e.
Proof.
  intros Hp Hq He Hlt.
  destruct (exponent_lower p q Hp Hq) as [Hlow _].
  destruct (Z.le_gt_cases (Js.exponent p q) e) as [|Hgt]; [done|].
  specialize (Hlow ltac:(lia)).
  assert (q * 2 ^ (e + 1) ≤ q * 2 ^ Js.exponent p q); [|lia].
  apply Z.mul_le_mono_nonneg_l; [lia|]. apply Z.pow_le_mono_r; lia.
Qed.

Lemma exponent_integer (p : Z) : 0 < p → Js.exponent p 1 = Z.log2 p.
Proof.
  intros Hp. unfold Js.exponent. change (Z.log2 1) with 0.
  rewrite Z.sub_0_r. pose proof (Z.log2_nonneg p).
  destruct (Z.log2_spec p Hp) as [Hp1 _].
  destruct (Z.leb_spec 0 (Z.log2 p)); [|lia].
  destruct (Z.leb_spec (1 * 2 ^ Z.log2 p) p); [done|lia].
Qed.

Lemma pow2_53_lt : 2 ^ 53 + 1 < 2 ^ 1024.
Proof. by apply Z.ltb_lt. Qed.

(** An integer up to [2^53] is a double. *)
Lemma roundPositive_Int (p : Z) :
  0 < p ≤ 2 ^ 53 → Js.roundPositive p 1 = Int p.
Proof.
  intros [Hp Hle].
  destruct (decide (p = 2 ^ 53)) as [->|Hne]; [by vm_compute|].
  unfold Js.roundPositive. rewrite exponent_integer by done.
  assert (0 ≤ Z.log2 p ≤ 52) as Hl.
  { split; [apply Z.log2_nonneg|].
    assert (Z.log2 p < 53); [|lia]. apply Z.log2_lt_pow2; lia. }
  rewrite Z.max_l by lia.
  destruct (Z.leb_spec 0 (Z.log2 p - 52)) as [Hu|Hu].
  - replace (Z.log2 p - 52) with 0 by lia.
    rewrite Z.pow_0_r, !Z.mul_1_r.
    rewrite roundHalfEven_exact, Z.div_1_r by (try apply Z.mod_1_r; lia).
    pose proof pow2_53_lt. destruct (Z.leb_spec (2 ^ 1024) p); [lia|done].
  - rewrite roundHalfEven_exact, Z.div_1_r by (try apply Z.mod_1_r; lia).
    rewrite <- (Z2Nat.id (- (Z.log2 p - 52))) at 1 by lia.
    apply dyadic_shift.
Qed.

(** Rounding does not go below the integer part, up to [2^53]. *)
Lemma roundPositive_floor (p q : Z) :
  0 < p → 0 < q → p ≤ 2 ^ 53 * q →
  Js.isFinite (Js.roundPositive p q) = true ∧
  0 ≤ Js.numerator (Js.roundPositive p q) ∧
  p / q ≤ Js.floor (Js.roundPositive p q).
Proof.
  intros Hp Hq Hle.
  assert (0 ≤ p / q ≤ 2 ^ 53) as Hdiv.
  { split; [apply Z.div_pos; lia|]. apply Z.div_le_upper_bound; lia. }
  assert (Js.exponent p q ≤ 53) as He.
  { apply exponent_le; lia. }
  destruct (exponent_lower p q Hp Hq) as [Hlow _].
  unfold Js.roundPositive.
  set (u := Z.max (Js.exponent p q - 52) (- 1074)).
  destruct (Z.leb_spec 0 u) as [Hu|Hu].
  - assert (u = Js.exponent p q - 52) as Hueq by lia.
    pose proof pow2_53_lt as Hbig.
    destruct (decide (u = 0)) as [Hu0|Hu0].
    + rewrite Hu0, Z.pow_0_r, !Z.mul_1_r.
      pose proof (roundHalfEven_bounds p q) as Hm.
      destruct (Z.leb_spec (2 ^ 1024) (Js.roundHalfEven p q)); [lia|].
      unfold Js.floor. simpl. rewrite Z.div_1_r. lia.
    + assert (u = 1) as -> by lia.
      assert (p = q * 2 ^ 53) as Hpq.
      { specialize (Hlow ltac:(lia)).
        replace (Js.exponent p q) with 53 in Hlow by lia. lia. }
      change (2 ^ 1) with 2.
      assert (Js.roundHalfEven p (q * 2) = 2 ^ 52) as ->.
      { assert (p = 2 ^ 52 * (q * 2)) as ->.
        { rewrite Hpq. change (2 ^ 53) with (2 ^ 52 * 2). lia. }
        rewrite roundHalfEven_exact by (try apply Z.mod_mul; lia).
        apply Z.div_mul. lia. }
      change (2 ^ 1024 <=? 2 ^ 52 * 2) with false. cbv iota.
      unfold Js.floor. simpl Js.numerator. simpl Js.denominator.
      rewrite Z.div_1_r. split; [done|]. split; [done|].
      rewrite Hpq, (Z.mul_comm q), Z.div_mul by lia. done.
  - set (k := - u) in *.
    pose proof (roundHalfEven_bounds (p * 2 ^ k) q) as Hm.
    assert (0 < 2 ^ k) as Hk by (apply Z.pow_pos_nonneg; lia).
    assert (0 ≤ p * 2 ^ k / q) as Hnn by (apply Z.div_pos; lia).
    destruct (dyadic_nonneg (Js.roundHalfEven (p * 2 ^ k) q) (Z.to_nat k))
      as [Hfin Hnum]; [lia|].
    split; [done|]. split; [done|].
    rewrite dyadic_floor, Z2Nat.id by lia.
    transitivity (p * 2 ^ k / q / 2 ^ k).
    + rewrite Z.div_div, Z.div_mul_cancel_r by lia. done.
    + apply Z.div_le_mono; lia.
Qed.

(** ** [i++] *)

Lemma incr_Int (z : Z) : 0 ≤ z < 2 ^ 53 → Js.incr (Int z) = Int (z + 1).
Proof.
  intros Hz. unfold Js.incr, Js.ofRational. simpl.
  destruct (Z.eqb_spec (z + 1) 0); [lia|].
  destruct (Z.ltb_spec 0 (z + 1)); [|lia].
  apply roundPositive_Int. lia.
Qed.

(** Below [2^53] a step goes past the next integer. *)
Lemma incr_grows (i : number) :
  Js.isFinite i = true → 0 ≤ Js.numerator i →
  Js.numerator i + Js.denominator i ≤ 2 ^ 53 * Js.denominator i →
  Js.isFinite (Js.incr i) = true ∧ 0 ≤ Js.numerator (Js.incr i) ∧
  Js.floor i + 1 ≤ Js.floor (Js.incr i).
Proof.
  intros Hfin Hnum Hle. pose proof (denominator_pos i) as Hden.
  assert (Js.incr i
          = Js.roundPositive (Js.numerator i + Js.denominator i)
                             (Js.denominator i)) as ->.
  { unfold Js.incr, Js.ofRational.
    destruct (Z.eqb_spec (Js.numerator i + Js.denominator i) 0); [lia|].
    destruct (Z.ltb_spec 0 (Js.numerator i + Js.denominator i)); [|lia].
    by destruct i. }
  destruct (roundPositive_floor (Js.numerator i + Js.denominator i)
              (Js.denominator i)) as (? & ? & Hfloor); try lia.
  split; [done|]. split; [done|].
  unfold Js.floor at 1.
  assert ((Js.numerator i + Js.denominator i) / Js.denominator i
          = Js.numerator i / Js.denominator i + 1) as Heq.
  { replace (Js.numerator i + Js.denominator i)
      with (Js.numerator i + 1 * Js.denominator i) by lia.
    apply Z.div_add. lia. }
  by rewrite Heq in Hfloor.
Qed.

(** ** [<=] *)

Lemma le_finite (a b : number) :
  Js.isFinite a = true → Js.isFinite b = true →
  Js.le a b
  = (Js.numerator a * Js.denominator b <=? Js.numerator b * Js.denominator a).
Proof. by destruct a, b. Qed.

Lemma le_floor (a b : number) :
  Js.isFinite a = true → Js.isFinite b = true → Js.le a b = true →
  Js.floor a ≤ Js.floor b.
Proof.
  intros Ha Hb. rewrite le_finite by done. intros Hle%Z.leb_le.
  pose proof (denominator_pos a). pose proof (denominator_pos b).
  unfold Js.floor. apply Z.div_le_lower_bound; [lia|].
  pose proof (Z.mul_div_le (Js.numerator a) (Js.denominator a)).
  nia.
Qed.

Lemma le_Int_mono (x y : Z) (e : number) :
  x ≤ y → Js.le (Int y) e = true → Js.le (Int x) e = true.
Proof.
  intros Hxy. destruct e as [|b|m k|[]]; simpl; try done.
  - rewrite !Z.leb_le. lia.
  - rewrite !Z.leb_le. assert (0 < 2 ^ Z.pos k) by lia. nia.
Qed.

(** A finite number that is below or equal to an integer makes the other
    side of [<=] finite too. *)
Lemma le_finite_r (i e : number) (n : Z) :
  Js.isFinite i = true → Js.le i e = true → Js.le e (Int n) = true →
  Js.isFinite e = true.
Proof. by destruct i, e as [| | |[]]. Qed.

Lemma le_trans_Int (i e : number) (n : Z) :
  Js.isFinite i = true → Js.le i e = true → Js.le e (Int n) = true →
  Js.numerator i ≤ n * Js.denominator i.
Proof.
  intros Hi Hie Hen. pose proof (le_finite_r i e n Hi Hie Hen) as He.
  rewrite le_finite in Hie, Hen by done. simpl in Hen.
  apply Z.leb_le in Hie, Hen.
  pose proof (denominator_pos i). pose proof (denominator_pos e).
  apply (Z.mul_le_mono_pos_r _ _ (Js.denominator e)); [done|]. nia.
Qed.

Lemma incr_stuck : Js.incr (Int (2 ^ 53)) = Int (2 ^ 53).
Proof. by vm_compute. Qed.

(** From an integer, the rounds of [++] count up to [2^53] and stay
    there. *)
Lemma after_Int (n : nat) (a : Z) :
  0 ≤ a ≤ 2 ^ 53 → after n (Int a) = Int (Z.min (a + Z.of_nat n) (2 ^ 53)).
Proof.
  revert a. induction n as [|n IH]; intros a Ha.
  - simpl. f_equal. lia.
  - cbn [after]. destruct (decide (a = 2 ^ 53)) as [->|Hne].
    + rewrite incr_stuck, IH by lia. f_equal. lia.
    + rewrite incr_Int, IH by lia. f_equal. lia.
Qed.

(** [exponent p q] is not below the binary logarithm of [p / q] either. *)
Lemma exponent_upper (p q : Z) :
  0 < p → 0 < q →
  (0 ≤ Js.exponent p q + 1 → p < q * 2 ^ (Js.exponent p q + 1)) ∧
  (Js.exponent p q + 1 < 0 → p * 2 ^ (- (Js.exponent p q + 1)) < q).
Proof.
  intros Hp Hq. unfold Js.exponent.
  destruct (Z.log2_spec p Hp) as [_ Hp2].
  destruct (Z.log2_spec q Hq) as [Hq1 _].
  pose proof (Z.log2_nonneg p) as Hlp. pose proof (Z.log2_nonneg q) as Hlq.
  set (lp := Z.log2 p) in *. set (lq := Z.log2 q) in *.
  assert (0 ≤ lp - lq + 1 → p < q * 2 ^ (lp - lq + 1)) as Habove.
  { intros He. assert (2 ^ Z.succ lp ≤ q * 2 ^ (lp - lq + 1)); [|lia].
    replace (Z.succ lp) with (lq + (lp - lq + 1)) by lia.
    rewrite Z.pow_add_r by lia.
    apply Z.mul_le_mono_nonneg_r; [|lia]. apply Z.pow_nonneg; lia. }
  assert (lp - lq + 1 < 0 → p * 2 ^ (- (lp - lq + 1)) < q) as Hbelow.
  { intros He. assert (p * 2 ^ (- (lp - lq + 1)) < 2 ^ lq); [|lia].
    replace lq with (Z.succ lp + (- (lp - lq + 1))) at 2 by lia.
    rewrite Z.pow_add_r by lia.
    apply Z.mul_lt_mono_pos_r; [|lia]. apply Z.pow_pos_nonneg; lia. }
  destruct (Z.leb_spec 0 (lp - lq)) as [Hd|Hd].
  - destruct (Z.leb_spec (q * 2 ^ (lp - lq)) p) as [Hc|Hc]; cbv iota.
    + done.
    + replace (lp - lq - 1 + 1) with (lp - lq) by lia. split; [done|lia].
  - destruct (Z.leb_spec q (p * 2 ^ (- (lp - lq)))) as [Hc|Hc]; cbv iota.
    + done.
    + replace (lp - lq - 1 + 1) with (lp - lq) by lia. split; [lia|done].
Qed.

(** [dyadic m k] has the value [m / 2^k]. *)
Lemma dyadic_value (m : Z) (k : nat) :
  Js.numerator (Js.dyadic m k) * 2 ^ Z.of_nat k
  = m * Js.denominator (Js.dyadic m k).
Proof.
  revert m. induction k as [|k IH]; intros m.
  - simpl. lia.
  - cbn [Js.dyadic]. destruct (Z.even m) eqn:Hm.
    + rewrite Nat2Z.inj_succ, Z.pow_succ_r by lia.
      apply Z.even_spec in Hm as [h ->].
      specialize (IH h). rewrite (Z.mul_comm 2 h), Z.div_mul by lia. lia.
    + simpl. by rewrite Zpos_P_of_succ_nat, Nat2Z.inj_succ.
Qed.

(** Rounding does not go above [2^53] from at most a half above it. *)
Lemma roundPositive_upper (p q : Z) :
  0 < p → 0 < q → p ≤ (2 ^ 53 + 1) * q →
  Js.isFinite (Js.roundPositive p q) = true ∧
  0 ≤ Js.numerator (Js.roundPositive p q) ∧
  Js.numerator (Js.roundPositive p q)
  ≤ 2 ^ 53 * Js.denominator (Js.roundPositive p q).
Proof.
  intros Hp Hq Hle.
  assert (Js.exponent p q ≤ 53) as He.
  { apply exponent_le; lia. }
  destruct (exponent_lower p q Hp Hq) as [Hlow _].
  destruct (exponent_upper p q Hp Hq) as [Hup Hup'].
  unfold Js.roundPositive.
  set (u := Z.max (Js.exponent p q - 52) (- 1074)).
  destruct (Z.leb_spec 0 u) as [Hu|Hu].
  - assert (u = Js.exponent p q - 52) as Hueq by lia.
    pose proof pow2_53_lt as Hbig.
    destruct (decide (u = 0)) as [Hu0|Hu0].
    + rewrite Hu0, Z.pow_0_r, !Z.mul_1_r.
      pose proof (roundHalfEven_bounds p q) as Hm.
      assert (0 ≤ p / q < 2 ^ 53) as Hdiv.
      { split; [apply Z.div_pos; lia|]. apply Z.div_lt_upper_bound; [lia|].
        specialize (Hup ltac:(lia)).
        replace (Js.exponent p q + 1) with 53 in Hup by lia. lia. }
      destruct (Z.leb_spec (2 ^ 1024) (Js.roundHalfEven p q)); [lia|].
      simpl. lia.
    + assert (u = 1) as -> by lia.
      specialize (Hlow ltac:(lia)).
      replace (Js.exponent p q) with 53 in Hlow by lia.
      change (2 ^ 1) with 2.
      assert (Js.roundHalfEven p (q * 2) = 2 ^ 52) as ->.
      { assert (p / (q * 2) = 2 ^ 52) as Hf.
        { symmetry. apply (Z.div_unique _ _ _ (p - 2 ^ 52 * (q * 2))).
          - change (2 ^ 53) with (2 ^ 52 * 2) in *. lia.
          - lia. }
        assert (p mod (q * 2) = p - 2 ^ 53 * q) as Hr.
        { rewrite Z.mod_eq, Hf by lia.
          change (2 ^ 53) with (2 ^ 52 * 2). lia. }
        unfold Js.roundHalfEven. rewrite Hf, Hr.
        destruct (Z.ltb_spec (2 * (p - 2 ^ 53 * q)) (q * 2)); [done|].
        destruct (Z.ltb_spec (q * 2) (2 * (p - 2 ^ 53 * q))); [lia|done]. }
      change (2 ^ 1024 <=? 2 ^ 52 * 2) with false. cbv iota. simpl.
      change (2 ^ 53) with (2 ^ 52 * 2). lia.
  - set (k := - u) in *.
    pose proof (roundHalfEven_bounds (p * 2 ^ k) q) as Hm.
    assert (0 < 2 ^ k) as Hk by (apply Z.pow_pos_nonneg; lia).
    assert (0 ≤ p * 2 ^ k / q) as Hnn by (apply Z.div_pos; lia).
    assert (p * 2 ^ k / q < 2 ^ 53 * 2 ^ k) as Hlt.
    { apply Z.div_lt_upper_bound; [lia|].
      assert (p < q * 2 ^ 53); [|nia].
      destruct (Z.le_gt_cases 0 (Js.exponent p q + 1)) as [Hpos|Hneg].
      - specialize (Hup Hpos).
        assert (q * 2 ^ (Js.exponent p q + 1) ≤ q * 2 ^ 53); [|lia].
        apply Z.mul_le_mono_nonneg_l; [lia|]. apply Z.pow_le_mono_r; lia.
      - specialize (Hup' Hneg).
        assert (0 < 2 ^ (- (Js.exponent p q + 1)))
          by (apply Z.pow_pos_nonneg; lia).
        nia. }
    destruct (dyadic_nonneg (Js.roundHalfEven (p * 2 ^ k) q) (Z.to_nat k))
      as [Hfin Hnum]; [lia|].
    split; [done|]. split; [done|].
    pose proof (dyadic_value (Js.roundHalfEven (p * 2 ^ k) q) (Z.to_nat k))
      as Hval.
    rewrite Z2Nat.id in Hval by lia.
    pose proof (denominator_pos
                  (Js.dyadic (Js.roundHalfEven (p * 2 ^ k) q) (Z.to_nat k))).
    apply (Z.mul_le_mono_pos_r _ _ (2 ^ k)); [done|]. nia.
Qed.

(** Up to [2^53], a step does not go above [2^53]. *)
Lemma incr_upper (i : number) :
  Js.isFinite i = true → 0 ≤ Js.numerator i →
  Js.numerator i ≤ 2 ^ 53 * Js.denominator i →
  Js.isFinite (Js.incr i) = true ∧ 0 ≤ Js.numerator (Js.incr i) ∧
  Js.numerator (Js.incr i) ≤ 2 ^ 53 * Js.denominator (Js.incr i).
Proof.
  intros Hfin Hnum Hle. pose proof (denominator_pos i) as Hden.
  assert (Js.incr i
          = Js.roundPositive (Js.numerator i + Js.denominator i)
                             (Js.denominator i)) as ->.
  { unfold Js.incr, Js.ofRational.
    destruct (Z.eqb_spec (Js.numerator i + Js.denominator i) 0); [lia|].
    destruct (Z.ltb_spec 0 (Js.numerator i + Js.denominator i)); [|lia].
    by destruct i. }
  apply roundPositive_upper; lia.
Qed.

Lemma le_from_Int (i e : number) (n : Z) :
  Js.isFinite i = true → Js.numerator i ≤ n * Js.denominator i →
  Js.le (Int n) e = true → Js.le i e = true.
Proof.
  intros Hi Hin. pose proof (denominator_pos i).
  destruct e as [|b|m k|[]]; try done.
  - rewrite !le_finite by done. simpl. rewrite !Z.leb_le. nia.
  - rewrite !le_finite by done. simpl. rewrite !Z.leb_le.
    assert (0 < 2 ^ Z.pos k) by lia. nia.
  - intros _. by destruct i.
Qed.

(** ** [Number] gives no negative number to a string without a dash *)

Lemma roundPositive_nonneg (p q : Z) :
  0 < p → 0 < q →
  Js.roundPositive p q ≠ Infinity true ∧
  0 ≤ Js.numerator (Js.roundPositive p q).
Proof.
  intros Hp Hq. unfold Js.roundPositive.
  set (u := Z.max (Js.exponent p q - 52) (- 1074)).
  destruct (Z.leb_spec 0 u) as [Hu|Hu].
  - assert (0 < 2 ^ u) as Hpow by (apply Z.pow_pos_nonneg; lia).
    pose proof (roundHalfEven_bounds p (q * 2 ^ u)) as Hm.
    assert (0 ≤ p / (q * 2 ^ u)) by (apply Z.div_pos; lia).
    destruct (2 ^ 1024 <=? _); [done|]. split; [done|]. simpl.
    apply Z.mul_nonneg_nonneg; lia.
  - assert (0 < 2 ^ (- u)) as Hpow by (apply Z.pow_pos_nonneg; lia).
    pose proof (roundHalfEven_bounds (p * 2 ^ (- u)) q) as Hm.
    assert (0 ≤ p * 2 ^ (- u) / q) by (apply Z.div_pos; lia).
    destruct (dyadic_nonneg (Js.roundHalfEven (p * 2 ^ (- u)) q)
                (Z.to_nat (- u))) as [Hfin Hnum]; [lia|].
    split; [|done]. intros Heq. by rewrite Heq in Hfin.
Qed.

Lemma ofRational_nonneg (p q : Z) :
  0 ≤ p → 0 < q →
  Js.ofRational p q ≠ Infinity true ∧ 0 ≤ Js.numerator (Js.ofRational p q).
Proof.
  intros Hp Hq. unfold Js.ofRational.
  destruct (Z.eqb_spec p 0); [done|].
  destruct (Z.ltb_spec 0 p); [|lia]. by apply roundPositive_nonneg.
Qed.

Lemma digitValue_nonneg (radix : Z) (c : ascii) (v : Z) :
  Js.digitValue radix c = Some v → 0 ≤ v.
Proof.
  unfold Js.digitValue. set (n := Z.of_N (N_of_ascii c)).
  destruct (Z.leb_spec 48 n), (Z.leb_spec n 57), (Z.leb_spec 97 n),
    (Z.leb_spec n 102), (Z.leb_spec 65 n), (Z.leb_spec n 70); simpl;
    try (destruct (_ <? radix); [intros [= <-]; lia|done]);
    by rewrite Z.ltb_irrefl.
Qed.

Lemma readDigits_nonneg (radix : Z) (s : string) (acc count : Z) :
  0 ≤ radix → 0 ≤ acc → 0 ≤ (Js.readDigits radix s acc count).1.1.
Proof.
  intros Hr. revert acc count.
  induction s as [|c s IH]; intros acc count Hacc; simpl; [done|].
  destruct (Js.digitValue radix c) as [v|] eqn:Hv; [|done].
  apply IH. pose proof (digitValue_nonneg _ _ _ Hv). nia.
Qed.

Lemma readUnsignedDecimal_unsigned (s : string) :
  unsigned (Js.readUnsignedDecimal false s).
Proof.
  unfold Js.readUnsignedDecimal.
  destruct (String.eqb s "Infinity"); [done|].
  pose proof (readDigits_nonneg 10 s 0 0 ltac:(lia) ltac:(lia)) as Hip.
  destruct (Js.readDigits 10 s 0 0) as [[ip ni] r1]. simpl in Hip.
  assert (0 ≤ (match r1 with
               | String c r =>
                   if Ascii.eqb c "." then Js.readDigits 10 r ip 0
                   else (ip, 0, r1)
               | EmptyString => (ip, 0, r1)
               end).1.1) as Hm.
  { destruct r1 as [|c r]; [done|]. destruct (Ascii.eqb c "."); [|done].
    by apply readDigits_nonneg. }
  destruct (match r1 with String _ _ => _ | EmptyString => _ end)
    as [[m nf] r2]. simpl in Hm.
  destruct ((0 <? ni) || (0 <? nf)); [|done].
  by destruct (Js.readExponent r2).
Qed.

Lemma readLiteral_unsigned (t : string) :
  Js.includes t "-" = false → unsigned (Js.readLiteral t).
Proof.
  intros Hdash.
  assert (unsigned (Js.readDecimal t)) as Hdec.
  { unfold Js.readDecimal. destruct t as [|c r].
    - apply readUnsignedDecimal_unsigned.
    - simpl in Hdash. destruct (Ascii.eqb c "+");
        [apply readUnsignedDecimal_unsigned|].
      destruct (Ascii.eqb c "-"); [done|].
      apply readUnsignedDecimal_unsigned. }
  unfold Js.readLiteral. destruct t as [|c0 [|c1 r]]; try done.
  destruct (Js.radixOfPrefix c0 c1) as [radix|] eqn:Hradix; [|done].
  assert (0 ≤ radix) as Hr.
  { unfold Js.radixOfPrefix in Hradix.
    destruct (Ascii.eqb c0 "0"); [|done].
    destruct (_ || _); [by injection Hradix as <-|].
    destruct (_ || _); [by injection Hradix as <-|].
    destruct (_ || _); [by injection Hradix as <-|done]. }
  unfold Js.readRadix.
  pose proof (readDigits_nonneg radix r 0 0 Hr ltac:(lia)) as Hv.
  destruct (Js.readDigits radix r 0 0) as [[v n] rest]. simpl in Hv.
  destruct rest; [|done]. by destruct (0 <? n).
Qed.

Lemma trimStart_without (s : string) (c : ascii) :
  Js.includes s c = false → Js.includes (Js.trimStart s) c = false.
Proof.
  induction s as [|d s IH]; simpl; [done|].
  destruct (Ascii.eqb d c) eqn:Hd; [done|]. intros Hs.
  destruct (Js.isWhiteSpace d); [auto|]. simpl. by rewrite Hd.
Qed.

Lemma trimEnd_without (s : string) (c : ascii) :
  Js.includes s c = false → Js.includes (Js.trimEnd s) c = false.
Proof.
  induction s as [|d s IH]; simpl; [done|].
  destruct (Ascii.eqb d c) eqn:Hd; [done|]. intros Hs.
  destruct (Js.isWhiteSpace d && Js.isEmpty (Js.trimEnd s)); [done|].
  simpl. rewrite Hd. auto.
Qed.

(** The pieces between dashes are never read as negative. *)
Lemma Number_without_dash (s : string) :
  Js.includes s "-" = false →
  Js.Number s ≠ Infinity true ∧ 0 ≤ Js.numerator (Js.Number s).
Proof.
  intros Hdash. unfold Js.Number.
  destruct (Js.isEmpty (Js.trim s)); [done|].
  pose proof (readLiteral_unsigned (Js.trim s)) as Hl.
  destruct (Js.readLiteral (Js.trim s)) as [|neg|neg m k]; simpl.
  - done.
  - rewrite Hl; [done|]. by apply trimEnd_without, trimStart_without.
  - destruct Hl as [-> Hm]; [by apply trimEnd_without, trimStart_without|].
    destruct (Z.leb_spec 0 k).
    + apply ofRational_nonneg; [|lia].
      apply Z.mul_nonneg_nonneg; [done|]. apply Z.pow_nonneg. lia.
    + apply ofRational_nonneg; [done|]. apply Z.pow_pos_nonneg; lia.
Qed.

(** ** The numbers that [Number] and [++] give *)

Lemma dyadic_unsigned (m : Z) (k : nat) :
  0 ≤ m ≤ 2 ^ 53 → unsignedDouble (Js.dyadic m k).
Proof.
  revert m. induction k as [|k IH]; intros m Hm; cbn [Js.dyadic].
  - simpl. destruct (decide (m = 2 ^ 53)) as [->|Hne].
    + exists (2 ^ 52), 1. split; [lia|]. split; [lia|done].
    + exists m, 0. split; [lia|]. split; [lia|]. rewrite Z.pow_0_r. lia.
  - destruct (Z.even m) eqn:Heven.
    + apply IH. split; [apply Z.div_pos; lia|].
      apply Z.div_le_upper_bound; lia.
    + simpl. destruct (decide (m = 2 ^ 53)) as [->|Hne]; [done|lia].
Qed.

Lemma roundHalfEven_upper (n d b : Z) :
  0 < d → n < b * d → Js.roundHalfEven n d ≤ b.
Proof.
  intros Hd Hn. pose proof (roundHalfEven_bounds n d).
  assert (n / d < b) by (apply Z.div_lt_upper_bound; lia). lia.
Qed.

Lemma roundPositive_unsigned (p q : Z) :
  0 < p → 0 < q → unsignedDouble (Js.roundPositive p q).
Proof.
  intros Hp Hq.
  destruct (exponent_upper p q Hp Hq) as [Hup Hup'].
  unfold Js.roundPositive.
  set (e := Js.exponent p q) in *.
  set (u := Z.max (e - 52) (- 1074)).
  destruct (Z.leb_spec 0 u) as [Hu|Hu].
  - assert (0 < 2 ^ u) as Hpow by (apply Z.pow_pos_nonneg; lia).
    pose proof (roundHalfEven_bounds p (q * 2 ^ u)) as Hm.
    assert (0 ≤ p / (q * 2 ^ u)) by (apply Z.div_pos; lia).
    assert (Js.roundHalfEven p (q * 2 ^ u) ≤ 2 ^ 53) as Hle.
    { apply roundHalfEven_upper; [lia|].
      specialize (Hup ltac:(lia)).
      assert (2 ^ (e + 1) ≤ 2 ^ 53 * 2 ^ u); [|nia].
      rewrite <- Z.pow_add_r by lia. apply Z.pow_le_mono_r; lia. }
    destruct (2 ^ 1024 <=? _); [done|]. simpl.
    destruct (decide (Js.roundHalfEven p (q * 2 ^ u) = 2 ^ 53)) as [->|Hne].
    + exists (2 ^ 52), (u + 1). split; [lia|]. split; [lia|].
      rewrite Z.pow_add_r by lia. change (2 ^ 53) with (2 ^ 52 * 2 ^ 1). lia.
    + exists (Js.roundHalfEven p (q * 2 ^ u)), u. split; [done|].
      split; [lia|done].
  - set (k := - u) in *.
    assert (0 < 2 ^ k) as Hpow by (apply Z.pow_pos_nonneg; lia).
    pose proof (roundHalfEven_bounds (p * 2 ^ k) q) as Hm.
    assert (0 ≤ p * 2 ^ k / q) by (apply Z.div_pos; lia).
    apply dyadic_unsigned. split; [lia|].
    apply roundHalfEven_upper; [lia|].
    destruct (Z.le_gt_cases 0 (e + 1)) as [Hpos|Hneg].
    + specialize (Hup Hpos).
      assert (2 ^ (e + 1) * 2 ^ k ≤ 2 ^ 53); [|nia].
      rewrite <- Z.pow_add_r by lia. apply Z.pow_le_mono_r; lia.
    + specialize (Hup' Hneg).
      assert (0 < 2 ^ (- (e + 1))) by (apply Z.pow_pos_nonneg; lia).
      assert (2 ^ k ≤ 2 ^ 53 * 2 ^ (- (e + 1))); [|nia].
      rewrite <- Z.pow_add_r by lia. apply Z.pow_le_mono_r; lia.
Qed.

Lemma ofRational_unsigned (p q : Z) :
  0 ≤ p → 0 < q → unsignedDouble (Js.ofRational p q).
Proof.
  intros Hp Hq. unfold Js.ofRational.
  destruct (Z.eqb_spec p 0).
  { exists 0, 0. split; [done|]. split; [lia|done]. }
  destruct (Z.ltb_spec 0 p); [|lia]. by apply roundPositive_unsigned.
Qed.

Lemma unsignedDouble_nonneg (x : number) :
  unsignedDouble x → 0 ≤ Js.numerator x.
Proof.
  destruct x as [|z|m k|neg]; simpl; try done; [|lia].
  intros (m & u & Hu & Hm & ->).
  apply Z.mul_nonneg_nonneg; [lia|]. by apply Z.pow_nonneg.
Qed.

Lemma incr_unsigned (i : number) :
  unsignedDouble i → unsignedDouble (Js.incr i).
Proof.
  intros Hi. pose proof (unsignedDouble_nonneg i Hi).
  pose proof (denominator_pos i).
  destruct i as [|z|m k|neg]; try done; unfold Js.incr;
    apply ofRational_unsigned; lia.
Qed.

(** A round from a double that is not negative leaves it where it is,
    goes to infinity, or takes it past the next integer. *)
Lemma incr_moves (i : number) :
  unsignedDouble i → Js.isFinite i = true →
  Js.incr i = i ∨ Js.incr i = Infinity false ∨
  (Js.isFinite (Js.incr i) = true ∧ Js.floor i + 1 ≤ Js.floor (Js.incr i)).
Proof.
  intros Hi Hfin. pose proof (unsignedDouble_nonneg i Hi) as Hnum.
  pose proof (denominator_pos i) as Hden.
  destruct (Z.le_gt_cases (Js.numerator i + Js.denominator i)
              (2 ^ 53 * Js.denominator i)) as [Hle|Hgt].
  { destruct (incr_grows i Hfin Hnum Hle) as (? & _ & ?). auto. }
  destruct i as [|z|m k|neg]; try done; simpl in *.
  2:{ assert (2 ≤ 2 ^ Z.pos k); [|lia].
      change 2 with (2 ^ 1) at 1. apply Z.pow_le_mono_r; lia. }
  destruct Hi as (M & U & HU & HM & Hz).
  assert (1 ≤ U) as HU1.
  { destruct (decide (U = 0)) as [->|]; [|lia].
    rewrite Z.pow_0_r in Hz. lia. }
  assert (z + 1 < 2 ^ (53 + U)) as Hlt.
  { rewrite Z.pow_add_r by lia.
    assert (2 ≤ 2 ^ U); [|nia].
    change 2 with (2 ^ 1) at 1. apply Z.pow_le_mono_r; lia. }
  unfold Js.incr, Js.ofRational. simpl.
  destruct (Z.eqb_spec (z + 1) 0); [lia|].
  destruct (Z.ltb_spec 0 (z + 1)); [|lia].
  unfold Js.roundPositive. rewrite exponent_integer by lia.
  assert (53 ≤ Z.log2 (z + 1) < 53 + U) as Hlog.
  { split; [|apply Z.log2_lt_pow2; lia].
    change 53 with (Z.log2 (2 ^ 53)). apply Z.log2_le_mono. lia. }
  rewrite Z.max_l by lia.
  set (u := Z.log2 (z + 1) - 52) in *.
  destruct (Z.leb_spec 0 u); [|lia].
  rewrite Z.mul_1_l.
  assert (0 < 2 ^ u) as Hpow by (apply Z.pow_pos_nonneg; lia).
  pose proof (roundHalfEven_bounds (z + 1) (2 ^ u)) as Hm.
  assert (M * 2 ^ (U - u) ≤ (z + 1) / 2 ^ u) as Hf.
  { apply Z.div_le_lower_bound; [done|].
    assert (2 ^ u * (M * 2 ^ (U - u)) = z); [|lia].
    rewrite Hz. replace U with (u + (U - u)) at 2 by lia.
    rewrite Z.pow_add_r by lia. lia. }
  assert (z ≤ Js.roundHalfEven (z + 1) (2 ^ u) * 2 ^ u) as Hge.
  { transitivity (M * 2 ^ (U - u) * 2 ^ u); [|nia].
    rewrite Hz. replace U with (U - u + u) at 1 by lia.
    rewrite Z.pow_add_r by lia. lia. }
  destruct (2 ^ 1024 <=? _); [auto|].
  destruct (decide (Js.roundHalfEven (z + 1) (2 ^ u) * 2 ^ u = z))
    as [->|Hne]; [auto|].
  right. right. split; [done|]. unfold Js.floor. simpl.
  rewrite !Z.div_1_r. lia.
Qed.

(** A string without a dash is read as a double that is not negative. *)
Lemma Number_unsigned (s : string) :
  Js.includes s "-" = false → unsignedDouble (Js.Number s).
Proof.
  intros Hdash. unfold Js.Number.
  destruct (Js.isEmpty (Js.trim s)).
  { exists 0, 0. split; [done|]. split; [lia|done]. }
  pose proof (readLiteral_unsigned (Js.trim s)) as Hl.
  destruct (Js.readLiteral (Js.trim s)) as [|neg|neg m k]; simpl.
  - done.
  - apply Hl. by apply trimEnd_without, trimStart_without.
  - destruct Hl as [-> Hm]; [by apply trimEnd_without, trimStart_without|].
    destruct (Z.leb_spec 0 k).
    + apply ofRational_unsigned; [|lia].
      apply Z.mul_nonneg_nonneg; [done|]. apply Z.pow_nonneg. lia.
    + apply ofRational_unsigned; [done|]. apply Z.pow_pos_nonneg; lia.
Qed.

Lemma dyadic_not_NaN (m : Z) (k : nat) : Js.dyadic m k ≠ NaN.
Proof.
  revert m. induction k as [|k IH]; intros m; cbn [Js.dyadic]; [done|].
  by destruct (Z.even m).
Qed.

Lemma incr_not_NaN (i : number) : i ≠ NaN → Js.incr i ≠ NaN.
Proof.
  assert (∀ p q, Js.roundPositive p q ≠ NaN) as Hround.
  { intros p q. unfold Js.roundPositive.
    destruct (0 <=? _); [by destruct (2 ^ 1024 <=? _)|apply dyadic_not_NaN]. }
  assert (∀ p q, Js.ofRational p q ≠ NaN) as Hrat.
  { intros p q. unfold Js.ofRational. destruct (p =? 0); [done|].
    destruct (0 <? p); [done|].
    specialize (Hround (- p) q). by destruct (Js.roundPositive (- p) q). }
  destruct i; try done; intros _; apply Hrat.
Qed.

End Doubles.

(** ** Sets of numbers *)

Lemma Set_has_add (s : list number) (y x : number) :
  Js.Set_has (Js.Set_add s y) x = Js.Set_has s x || Js.number_eqb x y.
Proof.
  unfold Js.Set_add.
  destruct (Js.Set_has s y) eqn:Hy.
  - destruct (Js.number_eqb x y) eqn:Hxy; [|by rewrite orb_false_r].
    apply number_eqb_eq in Hxy as ->. by rewrite Hy.
  - unfold Js.Set_has. rewrite existsb_app. simpl. by rewrite orb_false_r.
Qed.

Lemma Set_has_nil (x : number) : Js.Set_has [] x = false.
Proof. done. Qed.

(** ** The [for] loop of a range term *)

(** What the loop adds when it ends: [s], and what [++] makes of it step
    by step, as long as nothing so far is above [e]. *)
Lemma forLoop_Some (fuel : nat) (s e : number) (D D' : list number) :
  forLoop fuel s e D = Some D' →
  ∀ x, Js.Set_has D' x = true ↔
       Js.Set_has D x = true ∨
       ∃ n, x = after n s ∧ ∀ j, j ≤ n → Js.le (after j s) e = true.
Proof.
  assert (∀ s D x, Js.le s e = false →
            Js.Set_has D x = true ↔
            Js.Set_has D x = true ∨
            ∃ n, x = after n s ∧ ∀ j, j ≤ n → Js.le (after j s) e = true)
    as Hout.
  { intros s0 D0 x Hle. split; [by left|]. intros [?|(n & _ & Hn)]; [done|].
    specialize (Hn 0 ltac:(lia)). simpl in Hn. congruence. }
  revert s D. induction fuel as [|fuel IH]; intros s D; simpl.
  - destruct (Js.le s e) eqn:Hle; [done|]. intros [= <-] x. by apply Hout.
  - destruct (Js.le s e) eqn:Hle; [|intros [= <-] x; by apply Hout].
    intros HD' x.
    rewrite (IH _ _ HD' x), Set_has_add, orb_true_iff, number_eqb_eq. split.
    + intros [[?| ->]|(n & -> & Hn)].
      * by left.
      * right. exists 0. split; [done|]. intros j Hj.
        by replace j with 0 by lia.
      * right. exists (S n). split; [done|]. intros [|j] Hj; [done|].
        apply Hn. lia.
    + intros [?|(n & -> & Hn)]; [by left; left|].
      destruct n as [|n]; [by left; right|]. right. exists n.
      split; [done|]. intros j Hj. apply (Hn (S j)). lia.
Qed.

(** Whether the loop ends does not depend on what the set holds. *)
Lemma forLoop_is_Some (fuel : nat) (s e : number) (D D0 : list number) :
  is_Some (forLoop fuel s e D) → is_Some (forLoop fuel s e D0).
Proof.
  revert s D D0. induction fuel as [|fuel IH]; intros s D D0; simpl;
    destruct (Js.le s e); eauto.
Qed.

(** More rounds do not change the result of a loop that has ended. *)
Lemma forLoop_more (fuel k : nat) (s e : number) (D D' : list number) :
  forLoop fuel s e D = Some D' → forLoop (fuel + k) s e D = Some D'.
Proof.
  revert s D. induction fuel as [|fuel IH]; intros s D; simpl.
  - destruct (Js.le s e) eqn:Hle; [done|]. intros [= <-].
    destruct k; simpl; by rewrite Hle.
  - destruct (Js.le s e); [apply IH|done].
Qed.

(** The loop ends when its upper bound is a safe integer at most: every
    round takes [i] past the next integer. *)
Lemma forLoop_ends (fuel : nat) (i e : number) (D : list number) :
  Js.isFinite i = true → (0 ≤ Js.numerator i)%Z →
  Js.le e (Int Js.MAX_SAFE_INTEGER) = true →
  (Js.le i e = true → (Js.floor e - Js.floor i < Z.of_nat fuel)%Z) →
  is_Some (forLoop fuel i e D).
Proof.
  intros Hfin Hnum He. revert i D Hfin Hnum.
  induction fuel as [|fuel IH]; intros i D Hfin Hnum Hfuel; simpl;
    destruct (Js.le i e) eqn:Hle; eauto.
  - specialize (Hfuel eq_refl).
    pose proof (le_finite_r i e _ Hfin Hle He) as Hefin.
    pose proof (le_floor i e Hfin Hefin Hle). lia.
  - specialize (Hfuel eq_refl).
    pose proof (le_trans_Int i e _ Hfin Hle He) as Hi.
    pose proof (denominator_pos i) as Hden.
    destruct (incr_grows i Hfin Hnum) as (Hfin' & Hnum' & Hfloor).
    { unfold Js.MAX_SAFE_INTEGER in Hi. lia. }
    apply IH; [done..|]. intros _. lia.
Qed.

Lemma forLoop_rounds (s e : number) (D : list number) :
  s ≠ Infinity true → (0 ≤ Js.numerator s)%Z →
  Js.le s e = false ∨ Js.le e (Int Js.MAX_SAFE_INTEGER) = true →
  is_Some (forLoop (rounds s e) s e D).
Proof.
  intros Hs Hnum Hreach.
  destruct (Js.le s e) eqn:Hle.
  - destruct Hreach as [|He]; [done|].
    assert (Js.isFinite s = true) as Hfin.
    { destruct s as [| | |[]]; try done. by destruct e as [| | |[]]. }
    pose proof (le_finite_r s e _ Hfin Hle He) as Hefin.
    apply forLoop_ends; [done..|]. intros _.
    unfold rounds. rewrite Hfin, Hefin. simpl.
    pose proof (le_floor s e Hfin Hefin Hle). lia.
  - destruct (rounds s e); simpl; rewrite Hle; eauto.
Qed.

(** The loop does not end when the upper bound is [2^53] or more and the
    lower bound is not above [2^53]: [i] gets to [2^53] and stays there.
    No number of rounds is enough. *)
Lemma forLoop_never_ends (fuel : nat) (i e : number) (D : list number) :
  Js.isFinite i = true → (0 ≤ Js.numerator i)%Z →
  (Js.numerator i ≤ 2 ^ 53 * Js.denominator i)%Z →
  Js.le (Int (2 ^ 53)) e = true →
  forLoop fuel i e D = None.
Proof.
  intros Hfin Hnum Hle He. revert i D Hfin Hnum Hle.
  induction fuel as [|fuel IH]; intros i D Hfin Hnum Hle; simpl;
    rewrite (le_from_Int i e (2 ^ 53)) by done; [done|].
  destruct (incr_upper i) as (? & ? & ?); [done..|]. by apply IH.
Qed.

(** A loop that a round leaves where it is never ends. *)
Lemma forLoop_stuck (i e : number) :
  Js.incr i = i → Js.le i e = true → neverEnds i e.
Proof.
  intros Hstuck Hle fuel. induction fuel as [|fuel IH]; intros D; simpl;
    rewrite Hle; [done|]. rewrite Hstuck. apply IH.
Qed.

(** Up to infinity the loop never ends. *)
Lemma forLoop_to_Infinity (i : number) :
  unsignedDouble i → i ≠ NaN → neverEnds i (Infinity false).
Proof.
  intros Hi Hnan fuel. revert i Hi Hnan.
  induction fuel as [|fuel IH]; intros i Hi Hnan D; simpl;
    (assert (Js.le i (Infinity false) = true) as ->;
       [destruct i as [| | |[]]; done|]); [done|].
  apply IH; [by apply incr_unsigned|by apply incr_not_NaN].
Qed.

(** The rounds that are counted are enough: a loop that has not ended by
    then never ends. *)
Lemma forLoop_adequate (fuel : nat) (i e : number) (D : list number) :
  unsignedDouble i → Js.isFinite i = true → Js.isFinite e = true →
  (Js.le i e = true → (Js.floor e - Js.floor i < Z.of_nat fuel)%Z) →
  forLoop fuel i e D = None → neverEnds i e.
Proof.
  intros Hi Hfin He. revert i D Hi Hfin.
  induction fuel as [|fuel IH]; intros i D Hi Hfin Hfuel; simpl;
    destruct (Js.le i e) eqn:Hle; try done; specialize (Hfuel eq_refl).
  - pose proof (le_floor i e Hfin He Hle). lia.
  - intros Hnone.
    destruct (incr_moves i Hi Hfin) as [Hstuck|[Hinf|[Hfin' Hgrow]]].
    + by apply forLoop_stuck.
    + rewrite Hinf in Hnone.
      assert (Js.le (Infinity false) e = false) as Hout by (by destruct e).
      destruct fuel; cbn [forLoop] in Hnone; by rewrite Hout in Hnone.
    + assert (neverEnds (Js.incr i) e) as Hnever.
      { eapply (IH (Js.incr i)); [by apply incr_unsigned|done| |exact Hnone].
        intros _. lia. }
      intros fuel' D'. destruct fuel'; simpl; rewrite Hle; [done|].
      apply Hnever.
Qed.

Lemma forLoop_rounds_adequate (s e : number) (D : list number) :
  unsignedDouble s → forLoop (rounds s e) s e D = None → neverEnds s e.
Proof.
  intros Hs Hnone.
  assert (Js.le s e = true) as Hle.
  { destruct (Js.le s e) eqn:Hle; [done|].
    destruct (rounds s e); simpl in Hnone; by rewrite Hle in Hnone. }
  destruct (Js.isFinite e) eqn:Hfe.
  - destruct (Js.isFinite s) eqn:Hfs.
    + eapply forLoop_adequate; [done..| |exact Hnone]. intros _.
      unfold rounds. rewrite Hfs, Hfe. simpl.
      pose proof (le_floor s e Hfs Hfe Hle). lia.
    + by destruct s as [| | |[]], e as [| | |[]]; simpl in *.
  - destruct e as [| | |[]]; try done.
    + by destruct s as [| | |[]]; simpl in Hle.
    + by destruct s as [| | |[]]; simpl in Hle.
    + apply forLoop_to_Infinity; [done|]. by destruct s.
Qed.

(** ** Strings *)

Lemma split_no_separator (s : string) (c : ascii) :
  Js.includes s c = false → Js.split s c = [s].
Proof.
  induction s as [|d s IH]; simpl; [done|].
  destruct (Ascii.eqb d c); [done|]. intros Hs. by rewrite IH.
Qed.

Lemma split_not_nil (s : string) (sep : ascii) : Js.split s sep ≠ [].
Proof.
  destruct s as [|c s]; simpl; [done|].
  destruct (Ascii.eqb c sep); [done|]. by destruct (Js.split s sep).
Qed.

(** No piece holds the separator. *)
Lemma split_pieces (s : string) (sep : ascii) (p : string) :
  p ∈ Js.split s sep → Js.includes p sep = false.
Proof.
  revert p. induction s as [|c s IH]; intros p; simpl.
  - by intros ->%list_elem_of_singleton.
  - destruct (Ascii.eqb c sep) eqn:Hc.
    + intros [->|?]%elem_of_cons; [done|auto].
    + pose proof (split_not_nil s sep).
      destruct (Js.split s sep) as [|q qs]; [done|].
      intros [->|?]%elem_of_cons.
      * simpl. rewrite Hc. apply IH. by left.
      * apply IH. by right.
Qed.

(** A string with the separator has at least two pieces, and conversely. *)
Lemma split_includes (s : string) (sep : ascii) :
  Js.includes s sep = true ↔ ∃ p q rest, Js.split s sep = p :: q :: rest.
Proof.
  split.
  - induction s as [|c s IH]; simpl; [done|].
    pose proof (split_not_nil s sep).
    destruct (Ascii.eqb c sep).
    + intros _. destruct (Js.split s sep) as [|q rest]; [done|]. eauto.
    + intros (p & q & rest & ->)%IH. eauto.
  - intros (p & q & rest & Hsplit).
    destruct (Js.includes s sep) eqn:Hs; [done|].
    by rewrite (split_no_separator _ _ Hs) in Hsplit.
Qed.

Lemma includes_app (a b : string) (c : ascii) :
  Js.includes (a +:+ b) c = Js.includes a c || Js.includes b c.
Proof.
  induction a as [|d a IH]; simpl; [done|]. by destruct (Ascii.eqb d c).
Qed.

(** Splitting at a separator that was put between two strings. *)
Lemma split_app_sep (a b : string) (sep : ascii) :
  Js.split (a +:+ String sep b) sep = Js.split a sep ++ Js.split b sep.
Proof.
  induction a as [|c a IH]; simpl.
  - by rewrite Ascii.eqb_refl.
  - destruct (Ascii.eqb c sep); [by rewrite IH|]. rewrite IH.
    pose proof (split_not_nil a sep). by destruct (Js.split a sep).
Qed.

Lemma trim_allWhiteSpace (s : string) :
  allWhiteSpace s = true → Js.trim s = EmptyString.
Proof.
  unfold Js.trim. intros Hs.
  assert (Js.trimStart s = EmptyString) as ->; [|done].
  induction s as [|c s IH]; simpl in *; [done|].
  apply andb_true_iff in Hs as [-> Hs]. auto.
Qed.

Lemma trimStart_head (s : string) :
  match Js.trimStart s with
  | EmptyString => True
  | String c _ => Js.isWhiteSpace c = false
  end.
Proof.
  induction s as [|c s IH]; simpl; [done|].
  by destruct (Js.isWhiteSpace c) eqn:Hc.
Qed.

Lemma trimStart_includes (s : string) (c : ascii) :
  Js.includes s c = true → Js.isWhiteSpace c = false →
  Js.includes (Js.trimStart s) c = true.
Proof.
  intros Hs Hc. induction s as [|d s IH]; simpl in *; [done|].
  destruct (Ascii.eqb_spec d c) as [->|Hne].
  - rewrite Hc. simpl. by rewrite Ascii.eqb_refl.
  - destruct (Js.isWhiteSpace d); [auto|]. simpl.
    destruct (Ascii.eqb_spec d c); [done|]. done.
Qed.

(** A string that holds a character other than white space is not blank. *)
Lemma trim_not_blank (s : string) (c : ascii) :
  Js.includes s c = true → Js.isWhiteSpace c = false →
  Js.isEmpty (Js.trim s) = false.
Proof.
  intros Hs Hc. pose proof (trimStart_includes s c Hs Hc) as Hin.
  pose proof (trimStart_head s) as Hhead. unfold Js.trim.
  destruct (Js.trimStart s) as [|d s']; [done|]. simpl. by rewrite Hhead.
Qed.

Lemma split_includes_piece (s : string) (sep c : ascii) (p : string) :
  p ∈ Js.split s sep → Js.includes p c = true → Js.includes s c = true.
Proof.
  revert p. induction s as [|d s IH]; intros p; simpl.
  - by intros ->%list_elem_of_singleton.
  - destruct (Ascii.eqb d sep).
    + intros [->|Hp]%elem_of_cons; [done|]. intros Hc.
      rewrite (IH p Hp Hc). by destruct (Ascii.eqb d c).
    + pose proof (split_not_nil s sep).
      destruct (Js.split s sep) as [|q qs]; [done|].
      intros [->|Hp]%elem_of_cons; simpl.
      * destruct (Ascii.eqb d c); [done|]. apply IH. by left.
      * intros Hc. rewrite (IH p) by (by right || done).
        by destruct (Ascii.eqb d c).
Qed.

(** ** One term, and the whole expression *)

(** What one term adds, when its loop ends, is what it contributes,
    whatever the set already holds. *)
Lemma addRange_union (D : list number) (r : string) (D' : list number) :
  addRange D r = Some D' →
  ∀ x, Js.Set_has D' x = true ↔ Js.Set_has D x = true ∨ contributes r x.
Proof.
  unfold addRange, contributes.
  destruct (Js.includes r "-") eqn:Hdash.
  - apply split_includes in Hdash as (s & e & rest & ->). intros HD' x.
    rewrite (forLoop_Some _ _ _ _ _ HD' x). split.
    + intros [?|?]; [by left|]. right. by exists s, e, rest.
    + intros [?|(s' & e' & rest' & [= <- <- <-] & ?)]; [by left|by right].
  - intros [= <-] x. by rewrite Set_has_add, orb_true_iff, number_eqb_eq.
Qed.

(** Whether a term gives a set does not depend on what the set holds. *)
Lemma addRange_is_Some (D D' : list number) (r : string) :
  is_Some (addRange D r) → is_Some (addRange D' r).
Proof.
  unfold addRange. destruct (Js.includes r "-"); [|by eexists].
  destruct (Js.split r "-") as [|s [|e ps]]; [by eexists..|].
  apply forLoop_is_Some.
Qed.

Lemma forEachRange_union (ranges : list string) (D D' : list number) :
  forEachRange ranges D = Some D' →
  ∀ x, Js.Set_has D' x = true ↔
       Js.Set_has D x = true ∨ ∃ r, r ∈ ranges ∧ contributes r x.
Proof.
  revert D. induction ranges as [|r ranges IH]; intros D; simpl.
  - intros [= <-] x. split; [by left|]. intros [?|(r & Hr & _)]; [done|].
    by apply elem_of_nil in Hr.
  - destruct (addRange D r) as [D1|] eqn:Hr; [|done]. simpl. intros HD' x.
    rewrite (IH _ HD' x), (addRange_union _ _ _ Hr x). split.
    + intros [[?|?]|(r' & ? & ?)]; [by left| |].
      * right. exists r. split; [by left|done].
      * right. exists r'. split; [by right|done].
    + intros [?|(r' & [->|?]%elem_of_cons & Hc)]; [by left; left| |].
      * by left; right.
      * right. by exists r'.
Qed.

(** An expression gives a set exactly when each of its terms does. *)
Lemma forEachRange_is_Some (ranges : list string) (D : list number) :
  is_Some (forEachRange ranges D) ↔
  ∀ r, r ∈ ranges → is_Some (addRange [] r).
Proof.
  revert D. induction ranges as [|r ranges IH]; intros D; simpl.
  - split; [|by eexists]. intros _ r Hr. by apply elem_of_nil in Hr.
  - split.
    + destruct (addRange D r) as [D1|] eqn:Hr; [|by intros [? ?]]. simpl.
      intros Hrest r' [->|Hr']%elem_of_cons.
      * apply (addRange_is_Some D). by eexists.
      * by apply (proj1 (IH D1)).
    + intros Hall.
      destruct (addRange_is_Some [] D r) as [D1 ->]; [apply Hall; by left|].
      simpl. apply IH. intros r' Hr'. apply Hall. by right.
Qed.

(** A term within reach gives a set. *)
Lemma addRange_ends (D : list number) (r : string) :
  (∀ s e rest, Js.split r "-" = s :: e :: rest →
     Js.le (Js.Number s) (Js.Number e) = false ∨
     Js.le (Js.Number e) (Int Js.MAX_SAFE_INTEGER) = true) →
  is_Some (addRange D r).
Proof.
  intros Hreach. unfold addRange.
  destruct (Js.includes r "-"); [|by eexists].
  destruct (Js.split r "-") as [|s [|e rest]] eqn:Hsplit; [by eexists..|].
  destruct (Number_without_dash s) as [Hs Hnum].
  { apply (split_pieces r "-"). rewrite Hsplit. by left. }
  apply forLoop_rounds; [done..|]. by eapply Hreach.
Qed.

(** A field within reach gives a set. *)
Lemma parseRanges_ends (deleteInput : string) :
  withinReach deleteInput → is_Some (parseRanges deleteInput).
Proof.
  intros Hreach. apply forEachRange_is_Some. intros r Hr.
  apply addRange_ends. intros s e rest. by apply Hreach.
Qed.

(** A range from at most [2^53] up to at least [2^53] gives no set: its
    loop does not end. *)
Lemma addRange_never_ends (D : list number) (r s e : string)
    (rest : list string) :
  Js.split r "-" = s :: e :: rest →
  Js.le (Js.Number s) (Int (2 ^ 53)) = true →
  Js.le (Int (2 ^ 53)) (Js.Number e) = true →
  addRange D r = None.
Proof.
  intros Hsplit Hs He. unfold addRange.
  assert (Js.includes r "-" = true) as ->.
  { apply split_includes. eauto. }
  rewrite Hsplit.
  destruct (Number_without_dash s) as [Hinf Hnum].
  { apply (split_pieces r "-"). rewrite Hsplit. by left. }
  assert (Js.isFinite (Js.Number s) = true) as Hfin.
  { by destruct (Js.Number s) as [| | |[]]. }
  apply forLoop_never_ends; [done..| |done].
  rewrite le_finite in Hs by done. simpl in Hs. apply Z.leb_le in Hs. lia.
Qed.

(** A term gives no set exactly when it is a range whose loop never
    ends. *)
Lemma addRange_None (D : list number) (r : string) :
  addRange D r = None ↔
  ∃ s e rest, Js.split r "-" = s :: e :: rest ∧
              neverEnds (Js.Number s) (Js.Number e).
Proof.
  unfold addRange. split.
  - destruct (Js.includes r "-"); [|done].
    destruct (Js.split r "-") as [|s [|e rest]] eqn:Hsplit; [done..|].
    intros Hnone. exists s, e, rest. split; [done|].
    apply (forLoop_rounds_adequate _ _ D); [|done].
    apply Number_unsigned, (split_pieces r "-"). rewrite Hsplit. by left.
  - intros (s & e & rest & Hsplit & Hnever).
    assert (Js.includes r "-" = true) as ->.
    { apply split_includes. eauto. }
    rewrite Hsplit. apply Hnever.
Qed.

Lemma forEachRange_None (ranges : list string) (D : list number) :
  forEachRange ranges D = None ↔ ∃ r, r ∈ ranges ∧ addRange [] r = None.
Proof.
  revert D. induction ranges as [|r ranges IH]; intros D; simpl.
  - split; [done|]. intros (r & Hr & _). by apply elem_of_nil in Hr.
  - destruct (addRange D r) as [D1|] eqn:Hr; simpl.
    + rewrite IH. split.
      * intros (r' & ? & ?). exists r'. split; [by right|done].
      * intros (r' & [->|?]%elem_of_cons & Hnone); [|by exists r'].
        destruct (addRange_is_Some D [] r) as [? ?]; [by eexists|].
        congruence.
    + split; [|done]. intros _. exists r. split; [by left|].
      destruct (addRange [] r) eqn:Hr0; [|done].
      destruct (addRange_is_Some [] D r) as [? ?]; [by eexists|]. congruence.
Qed.

(** A field gives no set exactly when the loop of one of its ranges never
    ends. *)
Lemma parseRanges_None (deleteInput : string) :
  parseRanges deleteInput = None ↔
  ∃ r s e rest,
    r ∈ Js.split deleteInput "," ∧ Js.split r "-" = s :: e :: rest ∧
    neverEnds (Js.Number s) (Js.Number e).
Proof.
  unfold parseRanges. rewrite forEachRange_None. split.
  - intros (r & Hr & (s & e & rest & ? & ?)%addRange_None).
    by exists r, s, e, rest.
  - intros (r & s & e & rest & Hr & ? & ?). exists r. split; [done|].
    apply addRange_None. by exists s, e, rest.
Qed.

(** ** [Number] on digit strings *)

Ltac other_char H :=
  apply Ascii.eqb_neq; intros ->; vm_compute in H; discriminate H.

Lemma isDigit_not_space (c : ascii) : isDigit c = true → Js.isWhiteSpace c = false.
Proof. unfold isDigit, Js.isWhiteSpace. lia. Qed.

Lemma isDigit_value (c : ascii) :
  isDigit c = true →
  Js.digitValue 10 c = Some (Z.of_N (Ascii.N_of_ascii c) - 48)%Z.
Proof.
  unfold isDigit, Js.digitValue. intros Hc. rewrite Hc.
  destruct (Z.ltb_spec (Z.of_N (Ascii.N_of_ascii c) - 48) 10); [done|lia].
Qed.

Lemma trimEnd_digits (s : string) : allDigits s = true → Js.trimEnd s = s.
Proof.
  induction s as [|c s IH]; simpl; [done|].
  intros [Hc Hs]%andb_true_iff. rewrite IH by done.
  by rewrite (isDigit_not_space c Hc).
Qed.

Lemma trim_digits (s : string) : allDigits s = true → Js.trim s = s.
Proof.
  intros Hs. unfold Js.trim.
  assert (Js.trimStart s = s) as ->; [|by apply trimEnd_digits].
  destruct s as [|c s]; simpl in *; [done|].
  apply andb_true_iff in Hs as [Hc _]. by rewrite (isDigit_not_space c Hc).
Qed.

Lemma readDigits_digits (s : string) (acc count : Z) :
  allDigits s = true →
  Js.readDigits 10 s acc count
  = (decimalValue acc s, (count + Z.of_nat (String.length s))%Z, EmptyString).
Proof.
  revert acc count. induction s as [|c s IH]; intros acc count; simpl.
  - intros _. do 2 f_equal. lia.
  - intros [Hc Hs]%andb_true_iff. rewrite (isDigit_value c Hc), IH by done.
    do 2 f_equal. lia.
Qed.

Lemma decimalValue_nonneg (s : string) (acc : Z) :
  allDigits s = true → (0 ≤ acc)%Z → (0 ≤ decimalValue acc s)%Z.
Proof.
  revert acc. induction s as [|c s IH]; intros acc; simpl; [done|].
  intros [Hc Hs]%andb_true_iff Hacc. apply IH; [done|].
  unfold isDigit in Hc. lia.
Qed.

Lemma readLiteral_digits (s : string) :
  allDigits s = true → Js.isEmpty s = false →
  Js.readLiteral s = Js.Value false (decimalValue 0 s) 0.
Proof.
  intros Hs Hne. destruct s as [|c0 s]; [done|].
  simpl in Hs. apply andb_true_iff in Hs as [Hc0 Hs].
  assert (Js.readLiteral (String c0 s) = Js.readUnsignedDecimal false (String c0 s))
    as ->.
  { assert (Js.readDecimal (String c0 s)
            = Js.readUnsignedDecimal false (String c0 s)) as Hdec.
    { unfold Js.readDecimal.
      replace (Ascii.eqb c0 "+") with false by (symmetry; other_char Hc0).
      by replace (Ascii.eqb c0 "-") with false by (symmetry; other_char Hc0). }
    unfold Js.readLiteral. destruct s as [|c1 s]; [done|].
    simpl in Hs. apply andb_true_iff in Hs as [Hc1 Hs].
    unfold Js.radixOfPrefix.
    replace (Ascii.eqb c1 "x") with false by (symmetry; other_char Hc1).
    replace (Ascii.eqb c1 "X") with false by (symmetry; other_char Hc1).
    replace (Ascii.eqb c1 "o") with false by (symmetry; other_char Hc1).
    replace (Ascii.eqb c1 "O") with false by (symmetry; other_char Hc1).
    replace (Ascii.eqb c1 "b") with false by (symmetry; other_char Hc1).
    replace (Ascii.eqb c1 "B") with false by (symmetry; other_char Hc1).
    simpl. by destruct (Ascii.eqb c0 "0"). }
  unfold Js.readUnsignedDecimal.
  assert (String.eqb (String c0 s) "Infinity" = false) as ->.
  { simpl. by replace (Ascii.eqb c0 "I") with false by (symmetry; other_char Hc0). }
  rewrite readDigits_digits by (simpl; by rewrite Hc0, Hs).
  cbn [Js.readExponent]. simpl String.length.
  destruct (Z.ltb_spec 0 (0 + Z.of_nat (S (String.length s)))); [|lia].
  done.
Qed.

(** On a string of decimal digits, [Number] is its decimal value, as long
    as that is at most [2^53]; above, it is the nearest double. *)
Lemma Number_digits (s : string) :
  allDigits s = true → Js.isEmpty s = false →
  (decimalValue 0 s ≤ 2 ^ 53)%Z →
  Js.Number s = Int (decimalValue 0 s).
Proof.
  intros Hs Hne Hle. unfold Js.Number. rewrite trim_digits, Hne by done.
  rewrite readLiteral_digits by done. unfold Js.ofLiteral.
  change (0 <=? 0)%Z with true. cbv iota.
  rewrite Z.pow_0_r, Z.mul_1_r. unfold Js.ofRational.
  pose proof (decimalValue_nonneg s 0 Hs ltac:(lia)).
  destruct (Z.eqb_spec (decimalValue 0 s) 0) as [->|Hnz]; [done|].
  destruct (Z.ltb_spec 0 (decimalValue 0 s)); [|lia].
  apply roundPositive_Int. lia.
Qed.

Lemma Number_spec_integer (s : string) (k : Z) :
  spec_integer s = Some k → (k ≤ 2 ^ 53)%Z → Js.Number s = Int k.
Proof.
  unfold spec_integer.
  destruct (Js.isEmpty s) eqn:Hne; [done|].
  destruct (allDigits s) eqn:Hs; [|done].
  destruct (0 <? decimalValue 0 s)%Z; [|done]. simpl.
  intros [= <-]. by apply Number_digits.
Qed.

Lemma spec_integer_no_dash (s : string) (k : Z) :
  spec_integer s = Some k → Js.includes s "-" = false.
Proof.
  unfold spec_integer. destruct (allDigits s) eqn:Hs;
    [|by rewrite andb_false_r]. intros _.
  induction s as [|c s IH]; [done|]. simpl in *.
  apply andb_true_iff in Hs as [Hc Hs].
  replace (Ascii.eqb c "-") with false by (symmetry; other_char Hc). auto.
Qed.

Lemma spec_integer_positive (s : string) (k : Z) :
  spec_integer s = Some k → (0 < k)%Z.
Proof.
  unfold spec_integer.
  destruct (negb (Js.isEmpty s) && allDigits s); [|done]. simpl.
  destruct (Z.ltb_spec 0 (decimalValue 0 s)); [|done]. by intros [= <-].
Qed.

(** A blank piece is read as 0. *)
Lemma Number_blank (s : string) :
  allWhiteSpace s = true → Js.Number s = Int 0.
Proof. intros Hs. unfold Js.Number. by rewrite trim_allWhiteSpace. Qed.

(** [Number] on a few strings. *)
Example Number_examples :
  Js.Number "12" = Int 12 ∧
  Js.Number " 7 " = Int 7 ∧
  Js.Number "" = Int 0 ∧
  Js.Number "x" = NaN ∧
  Js.Number "1 2" = NaN ∧
  Js.Number "0x10" = Int 16 ∧
  Js.Number "1e1" = Int 10 ∧
  Js.Number "2.0" = Int 2 ∧
  Js.Number "1.5" = Frac 3 1 ∧
  Js.Number "0.1" = Frac 3602879701896397 55 ∧
  Js.Number "2.0000000000000000001" = Int 2 ∧
  Js.Number "Infinity" = Infinity false ∧
  Js.Number "1e400" = Infinity false ∧
  Js.Number "5e-324" = Frac 1 1074 ∧
  Js.Number "2e-324" = Int 0 ∧
  Js.Number "9007199254740992" = Int 9007199254740992 ∧
  Js.Number "9007199254740993" = Int 9007199254740992 ∧
  Js.Number "9007199254740995" = Int 9007199254740996.
Proof. repeat split; by vm_compute. Qed.

(** [++] on a few numbers: exact on the safe integers, rounded elsewhere,
    and without effect from [2^53] on. *)
Example incr_examples :
  Js.incr (Int 41) = Int 42 ∧
  Js.incr (Frac 3 1) = Frac 5 1 ∧
  Js.incr (Js.Number "0.1") = Js.Number "1.1" ∧
  Js.incr (Js.Number "1.0000000000000002") = Int 2 ∧
  Js.incr (Int 9007199254740991) = Int 9007199254740992 ∧
  Js.incr (Int 9007199254740992) = Int 9007199254740992 ∧
  Js.incr NaN = NaN ∧
  Js.incr (Infinity false) = Infinity false.
Proof. repeat split; by vm_compute. Qed.

(** ** What a term contributes *)

Lemma contributes_single (r : string) :
  Js.includes r "-" = false → ∀ x, contributes r x ↔ x = Js.Number r.
Proof. intros Hr x. unfold contributes. by rewrite Hr. Qed.

Lemma contributes_range (r s e : string) (rest : list string) :
  Js.split r "-" = s :: e :: rest →
  ∀ x, contributes r x ↔
       ∃ n, x = after n (Js.Number s) ∧
            ∀ j, j ≤ n → Js.le (after j (Js.Number s)) (Js.Number e) = true.
Proof.
  intros Hsplit x. unfold contributes.
  assert (Js.includes r "-" = true) as ->.
  { apply split_includes. eauto. }
  rewrite Hsplit. split.
  - by intros (s' & e' & rest' & [= <- <- <-] & ?).
  - intros ?. by exists s, e, rest.
Qed.

(** From an integer lower bound the loop visits the integers up to the
    upper bound. *)
Lemma range_from_Int (a : Z) (e : number) (x : number) :
  (0 ≤ a ≤ 2 ^ 53)%Z →
  (∃ n, x = after n (Int a) ∧ ∀ j, j ≤ n → Js.le (after j (Int a)) e = true)
  ↔ ∃ k, x = Int k ∧ (a ≤ k ≤ 2 ^ 53)%Z ∧ Js.le (Int k) e = true.
Proof.
  intros Ha. split.
  - intros (n & -> & Hn). specialize (Hn n ltac:(lia)).
    rewrite after_Int in * by done.
    eexists. split; [done|]. split; [lia|done].
  - intros (k & -> & Hk & Hle). exists (Z.to_nat (k - a)). split.
    + rewrite after_Int by done. f_equal. lia.
    + intros j Hj. rewrite after_Int by done.
      apply (le_Int_mono _ k); [lia|done].
Qed.

(** ** The range selector *)

(** C3, as amended.  A field gives no set exactly when the loop of one of
    its ranges never ends, and it gives one when its ranges are within
    reach.  Whenever a set is given, it is the union of what its comma-separated
    terms contribute, each term on its own: no term discards what another
    contributes.  A term without a dash contributes the one value that
    [Number] gives it: itself for a positive integer, [NaN], which is no
    page, if it is not numeric.  A term with a dash contributes what its
    loop visits between the values of its first two dash-separated
    pieces: the integers from [start] to [end] for two positive integers;
    from an integer lower bound, the integers up to the upper bound; and
    nothing when the lower bound is not below or equal to the upper one,
    as when either is [NaN].  Later pieces do not matter, and a blank
    piece is 0. *)
Theorem parseRanges_union_of_terms (deleteInput : string) :
  (parseRanges deleteInput = None ↔
   ∃ r s e rest,
     r ∈ Js.split deleteInput "," ∧ Js.split r "-" = s :: e :: rest ∧
     neverEnds (Js.Number s) (Js.Number e)) ∧
  (withinReach deleteInput → is_Some (parseRanges deleteInput)) ∧
  (∀ toDelete, parseRanges deleteInput = Some toDelete →
     ∀ x, Js.Set_has toDelete x = true ↔
          ∃ r, r ∈ Js.split deleteInput "," ∧ contributes r x) ∧
  (∀ r, Js.includes r "-" = false →
     ∀ x, contributes r x ↔ x = Js.Number r) ∧
  (∀ r k, spec_integer r = Some k → (k ≤ 2 ^ 53)%Z →
     ∀ x, contributes r x ↔ x = Int k) ∧
  (∀ r s e a b, Js.split r "-" = [s; e] →
     spec_integer s = Some a → spec_integer e = Some b →
     (a ≤ 2 ^ 53)%Z → (b ≤ 2 ^ 53)%Z →
     ∀ x, contributes r x ↔ between a b x = true) ∧
  (∀ r s e rest a, Js.split r "-" = s :: e :: rest →
     Js.Number s = Int a → (0 ≤ a ≤ 2 ^ 53)%Z →
     ∀ x, contributes r x ↔
          ∃ k, x = Int k ∧ (a ≤ k ≤ 2 ^ 53)%Z ∧
               Js.le (Int k) (Js.Number e) = true) ∧
  (∀ r s e rest, Js.split r "-" = s :: e :: rest →
     Js.le (Js.Number s) (Js.Number e) = false ∨
     Js.Number s = NaN ∨ Js.Number e = NaN →
     ∀ x, ¬ contributes r x) ∧
  (∀ r s e rest, Js.split r "-" = s :: e :: rest →
     ∀ x, contributes r x ↔ contributes (s +:+ "-" +:+ e) x) ∧
  (∀ s, allWhiteSpace s = true → Js.Number s = Int 0).
Proof.
  split; [apply parseRanges_None|].
  split; [apply parseRanges_ends|].
  split.
  { intros toDelete Hparse x.
    rewrite (forEachRange_union _ _ _ Hparse x), Set_has_nil.
    split; [by intros [?|?]|by right]. }
  split; [apply contributes_single|].
  split.
  { intros r k Hk Hle x.
    rewrite (contributes_single r (spec_integer_no_dash _ _ Hk) x).
    by rewrite (Number_spec_integer _ _ Hk Hle). }
  split.
  { intros r s e a b Hsplit Ha Hb Hale Hble x.
    rewrite (contributes_range r s e [] Hsplit x).
    rewrite (Number_spec_integer _ _ Ha Hale), (Number_spec_integer _ _ Hb Hble).
    pose proof (spec_integer_positive _ _ Ha).
    rewrite range_from_Int by lia. split.
    - intros (k & -> & Hk & Hkb). simpl in *. lia.
    - destruct x as [|k| |]; simpl; try done. intros Hk.
      exists k. split; [done|]. simpl. lia. }
  split.
  { intros r s e rest a Hsplit Ha Hrange x.
    rewrite (contributes_range r s e rest Hsplit x), Ha.
    by apply range_from_Int. }
  split.
  { intros r s e rest Hsplit Hnot x.
    rewrite (contributes_range r s e rest Hsplit x).
    intros (n & _ & Hn). specialize (Hn 0 ltac:(lia)). simpl in Hn.
    destruct Hnot as [Hle|[Hs|He]]; [congruence| |].
    - by rewrite Hs in Hn.
    - rewrite He in Hn. by destruct (Js.Number s) as [| | |[]].  }
  split; [|apply Number_blank].
  intros r s e rest Hsplit x.
  rewrite (contributes_range r s e rest Hsplit x). symmetry.
  apply (contributes_range (s +:+ "-" +:+ e) s e []).
  etrans; [apply (split_app_sep s e "-")|].
  rewrite !split_no_separator; [done|..];
    apply (split_pieces r "-"); rewrite Hsplit;
    first [by left|by right; left].
Qed.

(** The example of the specification: ["1,x,3-4"] is within reach and
    gives a set, and what the theorem says of it. *)
Lemma parseRanges_union_of_terms_witness :
  is_Some (parseRanges "1,x,3-4") ∧
  parseRanges "1,x,3-4" = Some [Int 1; NaN; Int 3; Int 4] ∧
  ∀ x, Js.Set_has [Int 1; NaN; Int 3; Int 4] x = true ↔
       ∃ r, r ∈ Js.split "1,x,3-4" "," ∧ contributes r x.
Proof.
  destruct (parseRanges_union_of_terms "1,x,3-4")
    as (_ & Hends & Hunion & _).
  split; [|split; [by vm_compute|]].
  - apply Hends. intros r s e rest Hr Hsplit.
    change (Js.split "1,x,3-4" ",") with ["1"; "x"; "3-4"] in Hr.
    repeat (apply elem_of_cons in Hr as [->|Hr]);
      [..|by apply elem_of_nil in Hr];
      vm_compute in Hsplit; try discriminate Hsplit.
    injection Hsplit as <- <- <-. right. by vm_compute.
  - apply Hunion. by vm_compute.
Defined.

(** On the example of the specification the two readings agree: exactly
    pages 1, 3 and 4. *)
Lemma spec_effective_set_example : spec_effective_set "1,x,3-4".
Proof.
  intros D HD n Hn. vm_compute in HD. injection HD as <-.
  change (spec_deleteSet "1,x,3-4") with [1; 3; 4]%Z.
  rewrite !elem_of_cons, elem_of_nil. simpl.
  destruct (Z.eqb_spec n 1), (Z.eqb_spec n 3), (Z.eqb_spec n 4); simpl;
    intuition (try lia; try done).
Qed.

(** C3 as stated fails: the term ["-3"] is no positive integer and no
    range of two, yet the code reads its empty first piece as 0 and marks
    pages 1 to 3. *)
Lemma malformed_term_not_excluded :
  parseRanges "-3" = Some [Int 0; Int 1; Int 2; Int 3] ∧
  spec_deleteSet "-3" = [] ∧
  ¬ spec_effective_set "-3".
Proof.
  split; [by vm_compute|]. split; [reflexivity|].
  intros Hclaim.
  destruct (Hclaim [Int 0; Int 1; Int 2; Int 3] ltac:(by vm_compute) 1%Z
              ltac:(lia)) as [Himp _].
  specialize (Himp eq_refl). by apply elem_of_nil in Himp.
Qed.

(** The same on a session: the three pages of [a.pdf] and the first page
    of [b.pdf] are marked. *)
Example applyBulkDeleteAll_malformed_term :
  applyBulkDeleteAll "-3" (session [a1; a2; a3] [b1; b2])
  = Some (session [flipDeleted a1; flipDeleted a2; flipDeleted a3]
                  [flipDeleted b1; b2]).
Proof. vm_compute. reflexivity. Qed.

(** Terms that are no positive integers and no ranges of two, and the
    sets they give: white space around a number, a fraction, another
    notation, a fractional bound, more than two pieces. *)
Example parseRanges_other_terms :
  parseRanges " 3,5 - 7" = Some [Int 3; Int 5; Int 6; Int 7] ∧
  parseRanges "2,1.5" = Some [Int 2; Frac 3 1] ∧
  parseRanges "0x10,1e1" = Some [Int 16; Int 10] ∧
  parseRanges "1-2.5" = Some [Int 1; Int 2] ∧
  parseRanges "0.5-3" = Some [Frac 1 1; Frac 3 1; Frac 5 1] ∧
  parseRanges "3-5-x" = Some [Int 3; Int 4; Int 5] ∧
  parseRanges "9007199254740993" = Some [Int 9007199254740992] ∧
  parseRanges "x-3,3-x,5-2" = Some [].
Proof. repeat split; by vm_compute. Qed.

(** ** Bulk delete on the page lists *)

Lemma pageAt_markDeleted (toDelete : list number) (prev : Previews)
    (file : string) (i : nat) :
  pageAt (markDeleted toDelete prev) file i
  = markPage toDelete <$> pageAt prev file i.
Proof.
  unfold pageAt, markDeleted. rewrite lookup_fmap.
  destruct (prev !! file) as [entry|]; simpl; [|done].
  by rewrite list_lookup_fmap.
Qed.

Lemma markPage_idemp (toDelete : list number) (p : Page) :
  markPage toDelete (markPage toDelete p) = markPage toDelete p.
Proof.
  unfold markPage. simpl. f_equal.
  by destruct (deleted p), (Js.Set_has toDelete (Int (pageNo p))).
Qed.

Lemma markPage_nil (p : Page) : markPage [] p = p.
Proof. destruct p as [? ? ? d]. unfold markPage. simpl. by rewrite orb_false_r. Qed.

Lemma markDeleted_idemp (toDelete : list number) (prev : Previews) :
  markDeleted toDelete (markDeleted toDelete prev) = markDeleted toDelete prev.
Proof.
  unfold markDeleted. rewrite <- map_fmap_compose. apply map_fmap_ext.
  intros file entry _. simpl. f_equal. rewrite map_map.
  apply map_ext. intros p. apply markPage_idemp.
Qed.

Lemma markDeleted_nil (prev : Previews) : markDeleted [] prev = prev.
Proof.
  unfold markDeleted. rewrite <- (map_fmap_id prev) at 2.
  apply map_fmap_ext. intros file [ps] _. simpl. f_equal.
  rewrite <- (map_id ps) at 2. apply map_ext. intros p. apply markPage_nil.
Qed.

(** Whatever the field holds, the update is [markDeleted] for some set:
    the parsed one, or the empty one when the field is blank. *)
Lemma applyBulkDeleteAll_markDeleted (deleteInput : string)
    (prev next : Previews) :
  applyBulkDeleteAll deleteInput prev = Some next →
  ∃ toDelete,
    next = markDeleted toDelete prev ∧
    if Js.isEmpty (Js.trim deleteInput) then toDelete = []
    else parseRanges deleteInput = Some toDelete.
Proof.
  unfold applyBulkDeleteAll.
  destruct (Js.isEmpty (Js.trim deleteInput)).
  - intros [= <-]. exists []. by rewrite markDeleted_nil.
  - destruct (parseRanges deleteInput) as [D|]; [|done].
    intros [= <-]. by exists D.
Qed.

(** A field within reach gives a state, whatever the state before. *)
Lemma applyBulkDeleteAll_ends (deleteInput : string) (prev : Previews) :
  withinReach deleteInput → is_Some (applyBulkDeleteAll deleteInput prev).
Proof.
  intros [D HD]%parseRanges_ends. unfold applyBulkDeleteAll.
  destruct (Js.isEmpty _); [by eexists|]. rewrite HD. by eexists.
Qed.

(** No state is given exactly when the loop of one of the ranges never
    ends: the handler does not get to its state update. *)
Lemma applyBulkDeleteAll_None (deleteInput : string) (prev : Previews) :
  applyBulkDeleteAll deleteInput prev = None ↔
  ∃ r s e rest,
    r ∈ Js.split deleteInput "," ∧ Js.split r "-" = s :: e :: rest ∧
    neverEnds (Js.Number s) (Js.Number e).
Proof.
  rewrite <- parseRanges_None. unfold applyBulkDeleteAll. split.
  - destruct (Js.isEmpty _); [done|]. by destruct (parseRanges deleteInput).
  - intros Hnone.
    destruct (proj1 (parseRanges_None deleteInput) Hnone)
      as (r & s & e & rest & Hr & Hsplit & _).
    rewrite (trim_not_blank deleteInput "-"), Hnone; [done| |done].
    apply (split_includes_piece _ "," _ r Hr). apply split_includes. eauto.
Qed.

(** C10.  Whatever the field holds, no state is given exactly when the
    loop of one of its ranges never ends, and one is given when its
    ranges are within reach; and whenever a state is given, the same
    files are there, each with as many descriptors, in the same order,
    each with the [id], [pageNo] and [img] it had: the bulk range-delete
    changes at most the [deleted] field. *)
Theorem applyBulkDeleteAll_frame (deleteInput : string) (prev : Previews) :
  (applyBulkDeleteAll deleteInput prev = None ↔
   ∃ r s e rest,
     r ∈ Js.split deleteInput "," ∧ Js.split r "-" = s :: e :: rest ∧
     neverEnds (Js.Number s) (Js.Number e)) ∧
  (withinReach deleteInput →
   is_Some (applyBulkDeleteAll deleteInput prev)) ∧
  ∀ next, applyBulkDeleteAll deleteInput prev = Some next →
    dom next = dom prev ∧
    ∀ file entry, prev !! file = Some entry →
      ∃ entry', next !! file = Some entry' ∧
        length (pages entry') = length (pages entry) ∧
        ∀ i p, pages entry !! i = Some p →
          ∃ p', pages entry' !! i = Some p' ∧
                id p' = id p ∧ pageNo p' = pageNo p ∧ img p' = img p.
Proof.
  split; [apply applyBulkDeleteAll_None|].
  split; [apply applyBulkDeleteAll_ends|].
  intros next (D & -> & _)%applyBulkDeleteAll_markDeleted. split.
  - unfold markDeleted. apply dom_fmap_L.
  - intros file entry Hfile. unfold markDeleted. rewrite lookup_fmap, Hfile.
    simpl. eexists. split; [done|]. simpl. split; [by rewrite length_map|].
    intros i p Hp. exists (markPage D p). split; [|done].
    change (map (markPage D) (pages entry)) with (markPage D <$> pages entry).
    by rewrite list_lookup_fmap, Hp.
Qed.

(** C4.  Whatever the field holds, no state is given exactly when the
    loop of one of its ranges never ends, and one is given when its
    ranges are within reach; and whenever a state is given, the flag of
    every descriptor has become
    [deleted || toDelete.has(pageNo)] for the set parsed from the field
    (nothing when the field is blank), a flag that was set is still set,
    and applying the same text to the result returns the result. *)
Theorem applyBulkDeleteAll_monotone_idempotent (deleteInput : string)
    (prev : Previews) :
  (applyBulkDeleteAll deleteInput prev = None ↔
   ∃ r s e rest,
     r ∈ Js.split deleteInput "," ∧ Js.split r "-" = s :: e :: rest ∧
     neverEnds (Js.Number s) (Js.Number e)) ∧
  (withinReach deleteInput →
   is_Some (applyBulkDeleteAll deleteInput prev)) ∧
  ∀ next, applyBulkDeleteAll deleteInput prev = Some next →
    (∃ toDelete,
       (if Js.isEmpty (Js.trim deleteInput) then toDelete = []
        else parseRanges deleteInput = Some toDelete) ∧
       ∀ file i p, pageAt prev file i = Some p →
         ∃ p', pageAt next file i = Some p' ∧
               deleted p' = deleted p || Js.Set_has toDelete (Int (pageNo p))) ∧
    (∀ file i p, pageAt prev file i = Some p → deleted p = true →
       ∃ p', pageAt next file i = Some p' ∧ deleted p' = true) ∧
    applyBulkDeleteAll deleteInput next = Some next.
Proof.
  split; [apply applyBulkDeleteAll_None|].
  split; [apply applyBulkDeleteAll_ends|].
  intros next Happly.
  destruct (applyBulkDeleteAll_markDeleted _ _ _ Happly) as (D & -> & HD).
  split; [|split].
  - exists D. split; [done|]. intros file i p Hp.
    exists (markPage D p). by rewrite pageAt_markDeleted, Hp.
  - intros file i p Hp Hdel. exists (markPage D p).
    rewrite pageAt_markDeleted, Hp. split; [done|]. simpl. by rewrite Hdel.
  - unfold applyBulkDeleteAll in *.
    destruct (Js.isEmpty (Js.trim deleteInput)); [done|].
    rewrite HD. simpl. by rewrite markDeleted_idemp.
Qed.

(** A field with a fraction and a range that ends at a fraction: it is
    within reach, pages 1 and 3 of [a.pdf] and page 1 of [b.pdf] are
    marked, and nothing else changes. *)
Lemma applyBulkDeleteAll_frame_witness :
  is_Some (applyBulkDeleteAll "1.5,3-3.5,1" (session [a1; a2; a3] [b1; b2])) ∧
  dom (session [flipDeleted a1; a2; flipDeleted a3] [flipDeleted b1; b2])
  = dom (session [a1; a2; a3] [b1; b2]) ∧
  ∀ file entry, session [a1; a2; a3] [b1; b2] !! file = Some entry →
    ∃ entry',
      session [flipDeleted a1; a2; flipDeleted a3] [flipDeleted b1; b2] !! file
      = Some entry' ∧
      length (pages entry') = length (pages entry) ∧
      ∀ i p, pages entry !! i = Some p →
        ∃ p', pages entry' !! i = Some p' ∧
              id p' = id p ∧ pageNo p' = pageNo p ∧ img p' = img p.
Proof.
  destruct (applyBulkDeleteAll_frame "1.5,3-3.5,1"
              (session [a1; a2; a3] [b1; b2])) as (_ & Hends & Hframe).
  split.
  - apply Hends. intros r s e rest Hr Hsplit.
    change (Js.split "1.5,3-3.5,1" ",") with ["1.5"; "3-3.5"; "1"] in Hr.
    repeat (apply elem_of_cons in Hr as [->|Hr]);
      [..|by apply elem_of_nil in Hr];
      vm_compute in Hsplit; try discriminate Hsplit.
    injection Hsplit as <- <- <-. right. by vm_compute.
  - apply Hframe. by vm_compute.
Defined.

Lemma applyBulkDeleteAll_monotone_idempotent_witness :
  is_Some (applyBulkDeleteAll "2-9,2.5" (session [a1; a2; a3] [b1; b2])) ∧
  (∃ toDelete,
     parseRanges "2-9,2.5" = Some toDelete ∧
     ∀ file i p, pageAt (session [a1; a2; a3] [b1; b2]) file i = Some p →
       ∃ p', pageAt (session [a1; flipDeleted a2; flipDeleted a3] [b1; b2])
                    file i = Some p' ∧
             deleted p' = deleted p || Js.Set_has toDelete (Int (pageNo p))) ∧
  (∀ file i p, pageAt (session [a1; a2; a3] [b1; b2]) file i = Some p →
     deleted p = true →
     ∃ p', pageAt (session [a1; flipDeleted a2; flipDeleted a3] [b1; b2])
                  file i = Some p' ∧ deleted p' = true) ∧
  applyBulkDeleteAll "2-9,2.5"
    (session [a1; flipDeleted a2; flipDeleted a3] [b1; b2])
  = Some (session [a1; flipDeleted a2; flipDeleted a3] [b1; b2]).
Proof.
  destruct (applyBulkDeleteAll_monotone_idempotent "2-9,2.5"
              (session [a1; a2; a3] [b1; b2])) as (_ & Hends & Hstate).
  split.
  - apply Hends. intros r s e rest Hr Hsplit.
    change (Js.split "2-9,2.5" ",") with ["2-9"; "2.5"] in Hr.
    repeat (apply elem_of_cons in Hr as [->|Hr]);
      [..|by apply elem_of_nil in Hr];
      vm_compute in Hsplit; try discriminate Hsplit.
    injection Hsplit as <- <- <-. right. by vm_compute.
  - apply Hstate. by vm_compute.
Defined.

(** A blank field marks nothing. *)
Lemma applyBulkDeleteAll_blank (deleteInput : string) (prev : Previews) :
  Js.isEmpty (Js.trim deleteInput) = true →
  applyBulkDeleteAll deleteInput prev = Some prev.
Proof. intros Hblank. unfold applyBulkDeleteAll. by rewrite Hblank. Qed.

(** ** Toggle delete *)

Lemma map_toggle_absent (n : Z) (ps : list Page) :
  (∀ p, p ∈ ps → pageNo p ≠ n) →
  map (λ p, if (pageNo p =? n)%Z then flipDeleted p else p) ps = ps.
Proof.
  intros Hps. rewrite <- (map_id ps) at 2. apply map_ext_in.
  intros p Hp%list_elem_of_In.
  destruct (Z.eqb_spec (pageNo p) n); [|done]. by destruct (Hps p Hp).
Qed.

Lemma map_toggle_unique (n : Z) (ps : list Page) (i : nat) (p : Page) :
  NoDup (pageNo <$> ps) → ps !! i = Some p → pageNo p = n →
  map (λ p, if (pageNo p =? n)%Z then flipDeleted p else p) ps
  = <[i := flipDeleted p]> ps.
Proof.
  revert i. induction ps as [|q ps IH]; intros i Hnd Hi Hp; [done|].
  rewrite fmap_cons in Hnd. apply NoDup_cons in Hnd as [Hq Hnd].
  destruct i as [|i]; simpl in *.
  - injection Hi as ->. rewrite Hp, Z.eqb_refl. f_equal.
    apply map_toggle_absent. intros p' Hp' Heq. apply Hq.
    rewrite Hp, <- Heq. apply list_elem_of_fmap. by exists p'.
  - destruct (Z.eqb_spec (pageNo q) n) as [Hqn|_].
    + destruct Hq. rewrite Hqn, <- Hp. apply list_elem_of_fmap.
      exists p. split; [done|]. by eapply list_elem_of_lookup_2.
    + f_equal. by apply IH.
Qed.

Lemma map_toggle_pageNo (n : Z) (ps : list Page) :
  pageNo <$> map (λ p, if (pageNo p =? n)%Z then flipDeleted p else p) ps
  = pageNo <$> ps.
Proof.
  induction ps as [|p ps IH]; [done|]. cbn [map]. rewrite !fmap_cons, IH.
  f_equal. by destruct (pageNo p =? n)%Z.
Qed.

(** C7.  With the file loaded and its page numbers distinct, the toggle
    gives a state with the same files, in which every other file is as
    before and the page list of the file has the same length and still
    distinct page numbers; the descriptor with that [pageNo] has [deleted]
    negated and its [id], [img] and [pageNo] kept, and the descriptor at
    every other position is the one that was there.  If no descriptor has
    that [pageNo], the state is the one before. *)
Theorem toggleDelete_flips_the_page (file : string) (n : Z)
    (prev : Previews) (entry : Preview) :
  prev !! file = Some entry →
  NoDup (pageNo <$> pages entry) →
  ∃ next entry',
    toggleDelete file n prev = Ok next ∧
    next !! file = Some entry' ∧
    dom next = dom prev ∧
    (∀ other, other ≠ file → next !! other = prev !! other) ∧
    length (pages entry') = length (pages entry) ∧
    NoDup (pageNo <$> pages entry') ∧
    (∀ i p, pages entry !! i = Some p → pageNo p = n →
       pages entry' !! i
       = Some {| id := id p; img := img p; pageNo := pageNo p;
                 deleted := negb (deleted p) |} ∧
       ∀ j q, j ≠ i → pages entry !! j = Some q →
              pages entry' !! j = Some q) ∧
    ((∀ p, p ∈ pages entry → pageNo p ≠ n) → next = prev).
Proof.
  intros Hfile Hnd. unfold toggleDelete. rewrite Hfile.
  eexists _, _. split; [done|]. split; [by rewrite lookup_insert_eq|].
  split; [|split; [|split; [|split; [|split]]]]; cbn [pages].
  - apply dom_insert_lookup_L. by rewrite Hfile.
  - intros other Hother. by rewrite lookup_insert_ne.
  - by rewrite length_map.
  - by rewrite map_toggle_pageNo.
  - intros i p Hi Hp. rewrite (map_toggle_unique n _ i p) by done.
    pose proof (lookup_lt_Some _ _ _ Hi) as Hlt. split.
    + by rewrite list_lookup_insert_eq.
    + intros j q Hj Hq. by rewrite list_lookup_insert_ne.
  - intros Habsent. rewrite map_toggle_absent by done.
    apply insert_id. by destruct entry.
Qed.

(** Page 2 of [a.pdf] in the sample session: the descriptor at position 1
    is flipped, the others stay. *)
Lemma toggleDelete_flips_the_page_witness :
  ∃ next entry',
    toggleDelete "a.pdf" 2 (session [a1; a2; a3] [b1; b2]) = Ok next ∧
    next !! "a.pdf" = Some entry' ∧
    dom next = dom (session [a1; a2; a3] [b1; b2]) ∧
    (∀ other, other ≠ "a.pdf" →
       next !! other = session [a1; a2; a3] [b1; b2] !! other) ∧
    length (pages entry') = length [a1; a2; a3] ∧
    NoDup (pageNo <$> pages entry') ∧
    (∀ i p, [a1; a2; a3] !! i = Some p → pageNo p = 2%Z →
       pages entry' !! i
       = Some {| id := id p; img := img p; pageNo := pageNo p;
                 deleted := negb (deleted p) |} ∧
       ∀ j q, j ≠ i → [a1; a2; a3] !! j = Some q →
              pages entry' !! j = Some q) ∧
    ((∀ p, p ∈ [a1; a2; a3] → pageNo p ≠ 2%Z) →
     next = session [a1; a2; a3] [b1; b2]).
Proof.
  apply (toggleDelete_flips_the_page "a.pdf" 2
           (session [a1; a2; a3] [b1; b2]) (mkPreview [a1; a2; a3])).
  - vm_compute. reflexivity.
  - apply (bool_decide_unpack _). vm_compute. exact I.
Defined.

Example toggleDelete_page_2 :
  toggleDelete "a.pdf" 2 (session [a1; a2; a3] [b1; b2])
  = Ok (session [a1; flipDeleted a2; a3] [b1; b2]).
Proof. vm_compute. reflexivity. Qed.

Example toggleDelete_restores :
  toggleDelete "b.pdf" 2 (session [a1; a2; a3] [b1; b2])
  = Ok (session [a1; a2; a3] [b1; flipDeleted b2]).
Proof. vm_compute. reflexivity. Qed.

(** ** Upload *)

(** C9.  The upload keeps exactly the files whose declared type is
    [application/pdf], in the order of the batch: the result is a
    subsequence of the batch, holds a file if and only if the batch holds it
    with that type, holds each as often as the batch does, and is empty for
    a batch without such a file. *)
Theorem handleFiles_keeps_pdfs (batch : list File) :
  sublist (handleFiles batch) batch ∧
  (∀ f, f ∈ handleFiles batch ↔ f ∈ batch ∧ type f = "application/pdf") ∧
  length (handleFiles batch) = length (List.filter isPdf batch) ∧
  (∀ before after,
     batch = before ++ after →
     handleFiles batch = handleFiles before ++ handleFiles after) ∧
  (∀ f, handleFiles [f] = if String.eqb (type f) "application/pdf"
                          then [f] else []) ∧
  (Forall (λ f, type f ≠ "application/pdf") batch → handleFiles batch = []).
Proof.
  unfold handleFiles. split; [|split; [|split; [|split; [|split]]]].
  - induction batch as [|f batch IH]; simpl; [constructor|].
    destruct (String.eqb _ _); by constructor.
  - intros f. rewrite !list_elem_of_In, filter_In.
    by rewrite String.eqb_eq.
  - done.
  - intros before after ->. apply List.filter_app.
  - done.
  - induction 1 as [|f batch Hf _ IH]; simpl; [done|].
    by apply String.eqb_neq in Hf as ->.
Qed.

Lemma handleFiles_keeps_pdfs_witness :
  handleFiles [mkFile "notes.txt" "text/plain" 12;
               mkFile "scan.png" "image/png" 2048] = [].
Proof.
  apply (handleFiles_keeps_pdfs
           [mkFile "notes.txt" "text/plain" 12;
            mkFile "scan.png" "image/png" 2048]).
  repeat constructor; discriminate.
Defined.

Example handleFiles_mixed_batch :
  handleFiles [mkFile "b.pdf" "application/pdf" 10;
               mkFile "notes.txt" "text/plain" 12;
               mkFile "a.pdf" "application/pdf" 30;
               mkFile "A.PDF" "Application/PDF" 30]
  = [mkFile "b.pdf" "application/pdf" 10; mkFile "a.pdf" "application/pdf" 30].
Proof. reflexivity. Qed.

(** ** Arrays: [findIndex], [splice], [arrayMove] *)

Lemma findIndexFrom_spec {A} (pred : A → bool) (a : list A) (k : Z) :
  Js.findIndexFrom pred a k = (-1)%Z ∧ Forall (λ x, pred x = false) a ∨
  ∃ i x, Js.findIndexFrom pred a k = (k + Z.of_nat i)%Z ∧
         a !! i = Some x ∧ pred x = true ∧
         ∀ j y, j < i → a !! j = Some y → pred y = false.
Proof.
  revert k. induction a as [|x a IH]; intros k; simpl; [by left|].
  destruct (pred x) eqn:Hx.
  - right. exists 0, x. split; [lia|]. split; [done|]. split; [done|]. lia.
  - destruct (IH (k + 1)%Z) as [[-> Hall]|(i & y & -> & Hi & Hy & Hfirst)].
    + left. split; [done|]. by constructor.
    + right. exists (S i), y. split; [lia|]. split; [done|]. split; [done|].
      intros [|j] z Hj Hz; simpl in Hz; [congruence|].
      apply (Hfirst j); [lia|done].
Qed.

Lemma findIndex_spec {A} (pred : A → bool) (a : list A) :
  Js.findIndex pred a = (-1)%Z ∧ Forall (λ x, pred x = false) a ∨
  ∃ i x, Js.findIndex pred a = Z.of_nat i ∧
         a !! i = Some x ∧ pred x = true ∧
         ∀ j y, j < i → a !! j = Some y → pred y = false.
Proof.
  unfold Js.findIndex.
  destruct (findIndexFrom_spec pred a 0) as [?|(i & x & ? & ?)]; [by left|].
  right. exists i, x. by rewrite Z.add_0_l in *.
Qed.

Lemma findIndex_firstAt (ps : list Page) (ident : string) (i : nat) :
  firstAt ps ident i →
  Js.findIndex (λ p, String.eqb (id p) ident) ps = Z.of_nat i.
Proof.
  intros (p & Hp & Hid & Hfirst).
  destruct (findIndex_spec (λ p, String.eqb (id p) ident) ps)
    as [[_ Hall]|(j & q & -> & Hq & Hqid & Hqfirst)].
  - rewrite Forall_lookup in Hall. specialize (Hall i p Hp). simpl in Hall.
    apply String.eqb_neq in Hall. done.
  - f_equal. apply String.eqb_eq in Hqid.
    destruct (Nat.lt_trichotomy i j) as [Hlt|[->|Hlt]]; [|done|].
    + specialize (Hqfirst i p Hlt Hp). simpl in Hqfirst.
      by apply String.eqb_neq in Hqfirst.
    + by destruct (Hfirst j q Hlt Hq).
Qed.

Lemma findIndex_absent (ps : list Page) (ident : string) :
  (∀ p, p ∈ ps → id p ≠ ident) →
  Js.findIndex (λ p, String.eqb (id p) ident) ps = (-1)%Z.
Proof.
  intros Habsent.
  destruct (findIndex_spec (λ p, String.eqb (id p) ident) ps)
    as [[-> _]|(j & q & _ & Hq & Hqid & _)]; [done|].
  apply String.eqb_eq in Hqid. destruct (Habsent q); [|done].
  by eapply list_elem_of_lookup_2.
Qed.

Lemma findIndex_bounds {A} (pred : A → bool) (a : list A) :
  (-1 ≤ Js.findIndex pred a < Z.of_nat (length a))%Z.
Proof.
  destruct (findIndex_spec pred a) as [[-> _]|(i & x & -> & Hi & _)]; [lia|].
  apply lookup_lt_Some in Hi. lia.
Qed.

(** Removing one element at an index inside the array. *)
Lemma splice_remove {A} (a : list A) (i : nat) (x : A) :
  a !! i = Some x →
  Js.splice a (Z.of_nat i) 1 [] = ([x], delete i a).
Proof.
  intros Hi. pose proof (lookup_lt_Some _ _ _ Hi) as Hlt.
  unfold Js.splice. destruct (Z.ltb_spec (Z.of_nat i) 0); [lia|].
  rewrite (Z.min_l (Z.of_nat i)) by lia. rewrite Nat2Z.id.
  replace (Z.to_nat (Z.min (Z.max 1 0) (Z.of_nat (length a) - Z.of_nat i)))
    with 1 by lia.
  f_equal.
  - rewrite <- (take_drop_middle a i x Hi) at 1.
    rewrite drop_app_length'; [done|]. rewrite length_take. lia.
  - simpl. rewrite delete_take_drop. do 2 f_equal. lia.
Qed.

(** Inserting one element at an index up to the length of the array. *)
Lemma splice_insert {A} (a : list A) (j : nat) (x : A) :
  j ≤ length a →
  Js.splice a (Z.of_nat j) 0 [x] = ([], take j a ++ x :: drop j a).
Proof.
  intros Hj. unfold Js.splice. destruct (Z.ltb_spec (Z.of_nat j) 0); [lia|].
  rewrite (Z.min_l (Z.of_nat j)) by lia. rewrite Nat2Z.id.
  replace (Z.to_nat (Z.min (Z.max 0 0) (Z.of_nat (length a) - Z.of_nat j)))
    with 0 by lia.
  by rewrite Nat.add_0_r.
Qed.

(** Whatever the two indices, [arrayMove] only permutes. *)
Lemma arrayMove_Permutation {A} (a : list A) (from to : Z) (a' : list A) :
  arrayMove a from to = Some a' → a' ≡ₚ a.
Proof.
  unfold arrayMove, Js.splice.
  set (len := Z.of_nat (length a)).
  set (k := Z.to_nat (if (from <? 0)%Z then Z.max (len + from) 0
                      else Z.min from len)).
  set (d := Z.to_nat (Z.min (Z.max 1 0) (len - _))).
  assert (d ≤ 1) as Hd by lia. clearbody d k.
  destruct (take d (drop k a)) as [|x removed] eqn:Hremoved; [done|].
  intros [= <-]. simpl.
  set (rest := take k a ++ drop (k + d) a).
  set (k2 := Z.to_nat _).
  replace (Z.to_nat (Z.min (Z.max 0 0) _)) with 0 by lia.
  rewrite Nat.add_0_r.
  assert (take k2 rest ++ x :: drop k2 rest ≡ₚ x :: rest) as ->.
  { rewrite <- Permutation_middle. by rewrite take_drop. }
  destruct d as [|[|d]]; [done| |lia].
  assert (removed = []) as ->.
  { assert (length (take 1 (drop k a)) ≤ 1) as Hlen
      by (rewrite length_take; lia).
    rewrite Hremoved in Hlen. destruct removed; [done|]. simpl in Hlen. lia. }
  unfold rest. rewrite <- (take_drop k a) at 3.
  rewrite <- (take_drop 1 (drop k a)), Hremoved, drop_drop.
  simpl. by rewrite Permutation_middle.
Qed.

(** With both indices inside the array: remove at [i], insert at [j]. *)
Lemma arrayMove_in_range {A} (a : list A) (i j : nat) (x : A) :
  a !! i = Some x → j < length a →
  arrayMove a (Z.of_nat i) (Z.of_nat j)
  = Some (take j (delete i a) ++ x :: drop j (delete i a)).
Proof.
  intros Hi Hj. pose proof (lookup_lt_Some _ _ _ Hi) as Hlt.
  unfold arrayMove. rewrite (splice_remove a i x Hi).
  destruct (Z.ltb_spec (Z.of_nat j) 0); [lia|].
  rewrite splice_insert; [done|]. rewrite length_delete by eauto. lia.
Qed.

(** From a non-empty array and an index that [findIndex] can return,
    [arrayMove] removes something. *)
Lemma arrayMove_is_Some {A} (a : list A) (from to : Z) :
  a ≠ [] → (-1 ≤ from < Z.of_nat (length a))%Z →
  is_Some (arrayMove a from to).
Proof.
  intros Hne Hfrom. unfold arrayMove, Js.splice.
  set (len := Z.of_nat (length a)).
  assert (0 < len)%Z by (destruct a; [done|]; simpl in len; lia).
  set (k := Z.to_nat (if (from <? 0)%Z then Z.max (len + from) 0
                      else Z.min from len)).
  assert (k < length a) as Hk.
  { unfold k. destruct (Z.ltb_spec from 0); lia. }
  replace (Z.to_nat (Z.min (Z.max 1 0) (len - _))) with 1.
  2:{ fold k. unfold k. destruct (Z.ltb_spec from 0); lia. }
  destruct (lookup_lt_is_Some_2 a k Hk) as [x Hx].
  rewrite <- (take_drop_middle a k x Hx) at 1.
  rewrite drop_app_length'; [by eexists|]. rewrite length_take. lia.
Qed.

(** Moving forward: the elements between shift left by one. *)
Lemma move_forward {A} (a : list A) (i j : nat) (x : A) :
  a !! i = Some x → i < j → j < length a →
  take j (delete i a) ++ x :: drop j (delete i a)
  = take i a ++ take (j - i) (drop (S i) a) ++ x :: drop (S j) a.
Proof.
  intros Hi Hij Hj. rewrite delete_take_drop.
  assert (i < length a) as Hlt by (by eapply lookup_lt_Some).
  assert (length (take i a) = i) as Hlen by (rewrite length_take; lia).
  rewrite take_app_ge by lia. rewrite drop_app_ge by lia. rewrite Hlen.
  rewrite drop_drop, <- app_assoc.
  by replace (S i + (j - i)) with (S j) by lia.
Qed.

(** Moving backward: the elements between shift right by one. *)
Lemma move_backward {A} (a : list A) (i j : nat) (x : A) :
  a !! i = Some x → j < i →
  take j (delete i a) ++ x :: drop j (delete i a)
  = take j a ++ x :: take (i - j) (drop j a) ++ drop (S i) a.
Proof.
  intros Hi Hji. pose proof (lookup_lt_Some _ _ _ Hi) as Hlt.
  rewrite delete_take_drop.
  assert (length (take i a) = i) as Hlen by (rewrite length_take; lia).
  rewrite take_app_le, drop_app_le by lia.
  rewrite take_take, Nat.min_l by lia.
  by rewrite skipn_firstn_comm.
Qed.

(** Moving to the same place changes nothing. *)
Lemma move_nowhere {A} (a : list A) (i : nat) (x : A) :
  a !! i = Some x →
  take i (delete i a) ++ x :: drop i (delete i a) = a.
Proof.
  intros Hi. rewrite delete_take_drop.
  assert (length (take i a) = i) as Hlen.
  { rewrite length_take. apply lookup_lt_Some in Hi. lia. }
  rewrite take_app_length', drop_app_length' by done.
  by apply take_drop_middle.
Qed.

(** ** Drag reorder *)

(** The drag and its render, in one piece. *)
Lemma onDragEnd_eq (file : string) (event : DragEndEvent) (prev : Previews) :
  onDragEnd file event prev
  = match over event with
    | None => Ok prev
    | Some over_id =>
        if String.eqb (active event) over_id then Ok prev
        else
          match prev !! file with
          | None => Throw TypeError
          | Some entry =>
              match
                arrayMove (pages entry)
                  (Js.findIndex (λ p, String.eqb (id p) (active event))
                     (pages entry))
                  (Js.findIndex (λ p, String.eqb (id p) over_id)
                     (pages entry))
              with
              | Some moved => Ok (<[file := {| pages := moved |}]> prev)
              | None => Throw TypeError
              end
          end
    end.
Proof.
  unfold onDragEnd, rerender, moveUpdater.
  destruct (over event) as [over_id|]; [|done].
  destruct (String.eqb (active event) over_id); [done|].
  destruct (prev !! file) as [entry|]; [|done]. cbv zeta.
  by destruct (arrayMove _ _ _).
Qed.

Lemma Preview_eta (entry : Preview) : mkPreview (pages entry) = entry.
Proof. by destruct entry. Qed.

Lemma firstAt_same_id (ps : list Page) (x y : string) (i : nat) :
  firstAt ps x i → firstAt ps y i → x = y.
Proof. intros (p & Hp & <- & _) (q & Hq & <- & _). congruence. Qed.

(** C6, as amended.  With the file loaded: the drag changes nothing when
    there is no drop target, when the two ids are equal, and hence whenever
    both ids are found at the same position; when both ids are found, at
    two different positions, the element at the position of [active.id] is
    removed and put back at the position [over.id] had, and the elements
    between the two positions shift by one, towards the front for a move
    to the back and towards the back for a move to the front. *)
Theorem onDragEnd_moves_the_page (file : string) (event : DragEndEvent)
    (prev : Previews) (entry : Preview) :
  prev !! file = Some entry →
  (over event = None → onDragEnd file event prev = Ok prev) ∧
  (over event = Some (active event) → onDragEnd file event prev = Ok prev) ∧
  (∀ to i,
     over event = Some to →
     firstAt (pages entry) (active event) i → firstAt (pages entry) to i →
     onDragEnd file event prev = Ok prev) ∧
  (∀ to i j p,
     over event = Some to →
     firstAt (pages entry) (active event) i → firstAt (pages entry) to j →
     i ≠ j → pages entry !! i = Some p →
     ∃ moved,
       onDragEnd file event prev = Ok (<[file := mkPreview moved]> prev) ∧
       moved = take j (delete i (pages entry))
               ++ p :: drop j (delete i (pages entry)) ∧
       (i < j →
        moved = take i (pages entry)
                ++ take (j - i) (drop (S i) (pages entry))
                ++ p :: drop (S j) (pages entry)) ∧
       (j < i →
        moved = take j (pages entry)
                ++ p :: take (i - j) (drop j (pages entry))
                ++ drop (S i) (pages entry))).
Proof.
  intros Hfile. rewrite !onDragEnd_eq. split; [|split; [|split]].
  - by intros ->.
  - intros ->. by rewrite String.eqb_refl.
  - intros to i -> Hi Hj. rewrite (firstAt_same_id _ _ _ _ Hi Hj).
    by rewrite String.eqb_refl.
  - intros to i j p -> Hi Hj Hij Hp.
    destruct (String.eqb_spec (active event) to) as [Heq|_].
    { subst to. destruct Hij.
      apply findIndex_firstAt in Hi, Hj. rewrite Hi in Hj. lia. }
    rewrite Hfile.
    assert (j < length (pages entry)) as Hjlt.
    { destruct Hj as (q & Hq & _). by eapply lookup_lt_Some. }
    rewrite (findIndex_firstAt _ _ _ Hi), (findIndex_firstAt _ _ _ Hj).
    rewrite (arrayMove_in_range _ i j p Hp Hjlt).
    eexists. split; [done|]. split; [done|]. split.
    + intros Hlt. by apply move_forward.
    + intros Hlt. by apply move_backward.
Qed.

Lemma onDragEnd_moves_the_page_witness :
  (over (mkDragEnd "a.pdf-page-1" (Some "a.pdf-page-3")) = None →
   onDragEnd "a.pdf" (mkDragEnd "a.pdf-page-1" (Some "a.pdf-page-3"))
     (session [a1; a2; a3] [b1; b2])
   = Ok (session [a1; a2; a3] [b1; b2])) ∧
  (over (mkDragEnd "a.pdf-page-1" (Some "a.pdf-page-3"))
   = Some (active (mkDragEnd "a.pdf-page-1" (Some "a.pdf-page-3"))) →
   onDragEnd "a.pdf" (mkDragEnd "a.pdf-page-1" (Some "a.pdf-page-3"))
     (session [a1; a2; a3] [b1; b2])
   = Ok (session [a1; a2; a3] [b1; b2])) ∧
  (∀ to i,
     over (mkDragEnd "a.pdf-page-1" (Some "a.pdf-page-3")) = Some to →
     firstAt [a1; a2; a3] "a.pdf-page-1" i → firstAt [a1; a2; a3] to i →
     onDragEnd "a.pdf" (mkDragEnd "a.pdf-page-1" (Some "a.pdf-page-3"))
       (session [a1; a2; a3] [b1; b2])
     = Ok (session [a1; a2; a3] [b1; b2])) ∧
  (∀ to i j p,
     over (mkDragEnd "a.pdf-page-1" (Some "a.pdf-page-3")) = Some to →
     firstAt [a1; a2; a3] "a.pdf-page-1" i → firstAt [a1; a2; a3] to j →
     i ≠ j → [a1; a2; a3] !! i = Some p →
     ∃ moved,
       onDragEnd "a.pdf" (mkDragEnd "a.pdf-page-1" (Some "a.pdf-page-3"))
         (session [a1; a2; a3] [b1; b2])
       = Ok (<["a.pdf" := mkPreview moved]> (session [a1; a2; a3] [b1; b2])) ∧
       moved = take j (delete i [a1; a2; a3])
               ++ p :: drop j (delete i [a1; a2; a3]) ∧
       (i < j →
        moved = take i [a1; a2; a3]
                ++ take (j - i) (drop (S i) [a1; a2; a3])
                ++ p :: drop (S j) [a1; a2; a3]) ∧
       (j < i →
        moved = take j [a1; a2; a3]
                ++ p :: take (i - j) (drop j [a1; a2; a3])
                ++ drop (S i) [a1; a2; a3])).
Proof.
  apply (onDragEnd_moves_the_page "a.pdf"
           (mkDragEnd "a.pdf-page-1" (Some "a.pdf-page-3"))
           (session [a1; a2; a3] [b1; b2]) (mkPreview [a1; a2; a3])).
  vm_compute. reflexivity.
Defined.

Example onDragEnd_first_to_last :
  onDragEnd "a.pdf" (mkDragEnd "a.pdf-page-1" (Some "a.pdf-page-3"))
    (session [a1; a2; a3] [b1; b2])
  = Ok (session [a2; a3; a1] [b1; b2]).
Proof. vm_compute. reflexivity. Qed.

Example onDragEnd_last_to_first :
  onDragEnd "a.pdf" (mkDragEnd "a.pdf-page-3" (Some "a.pdf-page-1"))
    (session [a1; a2; a3] [b1; b2])
  = Ok (session [a3; a1; a2] [b1; b2]).
Proof. vm_compute. reflexivity. Qed.

(** C6 as stated fails: an id that the page list does not hold is not a
    no-op.  [findIndex] returns -1 for it, which [arrayMove] reads as the
    last position: an unknown [active.id] moves the last page to the drop
    target, and an unknown [over.id] moves the dragged page to the end. *)
Lemma absent_id_still_moves :
  (∀ p, p ∈ [a1; a2; a3] → id p ≠ "ghost") ∧
  onDragEnd "a.pdf" (mkDragEnd "ghost" (Some "a.pdf-page-1"))
    (session [a1; a2; a3] [b1; b2])
  = Ok (session [a3; a1; a2] [b1; b2]) ∧
  onDragEnd "a.pdf" (mkDragEnd "a.pdf-page-1" (Some "ghost"))
    (session [a1; a2; a3] [b1; b2])
  = Ok (session [a2; a3; a1] [b1; b2]) ∧
  session [a3; a1; a2] [b1; b2] ≠ session [a1; a2; a3] [b1; b2] ∧
  session [a2; a3; a1] [b1; b2] ≠ session [a1; a2; a3] [b1; b2].
Proof.
  split; [|split; [|split; [|split]]].
  - intros p Hp. repeat (apply elem_of_cons in Hp as [->|Hp]; [done|]).
    by apply elem_of_nil in Hp.
  - vm_compute. reflexivity.
  - vm_compute. reflexivity.
  - intros Heq. apply (f_equal (λ s, s !! "a.pdf")) in Heq.
    vm_compute in Heq. discriminate Heq.
  - intros Heq. apply (f_equal (λ s, s !! "a.pdf")) in Heq.
    vm_compute in Heq. discriminate Heq.
Qed.

(** One drag on a loaded file with at least one page gives a state. *)
Lemma onDragEnd_step (file : string) (event : DragEndEvent) (prev : Previews)
    (entry : Preview) :
  prev !! file = Some entry → pages entry ≠ [] →
  ∃ next, onDragEnd file event prev = Ok next.
Proof.
  intros Hfile Hne.
  rewrite !onDragEnd_eq. destruct (over event) as [to|]; [|by eexists].
  destruct (String.eqb (active event) to); [by eexists|]. rewrite Hfile.
  set (oldIndex := Js.findIndex _ _). set (newIndex := Js.findIndex _ _).
  destruct (arrayMove_is_Some (pages entry) oldIndex newIndex Hne)
    as [moved Hmoved]; [apply findIndex_bounds|].
  rewrite Hmoved. by eexists.
Qed.

(** The state after one drag: every file holds a permutation of the
    descriptors it held. *)
Lemma onDragEnd_Permutation (file : string) (event : DragEndEvent)
    (prev next : Previews) :
  onDragEnd file event prev = Ok next →
  ∀ f entry, prev !! f = Some entry →
    ∃ entry', next !! f = Some entry' ∧ pages entry' ≡ₚ pages entry.
Proof.
  rewrite !onDragEnd_eq. intros Hdrag f entry Hf.
  destruct (over event) as [to|];
    [|injection Hdrag as <-; by exists entry].
  destruct (String.eqb (active event) to);
    [injection Hdrag as <-; by exists entry|].
  destruct (prev !! file) as [dragged|] eqn:Hfile; [|done].
  destruct (arrayMove _ _ _) as [moved|] eqn:Hmoved; [|done].
  injection Hdrag as <-.
  destruct (decide (f = file)) as [->|Hother].
  - exists (mkPreview moved). rewrite lookup_insert_eq. split; [done|].
    assert (entry = dragged) as -> by congruence.
    by eapply arrayMove_Permutation.
  - exists entry. by rewrite lookup_insert_ne.
Qed.

(** C5.  The state after any sequence of drags holds, for every file, the
    descriptors the file held, each whole (id, image, page number and
    deletion flag), only in another order: the multiset of
    (pageNo, deleted) pairs of every file is the one before.  A sequence of
    drags gives such a state whenever each drag is on a loaded file with at
    least one page. *)
Theorem dragAll_permutes (events : list (string * DragEndEvent))
    (prev : Previews) :
  (∀ next, dragAll events prev = Ok next →
     ∀ file entry, prev !! file = Some entry →
       ∃ entry', next !! file = Some entry' ∧
         pages entry' ≡ₚ pages entry ∧
         ((λ p, (pageNo p, deleted p)) <$> pages entry')
         ≡ₚ ((λ p, (pageNo p, deleted p)) <$> pages entry)) ∧
  (Forall (λ fe, ∃ entry, prev !! fe.1 = Some entry ∧ pages entry ≠ []) events →
   ∃ next, dragAll events prev = Ok next).
Proof.
  split.
  - revert prev. induction events as [|[file event] events IH];
      intros prev next; simpl.
    + intros [= <-] file entry Hfile. by exists entry.
    + destruct (onDragEnd file event prev) as [mid|e] eqn:Hstep; [|done].
      simpl. intros Hrun f entry Hf.
      destruct (onDragEnd_Permutation _ _ _ _ Hstep f entry Hf)
        as (entry1 & Hentry1 & Hperm1).
      destruct (IH mid next Hrun f entry1 Hentry1)
        as (entry2 & Hentry2 & Hperm2 & _).
      exists entry2. split; [done|].
      assert (pages entry2 ≡ₚ pages entry) as Hperm by (by rewrite Hperm2).
      split; [done|]. by rewrite Hperm.
  - revert prev. induction events as [|[file event] events IH];
      intros prev Hall; simpl; [by eexists|].
    apply Forall_cons in Hall as [(entry & Hfile & Hne) Hall].
    simpl in Hfile.
    destruct (onDragEnd_step file event prev entry Hfile Hne) as [mid Hstep].
    rewrite Hstep. simpl. apply IH.
    eapply Forall_impl; [exact Hall|]. intros [f e] (en & Hf & Hfne).
    simpl in *.
    destruct (onDragEnd_Permutation _ _ _ _ Hstep f en Hf)
      as (en' & Hen' & Hperm).
    exists en'. split; [done|]. intros Hnil. rewrite Hnil in Hperm.
    apply Permutation_nil_l in Hperm. congruence.
Qed.

Lemma dragAll_permutes_witness :
  ∃ next,
    dragAll [("a.pdf", mkDragEnd "a.pdf-page-1" (Some "a.pdf-page-3"));
             ("b.pdf", mkDragEnd "b.pdf-page-2" (Some "b.pdf-page-1"));
             ("a.pdf", mkDragEnd "a.pdf-page-3" (Some "a.pdf-page-2"))]
            (session [a1; a2; a3] [b1; b2]) = Ok next.
Proof.
  apply (dragAll_permutes
           [("a.pdf", mkDragEnd "a.pdf-page-1" (Some "a.pdf-page-3"));
            ("b.pdf", mkDragEnd "b.pdf-page-2" (Some "b.pdf-page-1"));
            ("a.pdf", mkDragEnd "a.pdf-page-3" (Some "a.pdf-page-2"))]
           (session [a1; a2; a3] [b1; b2])).
  repeat constructor; eexists; (split; [vm_compute; reflexivity|discriminate]).
Defined.

Example dragAll_three_moves :
  dragAll [("a.pdf", mkDragEnd "a.pdf-page-1" (Some "a.pdf-page-3"));
           ("b.pdf", mkDragEnd "b.pdf-page-2" (Some "b.pdf-page-1"));
           ("a.pdf", mkDragEnd "a.pdf-page-3" (Some "a.pdf-page-2"))]
          (session [a1; a2; a3] [b1; b2])
  = Ok (session [a3; a2; a1] [b2; b1]).
Proof. vm_compute. reflexivity. Qed.

(** ** Export *)

Section ExportProperties.
Context `{Collaborators}.

Lemma copyLoop_spec (pdfDoc : PDFDocument) (ps : list Page)
    (newDoc : list PDFPage) :
  copyLoop pdfDoc ps newDoc
  = (copied ← mapM (λ p, copyPages pdfDoc (pageNo p - 1)%Z)
                   (List.filter kept ps);
     Ok (newDoc ++ copied)).
Proof.
  revert newDoc. induction ps as [|p ps IH]; intros newDoc; simpl.
  - by rewrite app_nil_r.
  - unfold kept at 1. destruct (deleted p); simpl; [apply IH|].
    destruct (copyPages pdfDoc (pageNo p - 1)) as [copied|e]; simpl; [|done].
    rewrite IH. destruct (mapM _ _) as [rest|e]; simpl; [|done].
    by rewrite <- app_assoc.
Qed.

(** The loop, started on the empty document. *)
Lemma copyLoop_mapM (pdfDoc : PDFDocument) (ps : list Page) :
  copyLoop pdfDoc ps []
  = mapM (λ p, copyPages pdfDoc (pageNo p - 1)%Z) (List.filter kept ps).
Proof. rewrite copyLoop_spec. by destruct (mapM _ _). Qed.

Lemma mapM_result_length {A B} (f : A → result B) (l : list A) (k : list B) :
  mapM f l = Ok k → length k = length l.
Proof.
  revert k. induction l as [|x l IH]; intros k; simpl.
  - by intros [= <-].
  - destruct (f x) as [y|e]; simpl; [|done].
    destruct (mapM f l) as [k'|e]; simpl; [|done].
    intros [= <-]. simpl. by rewrite (IH k').
Qed.

Lemma mapM_result_Ok {A B} (f : A → result B) (l : list A) :
  (∀ x, x ∈ l → ∃ y, f x = Ok y) → ∃ k, mapM f l = Ok k.
Proof.
  induction l as [|x l IH]; intros Hl; simpl; [by eexists|].
  destruct (Hl x) as [y ->]; [by left|]. simpl.
  destruct IH as [k ->]; [|by eexists].
  intros x' Hx'. apply Hl. by right.
Qed.



(** The document built for a file has as many pages as the file has
    descriptors that are not deleted, whenever the loop ends without a
    throw. *)
Lemma copyLoop_length (pdfDoc : PDFDocument) (ps : list Page)
    (newDoc : list PDFPage) :
  copyLoop pdfDoc ps [] = Ok newDoc →
  length newDoc = length (List.filter kept ps).
Proof. rewrite copyLoop_mapM. apply mapM_result_length. Qed.

Lemma filter_kept_nil (ps : list Page) :
  Forall (λ p, deleted p = true) ps → List.filter kept ps = [].
Proof.
  induction 1 as [|p ps Hp _ IH]; simpl; [done|].
  unfold kept at 1. by rewrite Hp.
Qed.

(** C2, as amended.  The document written for a file is the one built for
    it after [save] has prepared it.  It has as many pages as the file has
    descriptors that are not deleted, but never none: with every
    descriptor deleted it is one blank page, which [save] adds to a
    document without pages.  The export of that file does not throw for
    that: a document is handed to the writer as soon as the file is read
    and loaded and the codec copies each page that is kept. *)
Theorem exported_page_count (previews : Previews) (file : File)
    (entry : Preview) :
  previews !! name file = Some entry →
  exported previews file
  = (out ← written previews file;
     pdfBytes ← serializeToBuffer out;
     Ok ("modified-" +:+ name file, pdfBytes)) ∧
  (∀ out, written previews file = Ok out →
     length out = Nat.max 1 (length (List.filter kept (pages entry))) ∧
     (Forall (λ p, deleted p = true) (pages entry) → out = [blankPage])) ∧
  (∀ bytes pdfDoc,
     arrayBuffer file = Ok bytes → load bytes = Ok pdfDoc →
     (∀ p, p ∈ pages entry → deleted p = false →
           ∃ copied, copyPages pdfDoc (pageNo p - 1)%Z = Ok copied) →
     ∃ out, written previews file = Ok out).
Proof.
  intros Hentry. unfold exported, written, buildDoc. rewrite Hentry.
  split; [|split].
  - destruct (arrayBuffer file) as [bytes|e]; [|done]. simpl.
    destruct (load bytes) as [pdfDoc|e]; [|done]. simpl.
    by destruct (copyLoop pdfDoc (pages entry) []).
  - intros out.
    destruct (arrayBuffer file) as [bytes|e]; [|done]. simpl.
    destruct (load bytes) as [pdfDoc|e]; [|done]. simpl.
    destruct (copyLoop pdfDoc (pages entry) []) as [newDoc|e] eqn:Hloop;
      [|done].
    intros [= <-]. apply copyLoop_length in Hloop. split.
    + unfold prepareForSave. destruct newDoc; simpl in *; lia.
    + intros Hall. rewrite (filter_kept_nil _ Hall) in Hloop.
      by destruct newDoc.
  - intros bytes pdfDoc -> Hload Hcopies. simpl. rewrite Hload. simpl.
    rewrite copyLoop_mapM.
    destruct (mapM_result_Ok (λ p, copyPages pdfDoc (pageNo p - 1)%Z)
                (List.filter kept (pages entry))) as [newDoc ->].
    { intros p [Hp Hkept]%list_elem_of_In%filter_In.
      apply Hcopies; [by apply list_elem_of_In|].
      unfold kept in Hkept. by destruct (deleted p). }
    by eexists.
Qed.

(** The export of [src/pdf.jsx] leaves [loading] and the cursor class
    cleared, whatever the collaborators do. *)
Lemma processPDFs_clears_loading (files : list File) (previews : Previews)
    (downloadMode : string) (w : World) :
  loading (processPDFs files previews downloadMode w).1 = false ∧
  cursorLoading (processPDFs files previews downloadMode w).1 = false.
Proof.
  unfold processPDFs, mbind, M_bind, setLoading, setCursorLoading, tryFinally.
  simpl.
  destruct (forFiles previews downloadMode files [] _) as [w1 [zip|e]];
    [|done].
  destruct (String.eqb downloadMode "zip"); [|done].
  destruct (generateAsync zip) as [blob|e]; [|done].
  unfold deliver. by destruct (download _ blob).
Qed.

(** The older export leaves [loading] set as soon as a step throws. *)
Lemma legacy_processPDFs_throw (files : list File) (previews : Previews)
    (w : World) (e : exn) :
  (Legacy.processPDFs files previews w).2 = Throw e →
  loading (Legacy.processPDFs files previews w).1 = true.
Proof.
  assert (∀ fs zip w0, loading w0 = true →
            loading (Legacy.forFiles previews fs zip w0).1 = true) as Hloop.
  { induction fs as [|f fs IH]; intros zip w0 Hw0; simpl; [done|].
    unfold mbind, M_bind, lift. simpl.
    destruct (buildDoc previews f) as [newDoc|]; simpl; [|done].
    destruct (save newDoc); simpl; [|done]. by apply IH. }
  unfold Legacy.processPDFs, mbind, M_bind, setLoading. simpl.
  set (w0 := {| loading := true; cursorLoading := _; downloads := _ |}).
  specialize (Hloop files [] w0 eq_refl).
  destruct (Legacy.forFiles previews files [] w0) as [w1 [zip|e1]];
    simpl in *; [|done].
  unfold lift. destruct (generateAsync zip) as [blob|e2]; simpl; [|done].
  unfold deliver. destruct (download _ blob); simpl; [done|done].
Qed.

(** In archive mode the loop touches nothing outside: it collects one
    entry per file, in the order of the files, or throws what the first
    failing file throws. *)
Lemma forFiles_archive (previews : Previews) (downloadMode : string)
    (files : list File) (zip : list (string * Bytes)) (w : World) :
  String.eqb downloadMode "single" = false →
  forFiles previews downloadMode files zip w
  = (w, entries ← mapM (exported previews) files; Ok (zip ++ entries)).
Proof.
  intros Hmode. revert zip. induction files as [|file files IH]; intros zip.
  - simpl. by rewrite app_nil_r.
  - simpl. unfold exported, mbind at 1 2 3, M_bind, lift. rewrite Hmode.
    destruct (buildDoc previews file) as [newDoc|e]; simpl; [|done].
    destruct (save newDoc) as [pdfBytes|e]; simpl; [|done].
    unfold mret at 1, M_ret. rewrite IH.
    destruct (mapM _ files) as [entries|e]; [|done].
    unfold mbind, mret, Js.result_bind, Js.result_ret. by rewrite <- app_assoc.
Qed.

(** Archive mode, every step succeeding: one download, the archive of the
    entries of all files, and the busy state cleared. *)
Lemma processPDFs_archive (files : list File) (previews : Previews)
    (w : World) (entries : list (string * Bytes)) (blob : Bytes) :
  mapM (exported previews) files = Ok entries →
  generateAsync entries = Ok blob →
  download "processed-pdfs.zip" blob = Ok () →
  processPDFs files previews "zip" w
  = ({| loading := false; cursorLoading := false;
        downloads := downloads w ++ [("processed-pdfs.zip", blob)] |}, Ok ()).
Proof.
  intros Hentries Hblob Hdownload.
  unfold processPDFs, mbind at 1 2 3, M_bind, setLoading, setCursorLoading,
    tryFinally.
  simpl. rewrite forFiles_archive by done. rewrite Hentries. simpl.
  unfold mbind, M_bind, lift, deliver. by rewrite Hblob, Hdownload.
Qed.

Lemma mapM_result_cons {A B} (f : A → result B) (x : A) (l : list A)
    (k : list B) :
  mapM f (x :: l) = Ok k →
  ∃ y k', f x = Ok y ∧ mapM f l = Ok k' ∧ k = y :: k'.
Proof.
  simpl. destruct (f x) as [y|e]; simpl; [|done].
  destruct (mapM f l) as [k'|e]; simpl; [|done].
  intros [= <-]. by exists y, k'.
Qed.

(** Individual mode, every step succeeding: one download per file, in the
    order of the files, and nothing added to the archive. *)
Lemma forFiles_single (previews : Previews) (files : list File)
    (zip : list (string * Bytes)) (w : World)
    (entries : list (string * Bytes)) :
  mapM (exported previews) files = Ok entries →
  Forall (λ entry, download entry.1 entry.2 = Ok ()) entries →
  forFiles previews "single" files zip w
  = ({| loading := loading w; cursorLoading := cursorLoading w;
        downloads := downloads w ++ entries |}, Ok zip).
Proof.
  revert w entries. induction files as [|file files IH]; intros w entries.
  - simpl. intros [= <-] _. destruct w. simpl. by rewrite app_nil_r.
  - intros (entry & rest & Hentry & Hrest & ->)%mapM_result_cons
           [Hfirst Hall]%Forall_cons.
    unfold exported in Hentry.
    destruct (buildDoc previews file) as [newDoc|e] eqn:Hbuild; [|done].
    simpl in Hentry.
    destruct (save newDoc) as [pdfBytes|e] eqn:Hsave; [|done].
    injection Hentry as <-. simpl in Hfirst.
    simpl. unfold mbind at 1 2 3 4, M_bind, lift.
    rewrite Hbuild, Hsave. unfold deliver at 1. rewrite Hfirst.
    unfold mret at 1, M_ret.
    rewrite (IH _ rest Hrest Hall). simpl. by rewrite <- app_assoc.
Qed.

(** Individual mode, every step succeeding: one download per file, named
    [modified-] and the file name, in the order of the files, no archive,
    and the busy state cleared. *)
Lemma processPDFs_individual (files : list File) (previews : Previews)
    (w : World) (entries : list (string * Bytes)) :
  mapM (exported previews) files = Ok entries →
  Forall (λ entry, download entry.1 entry.2 = Ok ()) entries →
  processPDFs files previews "single" w
  = ({| loading := false; cursorLoading := false;
        downloads := downloads w ++ entries |}, Ok ()).
Proof.
  intros Hentries Hdownloads.
  unfold processPDFs, mbind at 1 2 3, M_bind, setLoading, setCursorLoading,
    tryFinally.
  simpl. by rewrite (forFiles_single _ _ _ _ entries).
Qed.

End ExportProperties.


(** Every page of [a.pdf] deleted: the document written is one blank
    page. *)
Lemma exported_page_count_witness :
  @exported toy (session [flipDeleted a1; flipDeleted a2; flipDeleted a3] [])
    a_pdf
  = (out ← @written toy
             (session [flipDeleted a1; flipDeleted a2; flipDeleted a3] [])
             a_pdf;
     pdfBytes ← @serializeToBuffer toy out;
     Ok ("modified-" +:+ name a_pdf, pdfBytes)) ∧
  (∀ out,
     @written toy
       (session [flipDeleted a1; flipDeleted a2; flipDeleted a3] []) a_pdf
     = Ok out →
     length out
     = Nat.max 1 (length (List.filter kept
                            (pages (mkPreview [flipDeleted a1; flipDeleted a2;
                                               flipDeleted a3])))) ∧
     (Forall (λ p, deleted p = true)
        (pages (mkPreview [flipDeleted a1; flipDeleted a2; flipDeleted a3])) →
      out = [@blankPage toy])) ∧
  (∀ bytes pdfDoc,
     @arrayBuffer toy a_pdf = Ok bytes → @load toy bytes = Ok pdfDoc →
     (∀ p, p ∈ pages (mkPreview [flipDeleted a1; flipDeleted a2;
                                 flipDeleted a3]) →
           deleted p = false →
           ∃ copied, @copyPages toy pdfDoc (pageNo p - 1)%Z = Ok copied) →
     ∃ out,
       @written toy
         (session [flipDeleted a1; flipDeleted a2; flipDeleted a3] []) a_pdf
       = Ok out).
Proof.
  apply (@exported_page_count toy
           (session [flipDeleted a1; flipDeleted a2; flipDeleted a3] [])
           a_pdf (mkPreview [flipDeleted a1; flipDeleted a2; flipDeleted a3])).
  by vm_compute.
Defined.

(** C2 as stated fails: with every page of [a.pdf] deleted the export
    writes a document of one page, the blank one, where the claim has a
    document without pages. *)
Lemma all_deleted_export_has_a_page :
  @written toy
    (session [flipDeleted a1; flipDeleted a2; flipDeleted a3] []) a_pdf
  = Ok [@blankPage toy] ∧
  @exported toy
    (session [flipDeleted a1; flipDeleted a2; flipDeleted a3] []) a_pdf
  = Ok ("modified-a.pdf", [Byte.x00]) ∧
  ¬ @spec_page_count toy
      (session [flipDeleted a1; flipDeleted a2; flipDeleted a3] []) a_pdf.
Proof.
  split; [by vm_compute|]. split; [by vm_compute|].
  intros Hclaim.
  specialize (Hclaim (mkPreview [flipDeleted a1; flipDeleted a2;
                                 flipDeleted a3])
                [Byte.x00] ltac:(by vm_compute) ltac:(by vm_compute)).
  discriminate Hclaim.
Qed.

(** The example of the specification: original order 1, 2, 3, reordered to
    3, 1, 2, page 1 deleted: the output holds original pages 3 and 2. *)
Example copyLoop_reordered :
  @copyLoop toy [Byte.x01; Byte.x02; Byte.x03] [a3; flipDeleted a1; a2] []
  = Ok [Byte.x03; Byte.x02].
Proof. reflexivity. Qed.

(** A page number outside the source document: the copy throws. *)
Example copyLoop_out_of_range :
  @copyLoop toy [Byte.x01; Byte.x02] [a1; a3] [] = Throw TypeError.
Proof. reflexivity. Qed.

(** Scenario: [a.pdf] with page 2 deleted, individual mode: one download,
    [modified-a.pdf], holding pages 1 and 3. *)
Example processPDFs_single :
  @processPDFs toy [a_pdf] (session [a1; flipDeleted a2; a3] []) "single" idle
  = (mkWorld false false [("modified-a.pdf", [Byte.x01; Byte.x03])], Ok ()).
Proof. vm_compute. reflexivity. Qed.

(** Scenario: [a.pdf] and [b.pdf] unedited, archive mode: one download,
    the archive of [modified-a.pdf] (3 pages) and [modified-b.pdf]
    (2 pages). *)
Example processPDFs_zip :
  @processPDFs toy [a_pdf; b_pdf] (session [a1; a2; a3] [b1; flipDeleted b2])
    "zip" idle
  = (mkWorld false false
       [("processed-pdfs.zip",
         [Byte.x01; Byte.x02; Byte.x03; Byte.x0a; Byte.x0b])], Ok ()) ∧
  (@forFiles toy (session [a1; a2; a3] [b1; flipDeleted b2]) "zip"
     [a_pdf; b_pdf] [] idle).2
  = Ok [("modified-a.pdf", [Byte.x01; Byte.x02; Byte.x03]);
        ("modified-b.pdf", [Byte.x0a; Byte.x0b])].
Proof. split; vm_compute; reflexivity. Qed.

(** Every page deleted: the export goes through, with a document of one
    blank page. *)
Example processPDFs_all_deleted :
  @processPDFs toy [a_pdf]
    (session [flipDeleted a1; flipDeleted a2; flipDeleted a3] []) "single" idle
  = (mkWorld false false [("modified-a.pdf", [Byte.x00])], Ok ()).
Proof. vm_compute. reflexivity. Qed.

(** C8 on the failing input: a file that the codec cannot load.  The older
    export throws and leaves [loading] set; the export of [src/pdf.jsx]
    throws the same failure with [loading] and the cursor class cleared. *)
Theorem legacy_processPDFs_stays_loading :
  @Legacy.processPDFs toy [broken_pdf] {["broken.pdf" := mkPreview []]} idle
  = (mkWorld true false [], Throw (Failure "No PDF header found")) ∧
  @processPDFs toy [broken_pdf] {["broken.pdf" := mkPreview []]} "zip" idle
  = (mkWorld false false [], Throw (Failure "No PDF header found")).
Proof. split; vm_compute; reflexivity. Qed.

Section GenerateProperties.
Context `{Collaborators} `{PdfJs}.

Lemma initPreviews_lookup (files : list File) (fileName : string) :
  initPreviews files !! fileName
  = if decide (fileName ∈ name <$> files) then Some (mkPreview []) else None.
Proof.
  unfold initPreviews.
  assert (∀ init : Previews,
            foldl (λ init f, <[name f := mkPreview []]> init) init files
              !! fileName
            = if decide (fileName ∈ name <$> files) then Some (mkPreview [])
              else init !! fileName) as Hfold.
  { induction files as [|f files IH]; intros init.
    - simpl. destruct (decide (fileName ∈ [])) as [Hin|_]; [|done].
      by apply elem_of_nil in Hin.
    - cbn [foldl]. rewrite IH, fmap_cons.
      destruct (decide (fileName ∈ name <$> files)) as [Hin|Hnin].
      + rewrite decide_True; [done|]. by right.
      + destruct (decide (fileName = name f)) as [->|Hne].
        * rewrite decide_True by (by left). by rewrite lookup_insert_eq.
        * rewrite decide_False by (by intros [?|?]%elem_of_cons).
          by rewrite lookup_insert_ne. }
  rewrite Hfold. by destruct (decide _).
Qed.

Lemma run_stopped (fuel : nat) (cancelled : bool) (previews : Previews) :
  run fuel cancelled Returned previews = (Returned, Ok previews).
Proof. by destruct fuel. Qed.

(** The page loop of one file, from its head at page [i]. *)
Lemma run_page_loop (urls : list string) :
  ∀ (fuel : nat) (file : File) (rest : list File) (pdf : PDFDocumentProxy)
    (i : Z) (ps : list Page) (previews : Previews),
  mapM (renderPage pdf) (seqZ i (Z.of_nat (length urls))) = Ok urls →
  length urls = Z.to_nat (numPages pdf - i + 1) →
  previews !! name file = Some (mkPreview ps) →
  run (2 * length urls + fuel) false (loopHead false file rest pdf i) previews
  = run fuel false (nextFile rest)
      (<[name file := mkPreview (ps ++ generatedPages (name file) i urls)]>
         previews).
Proof.
  induction urls as [|url urls IH];
    intros fuel file rest pdf i ps previews Hurls Hlast Hentry.
  - simpl in *. unfold loopHead.
    destruct (Z.leb_spec i (numPages pdf)); [lia|].
    by rewrite app_nil_r, insert_id.
  - simpl length in *. rewrite Nat2Z.inj_succ in Hurls.
    rewrite seqZ_cons in Hurls by lia.
    replace (Z.pred (Z.succ (Z.of_nat (length urls))))
      with (Z.of_nat (length urls)) in Hurls by lia.
    apply mapM_result_cons in Hurls as (url' & urls' & Hurl & Hrest & Heq).
    injection Heq as <- <-.
    unfold loopHead at 1. destruct (Z.leb_spec i (numPages pdf)); [|lia].
    replace (2 * S (length urls) + fuel)
      with (S (S (2 * length urls + fuel))) by lia.
    cbn [run]. cbn [resume]. rewrite Hurl. unfold appendPage. rewrite Hentry.
    cbn [resume pages].
    rewrite (IH fuel file rest pdf (Z.succ i)
               (ps ++ [mkPage (name file +:+ "-page-" +:+ toString i) url i false])).
    + rewrite insert_insert_eq. simpl. by rewrite <- app_assoc.
    + done.
    + lia.
    + by rewrite lookup_insert_eq.
Qed.

Lemma seqZ_length_mapM {B} (f : Z → result B) (m n : Z) (k : list B) :
  mapM f (seqZ m n) = Ok k → length k = Z.to_nat n.
Proof. intros Hk%mapM_result_length. by rewrite length_seqZ in Hk. Qed.

Lemma thumbnails_Ok (file : File) (urls : list string) :
  thumbnails file = Ok urls →
  ∃ buffer pdf,
    arrayBuffer file = Ok buffer ∧ getDocument buffer = Ok pdf ∧
    mapM (renderPage pdf) (seqZ 1 (Z.of_nat (length urls))) = Ok urls ∧
    length urls = Z.to_nat (numPages pdf - 1 + 1).
Proof.
  unfold thumbnails.
  destruct (arrayBuffer file) as [buffer|e] eqn:Hbuf; simpl; [|done].
  destruct (getDocument buffer) as [pdf|e] eqn:Hpdf; simpl; [|done].
  intros Hurls. exists buffer, pdf.
  pose proof (seqZ_length_mapM _ _ _ _ Hurls) as Hlen.
  split; [done|]. split; [done|]. split; [|rewrite Hlen; f_equal; lia].
  destruct (Z.le_gt_cases 0 (numPages pdf)) as [Hn|Hn].
  - by rewrite Hlen, Z2Nat.id.
  - rewrite Hlen. replace (Z.to_nat (numPages pdf)) with 0 by lia.
    rewrite seqZ_nil in Hurls by lia. by rewrite seqZ_nil.
Qed.

(** The loop over the files. *)
Lemma run_file_loop (files : list File) :
  ∀ (urlss : list (list string)) (fuel : nat) (previews : Previews),
  mapM thumbnails files = Ok urlss →
  (∀ f, f ∈ files → is_Some (previews !! name f)) →
  run (resumptions urlss + fuel) false (nextFile files) previews
  = run fuel false Returned (foldl addGenerated previews (zip files urlss)).
Proof.
  induction files as [|file files IH]; intros urlss fuel previews Hurlss Hinit.
  - injection Hurlss as <-. done.
  - apply mapM_result_cons in Hurlss as (urls & urlss' & Hurls & Hrest & ->).
    destruct (thumbnails_Ok _ _ Hurls) as (buffer & pdf & Hbuf & Hpdf & Hmap & Hlen).
    destruct (Hinit file) as [[ps] Hentry]; [by left|].
    unfold resumptions. simpl length. rewrite length_app.
    replace (S (length urlss') + 2 * (length urls + length (concat urlss')) + fuel)
      with (S (2 * length urls + (resumptions urlss' + fuel)))
      by (unfold resumptions; lia).
    cbn [nextFile run resume]. rewrite Hbuf. simpl. rewrite Hpdf.
    rewrite (run_page_loop urls _ file files pdf 1 ps previews Hmap Hlen Hentry).
    rewrite IH; [|done|].
    + assert (addGenerated previews (file, urls)
              = <[name file :=
                    mkPreview (ps ++ generatedPages (name file) 1 urls)]>
                  previews) as Hadd.
      { unfold addGenerated. simpl. by rewrite Hentry. }
      simpl. by rewrite Hadd.
    + intros f Hf. destruct (decide (name f = name file)) as [->|Hne].
      * rewrite lookup_insert_eq. by eexists.
      * rewrite lookup_insert_ne by done. apply Hinit. by right.
Qed.

Lemma run_more (fuel : nat) :
  ∀ (fuel' : nat) (cancelled : bool) (g : generator) (previews : Previews)
    (r : result Previews),
  run fuel cancelled g previews = (Returned, r) → fuel ≤ fuel' →
  run fuel' cancelled g previews = (Returned, r).
Proof.
  induction fuel as [|fuel IH]; intros fuel' cancelled g previews r.
  - destruct g; simpl; try done. intros [= <-] _. apply run_stopped.
  - intros Hrun Hle. destruct fuel' as [|fuel']; [lia|].
    destruct g; cbn [run] in *; try done;
      (destruct (resume cancelled _ previews) as [g' [p'|e]];
       [apply IH; [done|lia]|done]).
Qed.

Lemma startGenerate_eq (files : list File) (cursorLoading : bool) :
  startGenerate files cursorLoading
  = (nextFile files, initPreviews files, false).
Proof. by destruct files. Qed.

Lemma foldl_addGenerated_other (files : list File) :
  ∀ (urlss : list (list string)) (previews : Previews) (fileName : string),
  fileName ∉ name <$> files →
  foldl addGenerated previews (zip files urlss) !! fileName
  = previews !! fileName.
Proof.
  induction files as [|f files IH]; intros [|urls urlss] previews fileName;
    try done.
  rewrite fmap_cons, not_elem_of_cons. intros [Hne Hnin]. simpl.
  rewrite IH by done. unfold addGenerated. simpl.
  destruct (previews !! name f); [|done]. by rewrite lookup_insert_ne.
Qed.

Lemma foldl_addGenerated_lookup (files : list File) :
  ∀ (urlss : list (list string)) (previews : Previews) (k : nat) (f : File)
    (urls : list string) (ps : list Page),
  NoDup (name <$> files) →
  files !! k = Some f → urlss !! k = Some urls →
  previews !! name f = Some (mkPreview ps) →
  foldl addGenerated previews (zip files urlss) !! name f
  = Some (mkPreview (ps ++ generatedPages (name f) 1 urls)).
Proof.
  induction files as [|f0 files IH];
    intros [|urls0 urlss] previews k f urls ps Hnd Hf Hurls Hentry;
    try done.
  rewrite fmap_cons in Hnd. apply NoDup_cons in Hnd as [Hnin Hnd].
  destruct k as [|k]; simpl in Hf, Hurls.
  - injection Hf as ->. injection Hurls as ->. simpl.
    rewrite foldl_addGenerated_other by done.
    unfold addGenerated. simpl. rewrite Hentry. by rewrite lookup_insert_eq.
  - simpl. apply (IH urlss _ k); try done.
    unfold addGenerated. simpl.
    destruct (previews !! name f0); [|done].
    rewrite lookup_insert_ne; [done|]. intros Heq. apply Hnin. rewrite Heq.
    apply list_elem_of_fmap. exists f. split; [done|].
    by eapply list_elem_of_lookup_2.
Qed.

Lemma toString_inj (a b : Z) : toString a = toString b → a = b.
Proof.
  unfold toString. intros Heq. apply DecimalZ.to_int_inj.
  apply (f_equal DecimalString.NilEmpty.int_of_string) in Heq.
  rewrite !DecimalString.NilEmpty.isi in Heq. congruence.
Qed.

Lemma append_inj (a x y : string) : a +:+ x = a +:+ y → x = y.
Proof. induction a as [|c a IH]; simpl; [done|]. intros [= ?]. auto. Qed.

Lemma generatedPages_pageNo (fileName : string) (urls : list string) :
  ∀ first, pageNo <$> generatedPages fileName first urls
           = seqZ first (Z.of_nat (length urls)).
Proof.
  induction urls as [|url urls IH]; intros first; [done|].
  simpl length. rewrite Nat2Z.inj_succ, seqZ_cons by lia. simpl.
  rewrite IH. do 2 f_equal; lia.
Qed.

Lemma generatedPages_length (fileName : string) (urls : list string) :
  ∀ first, length (generatedPages fileName first urls) = length urls.
Proof. induction urls as [|url urls IH]; intros first; simpl; auto. Qed.

Lemma generatedPages_ids (fileName : string) (urls : list string) :
  ∀ first p, p ∈ generatedPages fileName first urls →
             id p = fileName +:+ "-page-" +:+ toString (pageNo p) ∧
             deleted p = false.
Proof.
  induction urls as [|url urls IH]; intros first p; simpl.
  - by intros ?%elem_of_nil.
  - intros [->|Hp]%elem_of_cons; [done|]. by eapply IH.
Qed.

Lemma generatedPages_NoDup (fileName : string) (urls : list string)
    (first : Z) :
  NoDup (pageNo <$> generatedPages fileName first urls) ∧
  NoDup (id <$> generatedPages fileName first urls).
Proof.
  assert (NoDup (pageNo <$> generatedPages fileName first urls)) as Hnd.
  { rewrite generatedPages_pageNo. apply NoDup_seqZ. }
  split; [done|].
  pose proof (NoDup_fmap_1 pageNo _ Hnd) as Hps.
  apply NoDup_fmap_2_strong; [|done].
  intros p q Hp Hq Heq.
  destruct (generatedPages_ids _ _ _ _ Hp) as [Hidp _].
  destruct (generatedPages_ids _ _ _ _ Hq) as [Hidq _].
  rewrite Hidp, Hidq in Heq.
  apply append_inj, append_inj, toString_inj in Heq.
  pose proof (proj1 (NoDup_alt _) Hnd) as Halt.
  apply list_elem_of_lookup in Hp as [i Hi], Hq as [j Hj].
  assert (i = j) as ->; [|congruence].
  apply (Halt i j (pageNo p)); rewrite list_lookup_fmap, ?Hi, ?Hj; simpl;
    by rewrite ?Heq.
Qed.

(** Generation left alone.  When every file is read, opened and rendered
    without a throw, [generate], resumed with [cancelled] false as often
    as it suspends, returns, and the [previews] state is the initial one
    with, for each file in turn, its descriptors added to the entry of its
    name.  With file names distinct, the entry of each file holds exactly
    the descriptors of its pages, and no other entry exists. *)
Theorem generate_undisturbed (files : list File) (cursorLoading : bool)
    (urlss : list (list string)) (fuel : nat) :
  mapM thumbnails files = Ok urlss →
  resumptions urlss ≤ fuel →
  run fuel false (startGenerate files cursorLoading).1.1
      (startGenerate files cursorLoading).1.2
  = (Returned,
     Ok (foldl addGenerated (initPreviews files) (zip files urlss))) ∧
  (NoDup (name <$> files) →
   (∀ k f urls, files !! k = Some f → urlss !! k = Some urls →
      foldl addGenerated (initPreviews files) (zip files urlss) !! name f
      = Some (mkPreview (generatedPages (name f) 1 urls))) ∧
   (∀ other, other ∉ name <$> files →
      foldl addGenerated (initPreviews files) (zip files urlss) !! other
      = None)).
Proof.
  intros Hurlss Hfuel. rewrite startGenerate_eq. simpl. split.
  - replace fuel with (resumptions urlss + (fuel - resumptions urlss)) by lia.
    rewrite run_file_loop; [apply run_stopped|done|].
    intros f Hf. rewrite initPreviews_lookup.
    rewrite decide_True; [by eexists|].
    apply list_elem_of_fmap. by exists f.
  - intros Hnd. split.
    + intros k f urls Hf Hurls.
      rewrite (foldl_addGenerated_lookup files urlss _ k f urls []); try done.
      rewrite initPreviews_lookup. rewrite decide_True; [done|].
      apply list_elem_of_fmap. exists f. split; [done|].
      by eapply list_elem_of_lookup_2.
    + intros other Hother. rewrite foldl_addGenerated_other by done.
      rewrite initPreviews_lookup. by rewrite decide_False.
Qed.

(** The session an undisturbed generation leaves, file names distinct:
    every entry belongs to a file, its page numbers are 1, 2, ... in list
    order, its ids and its page numbers are pairwise distinct, and no
    descriptor is deleted. *)
Theorem generated_session_wellformed (files : list File)
    (cursorLoading : bool) (urlss : list (list string)) (fuel : nat)
    (final : Previews) :
  NoDup (name <$> files) →
  mapM thumbnails files = Ok urlss →
  run fuel false (startGenerate files cursorLoading).1.1
      (startGenerate files cursorLoading).1.2 = (Returned, Ok final) →
  ∀ fileName entry, final !! fileName = Some entry →
    fileName ∈ name <$> files ∧
    pageNo <$> pages entry = seqZ 1 (Z.of_nat (length (pages entry))) ∧
    NoDup (pageNo <$> pages entry) ∧
    NoDup (id <$> pages entry) ∧
    Forall (λ p, deleted p = false) (pages entry).
Proof.
  intros Hnd Hurlss Hrun fileName entry Hentry.
  rewrite startGenerate_eq in Hrun. simpl in Hrun.
  apply (run_more _ (fuel + resumptions urlss)) in Hrun; [|lia].
  rewrite Nat.add_comm, run_file_loop, run_stopped in Hrun; [|done|].
  2:{ intros f Hf. rewrite initPreviews_lookup.
      rewrite decide_True; [by eexists|]. apply list_elem_of_fmap. by exists f. }
  injection Hrun as <-.
  destruct (decide (fileName ∈ name <$> files)) as [Hin|Hnin].
  2:{ rewrite foldl_addGenerated_other, initPreviews_lookup in Hentry by done.
      by rewrite decide_False in Hentry. }
  split; [done|].
  apply list_elem_of_fmap in Hin as (f & -> & Hf).
  apply list_elem_of_lookup in Hf as [k Hk].
  destruct (lookup_lt_is_Some_2 urlss k) as [urls Hurls].
  { rewrite (mapM_result_length _ _ _ Hurlss). by eapply lookup_lt_Some. }
  rewrite (foldl_addGenerated_lookup files urlss _ k f urls []) in Hentry;
    try done.
  2:{ rewrite initPreviews_lookup. rewrite decide_True; [done|].
      apply list_elem_of_fmap. exists f. split; [done|].
      by eapply list_elem_of_lookup_2. }
  injection Hentry as <-. simpl.
  destruct (generatedPages_NoDup (name f) urls 1) as [Hn Hi].
  rewrite generatedPages_pageNo, generatedPages_length in *.
  repeat split; try done.
  apply Forall_forall. intros p Hp. by eapply generatedPages_ids.
Qed.

Lemma run_cancelled_idle (fuel : nat) :
  ∀ (g : generator) (previews : Previews),
  (∀ file rest pdf i, g ≠ AwaitPage file rest pdf i) →
  (run fuel true g previews).2 = Ok previews ∧
  (stepsLeft g ≤ fuel →
   (run fuel true g previews).1 = Returned ∨
   ∃ e, (run fuel true g previews).1 = Rejected e).
Proof.
  induction fuel as [|fuel IH]; intros g previews Hidle.
  - destruct g; simpl; (split; [done|]); try lia; eauto.
  - destruct g as [file rest|file rest pdf i|file rest pdf i| |e];
      cbn [run]; try (split; [done|]; eauto).
    + cbn [resume].
      destruct (arrayBuffer file ≫= _) as [pdf|e].
      * unfold loopHead.
        destruct (1 <=? numPages pdf)%Z;
          [rewrite run_stopped; split; [done|]; eauto|].
        destruct (IH (nextFile rest) previews) as [Hp Hstop];
          [by destruct rest|].
        split; [done|]. simpl. intros Hfuel. apply Hstop.
        destruct rest; simpl in *; lia.
      * destruct fuel; simpl; split; eauto.
    + by destruct (Hidle file rest pdf i).
    + cbn [resume]. unfold loopHead.
      destruct (i + 1 <=? numPages pdf)%Z;
        [rewrite run_stopped; split; [done|]; eauto|].
      destruct (IH (nextFile rest) previews) as [Hp Hstop];
        [by destruct rest|].
      split; [done|]. simpl. intros Hfuel. apply Hstop.
      destruct rest; simpl in *; lia.
Qed.

(** Cancellation.  Once [cancelled] is set, [generate] changes [previews]
    at most once more: not at all unless it is suspended in the rendering
    of a page, in which case the descriptor of that page is still added
    (to whatever [previews] then is, with a throw if the entry of the file
    is gone).  It then stops within two resumptions plus one per file
    still to come, each of which is still read and opened. *)
Theorem generate_cancelled (fuel : nat) (g : generator)
    (previews : Previews) :
  ((run fuel true g previews).2 = Ok previews ∨
   ∃ file rest pdf i url,
     g = AwaitPage file rest pdf i ∧ renderPage pdf i = Ok url ∧
     (run fuel true g previews).2 = appendPage (name file) i url previews) ∧
  (stepsLeft g ≤ fuel →
   (run fuel true g previews).1 = Returned ∨
   (∃ e, (run fuel true g previews).1 = Rejected e) ∨
   (∃ e, (run fuel true g previews).2 = Throw e)).
Proof.
  assert ((∃ file rest pdf i, g = AwaitPage file rest pdf i) ∨
          (∀ file rest pdf i, g ≠ AwaitPage file rest pdf i))
    as [(file & rest & pdf & i & ->)|Hidle].
  { destruct g; try (by right); left; by eexists _, _, _, _. }
  2:{ destruct (run_cancelled_idle fuel g previews Hidle) as [Hp Hstop].
      split; [by left|]. intros Hfuel. destruct (Hstop Hfuel); eauto. }
  destruct fuel as [|fuel]; [split; [by left|simpl; lia]|].
  cbn [run resume]. destruct (renderPage pdf i) as [url|e] eqn:Hurl.
  - destruct (appendPage (name file) i url previews) as [next|e] eqn:Hnext.
    + destruct (run_cancelled_idle fuel (AwaitFrame file rest pdf i) next)
        as [Hp Hstop]; [done|].
      split.
      * right. exists file, rest, pdf, i, url. by rewrite Hp.
      * intros Hfuel. destruct Hstop as [?|?]; [simpl in *; lia|eauto..].
    + split; [|eauto]. right. by exists file, rest, pdf, i, url.
  - split; [left; by destruct fuel|]. intros _. right. left.
    exists e. by destruct fuel.
Qed.

End GenerateProperties.

(** A user toggling a page while the previews are generated: the toggle
    and the arrival of the descriptor of another page, or of a page of
    another file, can be applied in either order. *)
Theorem appendPage_toggleDelete_commute (fileName : string) (i : Z)
    (url : string) (file : string) (n : Z) (prev appended next : Previews) :
  file ≠ fileName ∨ n ≠ i →
  appendPage fileName i url prev = Ok appended →
  toggleDelete file n appended = Ok next →
  ∃ toggled, toggleDelete file n prev = Ok toggled ∧
             appendPage fileName i url toggled = Ok next.
Proof.
  intros Hdiff. unfold appendPage, toggleDelete.
  destruct (prev !! fileName) as [entry|] eqn:Hentry; [|done].
  intros [= <-].
  destruct (decide (file = fileName)) as [->|Hne].
  - destruct Hdiff as [?|Hn]; [done|].
    rewrite lookup_insert_eq, Hentry. intros [= <-]. eexists. split; [done|].
    rewrite lookup_insert_eq, !insert_insert_eq. simpl.
    rewrite map_app. simpl.
    by destruct (Z.eqb_spec i n) as [->|_].
  - rewrite lookup_insert_ne by done.
    destruct (prev !! file) as [toggledEntry|]; [|done].
    intros [= <-]. eexists. split; [done|].
    rewrite lookup_insert_ne, Hentry by done.
    by rewrite insert_insert_ne.
Qed.

Lemma appendPage_toggleDelete_commute_witness :
  ∃ toggled,
    toggleDelete "a.pdf" 1 (session [a1; a2] [b1; b2]) = Ok toggled ∧
    appendPage "a.pdf" 3 "blob:3" toggled
    = Ok (session [flipDeleted a1; a2; a3] [b1; b2]).
Proof.
  apply (appendPage_toggleDelete_commute "a.pdf" 3 "blob:3" "a.pdf" 1
           (session [a1; a2] [b1; b2]) (session [a1; a2; a3] [b1; b2])).
  - right. discriminate.
  - vm_compute. reflexivity.
  - vm_compute. reflexivity.
Defined.

(** Upload, then export without an edit: for a file of [n] pages the
    export copies the source pages at indices 0 to [n - 1], in order. *)
Theorem copyLoop_generatedPages `{Collaborators} (pdfDoc : PDFDocument)
    (fileName : string) (urls : list string) :
  copyLoop pdfDoc (generatedPages fileName 1 urls) []
  = mapM (copyPages pdfDoc) (seqZ 0 (Z.of_nat (length urls))).
Proof.
  rewrite copyLoop_mapM.
  assert (∀ first,
            mapM (λ p, copyPages pdfDoc (pageNo p - 1)%Z)
                 (List.filter kept (generatedPages fileName first urls))
            = mapM (copyPages pdfDoc)
                   (seqZ (first - 1) (Z.of_nat (length urls)))) as Hgen.
  { induction urls as [|url urls IH]; intros first; [done|].
    simpl length. rewrite Nat2Z.inj_succ, seqZ_cons by lia.
    cbn [generatedPages List.filter kept deleted negb mapM pageNo].
    simpl. rewrite IH.
    by replace (Z.pred (Z.succ (Z.of_nat (length urls))))
      with (Z.of_nat (length urls)) by lia;
      replace (Z.succ (first - 1)) with (first + 1 - 1)%Z by lia. }
  apply (Hgen 1%Z).
Qed.

Lemma generate_undisturbed_witness :
  @run toy toy_pdfjs 12 false
    (@startGenerate toy_pdfjs [a_pdf; b_pdf] true).1.1
    (@startGenerate toy_pdfjs [a_pdf; b_pdf] true).1.2
  = (Returned,
     Ok (foldl addGenerated (initPreviews [a_pdf; b_pdf])
           (zip [a_pdf; b_pdf]
                [["blob:1"; "blob:2"; "blob:3"]; ["blob:10"; "blob:11"]]))) ∧
  (NoDup (name <$> [a_pdf; b_pdf]) →
   (∀ k f urls,
      [a_pdf; b_pdf] !! k = Some f →
      [["blob:1"; "blob:2"; "blob:3"]; ["blob:10"; "blob:11"]] !! k
      = Some urls →
      foldl addGenerated (initPreviews [a_pdf; b_pdf])
        (zip [a_pdf; b_pdf]
             [["blob:1"; "blob:2"; "blob:3"]; ["blob:10"; "blob:11"]])
        !! name f
      = Some (mkPreview (generatedPages (name f) 1 urls))) ∧
   (∀ other, other ∉ name <$> [a_pdf; b_pdf] →
      foldl addGenerated (initPreviews [a_pdf; b_pdf])
        (zip [a_pdf; b_pdf]
             [["blob:1"; "blob:2"; "blob:3"]; ["blob:10"; "blob:11"]])
        !! other
      = None)).
Proof.
  apply (@generate_undisturbed toy toy_pdfjs [a_pdf; b_pdf] true
           [["blob:1"; "blob:2"; "blob:3"]; ["blob:10"; "blob:11"]] 12).
  - vm_compute. reflexivity.
  - unfold resumptions. simpl. lia.
Defined.

Example generate_a_pdf :
  @run toy toy_pdfjs 7 false
    (@startGenerate toy_pdfjs [a_pdf] false).1.1
    (@startGenerate toy_pdfjs [a_pdf] false).1.2
  = (Returned, Ok (<["a.pdf" := mkPreview [a1; a2; a3]]> ∅)).
Proof. vm_compute. reflexivity. Qed.

Lemma generated_session_wellformed_witness :
  "a.pdf" ∈ name <$> [a_pdf] ∧
  pageNo <$> pages (mkPreview [a1; a2; a3])
  = seqZ 1 (Z.of_nat (length (pages (mkPreview [a1; a2; a3])))) ∧
  NoDup (pageNo <$> pages (mkPreview [a1; a2; a3])) ∧
  NoDup (id <$> pages (mkPreview [a1; a2; a3])) ∧
  Forall (λ p, deleted p = false) (pages (mkPreview [a1; a2; a3])).
Proof.
  apply (@generated_session_wellformed toy toy_pdfjs [a_pdf] false
           [["blob:1"; "blob:2"; "blob:3"]] 7
           (<["a.pdf" := mkPreview [a1; a2; a3]]> ∅)).
  - repeat constructor. apply not_elem_of_nil.
  - vm_compute. reflexivity.
  - vm_compute. reflexivity.
  - vm_compute. reflexivity.
Defined.

Lemma generate_cancelled_witness :
  @run toy toy_pdfjs 3 true
    (@AwaitPage toy_pdfjs a_pdf [b_pdf] [Byte.x01; Byte.x02; Byte.x03] 2)
    (initPreviews [a_pdf]) = (Returned, Ok (<["a.pdf" := mkPreview [a2]]> ∅))
  ∧ (@stepsLeft toy_pdfjs
       (@AwaitPage toy_pdfjs a_pdf [b_pdf] [Byte.x01; Byte.x02; Byte.x03] 2)
     ≤ 3 →
     (@run toy toy_pdfjs 3 true
        (@AwaitPage toy_pdfjs a_pdf [b_pdf] [Byte.x01; Byte.x02; Byte.x03] 2)
        (initPreviews [a_pdf])).1 = Returned ∨
     (∃ e, (@run toy toy_pdfjs 3 true
              (@AwaitPage toy_pdfjs a_pdf [b_pdf]
                 [Byte.x01; Byte.x02; Byte.x03] 2)
              (initPreviews [a_pdf])).1 = Rejected e) ∨
     (∃ e, (@run toy toy_pdfjs 3 true
              (@AwaitPage toy_pdfjs a_pdf [b_pdf]
                 [Byte.x01; Byte.x02; Byte.x03] 2)
              (initPreviews [a_pdf])).2 = Throw e)).
Proof.
  split; [vm_compute; reflexivity|].
  apply (@generate_cancelled toy toy_pdfjs 3).
Defined.

(** A page that was rendering when the files were replaced still arrives:
    in the session of a new file of the same name it is a stray
    descriptor, and after a reset its updater throws. *)
Example stale_page_after_cancel :
  (@run toy toy_pdfjs 3 true
     (@AwaitPage toy_pdfjs a_pdf [] [Byte.x01; Byte.x02; Byte.x03] 2)
     (initPreviews [a_pdf])).2 = Ok (<["a.pdf" := mkPreview [a2]]> ∅) ∧
  (@run toy toy_pdfjs 3 true
     (@AwaitPage toy_pdfjs a_pdf [] [Byte.x01; Byte.x02; Byte.x03] 2)
     ∅).2 = Throw TypeError.
Proof. split; vm_compute; reflexivity. Qed.

(** ** More on the range selector *)

(** The update depends on the set only through its integer members. *)
Lemma markDeleted_ext (D D' : list number) (prev : Previews) :
  (∀ n, Js.Set_has D (Int n) = Js.Set_has D' (Int n)) →
  markDeleted D prev = markDeleted D' prev.
Proof.
  intros Hsame. unfold markDeleted. apply map_fmap_ext.
  intros file entry _. f_equal. apply map_ext. intros p.
  unfold markPage. by rewrite Hsame.
Qed.

Lemma markDeleted_compose (D1 D2 D : list number) (prev : Previews) :
  (∀ n, Js.Set_has D (Int n)
        = Js.Set_has D1 (Int n) || Js.Set_has D2 (Int n)) →
  markDeleted D2 (markDeleted D1 prev) = markDeleted D prev.
Proof.
  intros Hunion. unfold markDeleted. rewrite <- map_fmap_compose.
  apply map_fmap_ext. intros file entry _. simpl. f_equal.
  rewrite map_map. apply map_ext. intros p. unfold markPage. simpl.
  by rewrite Hunion, orb_assoc.
Qed.

(** Two lists of terms with the same members mark the same pages. *)
Lemma forEachRange_same_terms (ranges ranges' : list string)
    (prev : Previews) :
  (∀ r, r ∈ ranges ↔ r ∈ ranges') →
  (D ← forEachRange ranges []; Some (markDeleted D prev))
  = (D ← forEachRange ranges' []; Some (markDeleted D prev)).
Proof.
  intros Hsame.
  destruct (forEachRange ranges []) as [D|] eqn:HD;
    destruct (forEachRange ranges' []) as [D'|] eqn:HD'; simpl.
  - f_equal. apply markDeleted_ext. intros n.
    apply eq_true_iff_eq.
    rewrite (forEachRange_union _ _ _ HD), (forEachRange_union _ _ _ HD').
    rewrite !Set_has_nil. by setoid_rewrite Hsame.
  - assert (is_Some (forEachRange ranges' [])) as [? ?]; [|congruence].
    apply forEachRange_is_Some. intros r Hr%Hsame.
    by eapply (proj1 (forEachRange_is_Some ranges [])).
  - assert (is_Some (forEachRange ranges [])) as [? ?]; [|congruence].
    apply forEachRange_is_Some. intros r Hr%Hsame.
    by eapply (proj1 (forEachRange_is_Some ranges' [])).
  - done.
Qed.

Lemma split_joined (a b : string) :
  Js.split (a +:+ "," +:+ b) "," = Js.split a "," ++ Js.split b ",".
Proof. apply (split_app_sep a b ","). Qed.

Lemma joined_not_blank (a b : string) :
  Js.isEmpty (Js.trim (a +:+ "," +:+ b)) = false.
Proof.
  apply (trim_not_blank _ ","); [|done].
  rewrite includes_app. simpl. by rewrite orb_true_r.
Qed.

(** The order of the terms does not matter: ["a,b"] and ["b,a"] give the
    same state, whatever the two parts are. *)
Theorem applyBulkDeleteAll_swap (a b : string) (prev : Previews) :
  applyBulkDeleteAll (a +:+ "," +:+ b) prev
  = applyBulkDeleteAll (b +:+ "," +:+ a) prev.
Proof.
  unfold applyBulkDeleteAll, parseRanges.
  rewrite !joined_not_blank, !split_joined.
  apply forEachRange_same_terms. intros r. rewrite !elem_of_app. tauto.
Qed.

Lemma forEachRange_app (l1 l2 : list string) (D : list number) :
  forEachRange (l1 ++ l2) D = (D1 ← forEachRange l1 D; forEachRange l2 D1).
Proof.
  revert D. induction l1 as [|r l1 IH]; intros D; simpl; [done|].
  destruct (addRange D r); simpl; [apply IH|done].
Qed.

(** Applying ["a,b"] is applying [a] and then [b], when neither is
    blank. *)
Theorem applyBulkDeleteAll_joined (a b : string) (prev : Previews) :
  Js.isEmpty (Js.trim a) = false → Js.isEmpty (Js.trim b) = false →
  applyBulkDeleteAll (a +:+ "," +:+ b) prev
  = (next ← applyBulkDeleteAll a prev; applyBulkDeleteAll b next).
Proof.
  intros Ha Hb. unfold applyBulkDeleteAll, parseRanges.
  rewrite joined_not_blank, Ha, Hb, split_joined, forEachRange_app.
  destruct (forEachRange (Js.split a ",") []) as [Da|] eqn:HDa; simpl;
    [|done].
  destruct (forEachRange (Js.split b ",") Da) as [D|] eqn:HD.
  - destruct (proj2 (forEachRange_is_Some (Js.split b ",") []))
      as [Db HDb].
    { apply (proj1 (forEachRange_is_Some _ Da)). by eexists. }
    rewrite HDb. simpl. f_equal. symmetry. apply markDeleted_compose.
    intros n. apply eq_true_iff_eq. rewrite orb_true_iff.
    rewrite (forEachRange_union _ _ _ HD), (forEachRange_union _ _ _ HDb).
    rewrite Set_has_nil. intuition discriminate.
  - destruct (forEachRange (Js.split b ",") []) as [Db|] eqn:HDb; [|done].
    assert (is_Some (forEachRange (Js.split b ",") Da)) as [? ?];
      [|congruence].
    apply forEachRange_is_Some.
    apply (proj1 (forEachRange_is_Some _ [])). by eexists.
Qed.

Lemma applyBulkDeleteAll_joined_witness :
  applyBulkDeleteAll ("1" +:+ "," +:+ "3-4") (session [a1; a2; a3] [b1; b2])
  = (next ← applyBulkDeleteAll "1" (session [a1; a2; a3] [b1; b2]);
     applyBulkDeleteAll "3-4" next).
Proof.
  apply (applyBulkDeleteAll_joined "1" "3-4"); reflexivity.
Defined.

(** A field of white space only leaves the state as it is. *)
Theorem applyBulkDeleteAll_whitespace (deleteInput : string)
    (prev : Previews) :
  allWhiteSpace deleteInput = true →
  applyBulkDeleteAll deleteInput prev = Some prev.
Proof.
  intros Hblank. unfold applyBulkDeleteAll.
  by rewrite trim_allWhiteSpace.
Qed.

Lemma applyBulkDeleteAll_whitespace_witness :
  applyBulkDeleteAll "   " (session [a1; a2; a3] [b1; b2])
  = Some (session [a1; a2; a3] [b1; b2]).
Proof. apply (applyBulkDeleteAll_whitespace "   "). reflexivity. Defined.

Lemma markDeleted_none (toDelete : list number) (prev : Previews) :
  (∀ file i p, pageAt prev file i = Some p →
               Js.Set_has toDelete (Int (pageNo p)) = false) →
  markDeleted toDelete prev = prev.
Proof.
  intros Hnone.
  unfold markDeleted. rewrite <- (map_fmap_id prev) at 2.
  apply map_fmap_ext. intros file [ps] Hfile. simpl. f_equal.
  rewrite <- (map_id ps) at 2. apply map_ext_in.
  intros p [i Hi]%list_elem_of_In%list_elem_of_lookup.
  unfold markPage. rewrite (Hnone file i p).
  - destruct p. simpl. by rewrite orb_false_r.
  - unfold pageAt. by rewrite Hfile.
Qed.

(** A field that names no page of any file leaves the state as it is. *)
Theorem applyBulkDeleteAll_no_such_page (deleteInput : string)
    (toDelete : list number) (prev : Previews) :
  parseRanges deleteInput = Some toDelete →
  (∀ file i p, pageAt prev file i = Some p →
               Js.Set_has toDelete (Int (pageNo p)) = false) →
  applyBulkDeleteAll deleteInput prev = Some prev.
Proof.
  intros Hparse Hnone. unfold applyBulkDeleteAll. rewrite Hparse.
  destruct (Js.isEmpty _); [done|]. simpl. f_equal.
  by apply markDeleted_none.
Qed.

Lemma applyBulkDeleteAll_no_such_page_witness :
  applyBulkDeleteAll "7,x,9-12" (session [a1; a2; a3] [b1; b2])
  = Some (session [a1; a2; a3] [b1; b2]).
Proof.
  apply (applyBulkDeleteAll_no_such_page "7,x,9-12"
           [Int 7; NaN; Int 9; Int 10; Int 11; Int 12]).
  - reflexivity.
  - intros file i p. unfold pageAt.
    destruct (decide (file = "a.pdf")) as [->|Ha].
    { change (session [a1; a2; a3] [b1; b2] !! "a.pdf")
        with (Some (mkPreview [a1; a2; a3])). simpl.
      destruct i as [|[|[|i]]]; simpl; intros [= <-]; reflexivity. }
    destruct (decide (file = "b.pdf")) as [->|Hb].
    { change (session [a1; a2; a3] [b1; b2] !! "b.pdf")
        with (Some (mkPreview [b1; b2])). simpl.
      destruct i as [|[|i]]; simpl; intros [= <-]; reflexivity. }
    unfold session. by rewrite !lookup_insert_ne, lookup_empty.
Defined.

Lemma allDigits_includes (s : string) (c : ascii) :
  allDigits s = true → isDigit c = false → Js.includes s c = false.
Proof.
  intros Hs Hc. induction s as [|d s IH]; [done|]. simpl in *.
  apply andb_true_iff in Hs as [Hd Hs].
  destruct (Ascii.eqb_spec d c) as [->|_]; [congruence|auto].
Qed.

Lemma spec_integer_digits (s : string) (k : Z) :
  spec_integer s = Some k → allDigits s = true.
Proof.
  unfold spec_integer. destruct (allDigits s); [done|].
  by rewrite andb_false_r.
Qed.

(** A reversed range, as in ["5-2"], marks nothing. *)
Theorem applyBulkDeleteAll_reversed_range (first last : string) (a b : Z)
    (prev : Previews) :
  spec_integer first = Some a → spec_integer last = Some b →
  (b < a ≤ Js.MAX_SAFE_INTEGER)%Z →
  applyBulkDeleteAll (first +:+ "-" +:+ last) prev = Some prev.
Proof.
  intros Ha Hb Hab.
  pose proof (spec_integer_digits _ _ Ha) as Hda.
  pose proof (spec_integer_digits _ _ Hb) as Hdb.
  set (r := first +:+ "-" +:+ last).
  enough (parseRanges r = Some []) as Hparse.
  { unfold applyBulkDeleteAll. rewrite Hparse.
    destruct (Js.isEmpty _); [done|]. simpl. f_equal.
    by apply markDeleted_none. }
  assert (Js.split r "," = [r]) as Hcomma.
  { apply split_no_separator. unfold r. rewrite includes_app. simpl.
    by rewrite !(allDigits_includes _ ",") by done. }
  assert (Js.includes r "-" = true) as Hdash.
  { unfold r. rewrite includes_app. simpl. by rewrite orb_true_r. }
  assert (Js.split r "-" = [first; last]) as Hsplit.
  { unfold r. etrans; [apply (split_app_sep first last "-")|].
    by rewrite !split_no_separator by (by apply allDigits_includes). }
  unfold parseRanges. rewrite Hcomma. cbn [forEachRange]. unfold addRange.
  rewrite Hdash, Hsplit. unfold Js.MAX_SAFE_INTEGER in Hab.
  rewrite (Number_spec_integer _ _ Ha), (Number_spec_integer _ _ Hb) by lia.
  assert (Js.le (Int a) (Int b) = false) as Hle.
  { rewrite le_finite by done. simpl. apply Z.leb_gt. lia. }
  cbv zeta. by destruct (rounds (Int a) (Int b)); cbn [forLoop]; rewrite Hle.
Qed.

Lemma applyBulkDeleteAll_reversed_range_witness :
  applyBulkDeleteAll ("3" +:+ "-" +:+ "1") (session [a1; a2; a3] [b1; b2])
  = Some (session [a1; a2; a3] [b1; b2]).
Proof.
  apply (applyBulkDeleteAll_reversed_range "3" "1" 3 1).
  - reflexivity.
  - reflexivity.
  - unfold Js.MAX_SAFE_INTEGER. lia.
Defined.

(** ** More on the toggle *)

Lemma flipDeleted_involutive (p : Page) : flipDeleted (flipDeleted p) = p.
Proof. destruct p as [? ? ? d]. unfold flipDeleted. simpl. by destruct d. Qed.

Lemma togglePage_involutive (n : Z) (p : Page) :
  togglePage n (togglePage n p) = p.
Proof.
  unfold togglePage. destruct (Z.eqb_spec (pageNo p) n) as [Hn|Hn]; simpl.
  - rewrite Hn, Z.eqb_refl. apply flipDeleted_involutive.
  - by destruct (Z.eqb_spec (pageNo p) n).
Qed.

Lemma togglePage_commute (m n : Z) (p : Page) :
  togglePage m (togglePage n p) = togglePage n (togglePage m p).
Proof.
  unfold togglePage.
  destruct (pageNo p =? n)%Z eqn:Hn, (pageNo p =? m)%Z eqn:Hm;
    cbn [pageNo flipDeleted]; by rewrite ?Hn, ?Hm.
Qed.

(** Toggling the same page twice gives the state back. *)
Theorem toggleDelete_twice (file : string) (n : Z) (prev next : Previews) :
  toggleDelete file n prev = Ok next →
  toggleDelete file n next = Ok prev.
Proof.
  unfold toggleDelete.
  destruct (prev !! file) as [[ps]|] eqn:Hfile; [|done]. intros [= <-].
  assert (map (togglePage n) (map (togglePage n) ps) = ps) as Hps.
  { rewrite map_map. etrans; [|apply map_id].
    apply map_ext. intros p. apply togglePage_involutive. }
  rewrite lookup_insert_eq. simpl. rewrite insert_insert_eq. f_equal.
  apply insert_id. rewrite Hfile. do 2 f_equal. symmetry. exact Hps.
Qed.

Lemma toggleDelete_twice_witness :
  toggleDelete "a.pdf" 2 (session [a1; flipDeleted a2; a3] [b1; b2])
  = Ok (session [a1; a2; a3] [b1; b2]).
Proof.
  apply (toggleDelete_twice "a.pdf" 2 (session [a1; a2; a3] [b1; b2])).
  vm_compute. reflexivity.
Defined.

(** Two toggles can be applied in either order. *)
Theorem toggleDelete_commute (file file' : string) (m n : Z)
    (prev mid next : Previews) :
  toggleDelete file m prev = Ok mid →
  toggleDelete file' n mid = Ok next →
  ∃ mid', toggleDelete file' n prev = Ok mid' ∧
          toggleDelete file m mid' = Ok next.
Proof.
  unfold toggleDelete.
  destruct (prev !! file) as [entry|] eqn:Hfile; [|done]. intros [= <-].
  destruct (decide (file' = file)) as [->|Hne].
  - rewrite lookup_insert_eq, Hfile. intros [= <-]. eexists. split; [done|].
    rewrite lookup_insert_eq, !insert_insert_eq. simpl. do 3 f_equal.
    rewrite !map_map. apply map_ext. intros p.
    apply (togglePage_commute m n p).
  - rewrite lookup_insert_ne by done.
    destruct (prev !! file') as [entry'|]; [|done]. intros [= <-].
    eexists. split; [done|]. rewrite lookup_insert_ne, Hfile by done.
    by rewrite insert_insert_ne.
Qed.

Lemma toggleDelete_commute_witness :
  ∃ mid', toggleDelete "b.pdf" 2 (session [a1; a2; a3] [b1; b2]) = Ok mid' ∧
          toggleDelete "a.pdf" 1 mid'
          = Ok (session [flipDeleted a1; a2; a3] [b1; flipDeleted b2]).
Proof.
  apply (toggleDelete_commute "a.pdf" "b.pdf" 1 2
           (session [a1; a2; a3] [b1; b2])
           (session [flipDeleted a1; a2; a3] [b1; b2])).
  - vm_compute. reflexivity.
  - vm_compute. reflexivity.
Defined.

(** The toggle changes nothing but [deleted] fields: the same files, each
    with as many descriptors in the same order and with the same [id],
    [img] and [pageNo]; [deleted] is negated for every descriptor of the
    file with that page number, and kept for every other descriptor. *)
Theorem toggleDelete_frame (file : string) (n : Z) (prev next : Previews) :
  toggleDelete file n prev = Ok next →
  dom next = dom prev ∧
  ∀ file' i p, pageAt prev file' i = Some p →
    ∃ p', pageAt next file' i = Some p' ∧
          id p' = id p ∧ img p' = img p ∧ pageNo p' = pageNo p ∧
          deleted p' = if decide (file' = file ∧ pageNo p = n)
                       then negb (deleted p) else deleted p.
Proof.
  unfold toggleDelete.
  destruct (prev !! file) as [entry|] eqn:Hfile; [|done]. intros [= <-].
  split.
  - apply dom_insert_lookup_L. by eexists.
  - intros file' i p. unfold pageAt.
    destruct (decide (file' = file)) as [->|Hne].
    + rewrite lookup_insert_eq, Hfile. simpl. intros Hp.
      change (map ?f ?l) with (f <$> l). rewrite list_lookup_fmap, Hp. simpl.
      eexists. split; [done|].
      destruct (Z.eqb_spec (pageNo p) n) as [Hn|Hn].
      * by rewrite decide_True.
      * rewrite decide_False; [done|]. by intros [_ ?].
    + rewrite lookup_insert_ne by done. intros Hp. exists p.
      split; [done|]. rewrite decide_False; [done|]. by intros [? _].
Qed.

Lemma toggleDelete_frame_witness :
  dom (session [a1; flipDeleted a2; a3] [b1; b2])
  = dom (session [a1; a2; a3] [b1; b2]) ∧
  ∀ file' i p, pageAt (session [a1; a2; a3] [b1; b2]) file' i = Some p →
    ∃ p', pageAt (session [a1; flipDeleted a2; a3] [b1; b2]) file' i
          = Some p' ∧
          id p' = id p ∧ img p' = img p ∧ pageNo p' = pageNo p ∧
          deleted p' = if decide (file' = "a.pdf" ∧ pageNo p = 2%Z)
                       then negb (deleted p) else deleted p.
Proof.
  apply (toggleDelete_frame "a.pdf" 2).
  vm_compute. reflexivity.
Defined.

(** ** More on the drag *)

Lemma arrayMove_nil {A} (from to : Z) : arrayMove (@nil A) from to = None.
Proof.
  unfold arrayMove, Js.splice. by rewrite drop_nil, take_nil.
Qed.

(** The state updater of the drag throws exactly when the file has no
    entry, and what it throws is a [TypeError]; it returns a state whose
    page list for the file is [[undefined]] exactly when the entry of the
    file has no page.  The drag together with the render that follows
    fails exactly when it gets past its guard (a drop target with another
    id) in one of these two cases. *)
Theorem onDragEnd_throws_iff (file : string) (event : DragEndEvent)
    (prev : Previews) (e : exn) :
  (∀ activeId overId,
     moveUpdater file activeId overId prev = Throw e ↔
     e = TypeError ∧ prev !! file = None) ∧
  (∀ activeId overId,
     moveUpdater file activeId overId prev = Ok None ↔
     prev !! file = Some (mkPreview [])) ∧
  (onDragEnd file event prev = Throw e ↔
   e = TypeError ∧
   ∃ to, over event = Some to ∧ active event ≠ to ∧
         (prev !! file = None ∨ prev !! file = Some (mkPreview []))).
Proof.
  split; [|split].
  - intros activeId overId. unfold moveUpdater.
    destruct (prev !! file); split; try done.
    + by intros [_ ?].
    + by intros [= <-].
    + by intros [-> _].
  - intros activeId overId. unfold moveUpdater.
    destruct (prev !! file) as [[ps]|]; [|done]. cbv zeta. cbn [pages].
    destruct ps as [|p ps].
    + by rewrite arrayMove_nil.
    + destruct (arrayMove_is_Some (p :: ps)
                  (Js.findIndex (λ p, String.eqb (id p) activeId) (p :: ps))
                  (Js.findIndex (λ p, String.eqb (id p) overId) (p :: ps)))
        as [moved ->]; [done|apply findIndex_bounds|done].
  - rewrite !onDragEnd_eq. split.
    + destruct (over event) as [to|]; [|done].
      destruct (String.eqb_spec (active event) to) as [|Hne]; [done|].
      destruct (prev !! file) as [[ps]|] eqn:Hfile.
      * simpl. destruct ps as [|p ps].
        -- intros Hthrow. split; [by destruct (arrayMove _ _ _); congruence|].
           exists to. auto.
        -- destruct (arrayMove_is_Some (p :: ps)
                       (Js.findIndex (λ p, String.eqb (id p) (active event))
                          (p :: ps))
                       (Js.findIndex (λ p, String.eqb (id p) to) (p :: ps)))
             as [moved ->]; [done|apply findIndex_bounds|done].
      * intros [= <-]. split; [done|]. exists to. auto.
    + intros (-> & to & -> & Hne & Hfile).
      destruct (String.eqb_spec (active event) to); [done|].
      by destruct Hfile as [->| ->].
Qed.

Lemma findIndexFrom_map {A B} (f : A → B) (pred : B → bool) (a : list A) :
  ∀ k, Js.findIndexFrom pred (map f a) k
       = Js.findIndexFrom (λ x, pred (f x)) a k.
Proof.
  induction a as [|x a IH]; intros k; simpl; [done|].
  destruct (pred (f x)); [done|apply IH].
Qed.

Lemma findIndex_same_ids (f : Page → Page) (ident : string)
    (ps : list Page) :
  (∀ p, id (f p) = id p) →
  Js.findIndex (λ p, String.eqb (id p) ident) (map f ps)
  = Js.findIndex (λ p, String.eqb (id p) ident) ps.
Proof.
  intros Hid. unfold Js.findIndex. rewrite findIndexFrom_map.
  generalize 0%Z. induction ps as [|p ps IH]; intros k; simpl; [done|].
  rewrite Hid. destruct (String.eqb _ _); [done|apply IH].
Qed.

Lemma splice_map {A B} (f : A → B) (a : list A) (start deleteCount : Z)
    (items : list A) :
  Js.splice (map f a) start deleteCount (map f items)
  = (map f (Js.splice a start deleteCount items).1,
     map f (Js.splice a start deleteCount items).2).
Proof.
  unfold Js.splice. rewrite length_map. simpl.
  change (map f ?l) with (f <$> l).
  by rewrite !fmap_app, !fmap_take, !fmap_drop.
Qed.

(** [arrayMove] does not look at the elements. *)
Lemma arrayMove_map {A B} (f : A → B) (a : list A) (from to : Z) :
  arrayMove (map f a) from to = map f <$> arrayMove a from to.
Proof.
  unfold arrayMove. rewrite length_map.
  pose proof (splice_map f a from 1 []) as Hrem. cbn [map] in Hrem.
  rewrite Hrem.
  destruct (Js.splice a from 1 []) as [removed rest]. cbn [fst snd].
  destruct removed as [|x removed]; cbn [map]; [done|].
  match goal with
  | |- context [Js.splice (map f rest) ?s 0 [f x]] =>
      pose proof (splice_map f rest s 0 [x]) as Hins
  end.
  cbn [map] in Hins. by rewrite Hins.
Qed.

Lemma onDragEnd_map_file (f : Page → Page) (file : string)
    (event : DragEndEvent) (prev : Previews) (entry : Preview) :
  (∀ p, id (f p) = id p) →
  prev !! file = Some entry →
  onDragEnd file event (<[file := mkPreview (map f (pages entry))]> prev)
  = match onDragEnd file event prev with
    | Ok moved =>
        Ok (<[file := mkPreview
                        (map f (default [] (pages <$> moved !! file)))]>
              moved)
    | Throw e => Throw e
    end.
Proof.
  intros Hid Hfile. rewrite !onDragEnd_eq.
  destruct (over event) as [to|].
  2:{ by rewrite Hfile. }
  destruct (String.eqb (active event) to).
  { by rewrite Hfile. }
  rewrite lookup_insert_eq, Hfile. cbn [pages].
  rewrite !findIndex_same_ids, arrayMove_map by done.
  destruct (arrayMove (pages entry) _ _) as [moved|]; simpl; [|done].
  by rewrite lookup_insert_eq, !insert_insert_eq.
Qed.

(** A drag and a toggle can be applied in either order. *)
Theorem onDragEnd_toggleDelete_commute (file : string)
    (event : DragEndEvent) (toggledFile : string) (n : Z)
    (prev toggled next : Previews) :
  toggleDelete toggledFile n prev = Ok toggled →
  onDragEnd file event toggled = Ok next →
  ∃ moved, onDragEnd file event prev = Ok moved ∧
           toggleDelete toggledFile n moved = Ok next.
Proof.
  unfold toggleDelete at 1.
  destruct (prev !! toggledFile) as [entry|] eqn:Hentry; [|done].
  intros [= <-].
  destruct (decide (toggledFile = file)) as [->|Hne].
  - rewrite (onDragEnd_map_file (togglePage n)) by (done || by intros p;
      unfold togglePage; destruct (_ =? _)%Z).
    destruct (onDragEnd file event prev) as [moved|e] eqn:Hmoved; [|done].
    intros [= <-]. exists moved. split; [done|]. unfold toggleDelete.
    destruct (moved !! file) as [movedEntry|] eqn:HmovedEntry; [done|].
    exfalso. revert Hmoved. rewrite !onDragEnd_eq.
    destruct (over event); [|intros [= <-]; congruence].
    destruct (String.eqb _ _); [intros [= <-]; congruence|].
    rewrite Hentry. destruct (arrayMove _ _ _); [|done].
    intros [= <-]. by rewrite lookup_insert_eq in HmovedEntry.
  - rewrite !onDragEnd_eq.
    destruct (over event) as [to|].
    2:{ intros [= <-]. exists prev. split; [done|].
        unfold toggleDelete. by rewrite Hentry. }
    destruct (String.eqb (active event) to).
    { intros [= <-]. exists prev. split; [done|].
      unfold toggleDelete. by rewrite Hentry. }
    rewrite lookup_insert_ne by done.
    destruct (prev !! file) as [dragged|]; [|done].
    destruct (arrayMove _ _ _) as [moved|]; [|done].
    intros [= <-]. eexists. split; [done|]. unfold toggleDelete.
    rewrite lookup_insert_ne, Hentry by done.
    by rewrite insert_insert_ne.
Qed.

Lemma onDragEnd_toggleDelete_commute_witness :
  ∃ moved,
    onDragEnd "a.pdf" (mkDragEnd "a.pdf-page-1" (Some "a.pdf-page-3"))
      (session [a1; a2; a3] [b1; b2]) = Ok moved ∧
    toggleDelete "a.pdf" 1 moved
    = Ok (session [a2; a3; flipDeleted a1] [b1; b2]).
Proof.
  apply (onDragEnd_toggleDelete_commute "a.pdf"
           (mkDragEnd "a.pdf-page-1" (Some "a.pdf-page-3")) "a.pdf" 1
           (session [a1; a2; a3] [b1; b2])
           (session [flipDeleted a1; a2; a3] [b1; b2])).
  - vm_compute. reflexivity.
  - vm_compute. reflexivity.
Defined.



Lemma firstAt_NoDup (ps : list Page) (i : nat) (p : Page) :
  NoDup (id <$> ps) → ps !! i = Some p → firstAt ps (id p) i.
Proof.
  intros Hnd Hp. exists p. split; [done|]. split; [done|].
  intros k q Hk Hq Heq.
  pose proof (proj1 (NoDup_alt _) Hnd k i (id p)) as Hsame.
  rewrite !list_lookup_fmap, Hp, Hq in Hsame. simpl in Hsame.
  rewrite Heq in Hsame. specialize (Hsame eq_refl eq_refl). lia.
Qed.

Lemma delete_inserted {A} (l : list A) (j : nat) (x : A) :
  j ≤ length l → delete j (take j l ++ x :: drop j l) = l.
Proof.
  intros Hj. rewrite delete_take_drop.
  assert (length (take j l) = j) as Hlen by (rewrite length_take; lia).
  rewrite take_app_length' by done.
  replace (S j) with (length (take j l) + 1) by lia.
  rewrite <- drop_drop, drop_app_length. simpl. rewrite drop_0.
  apply take_drop.
Qed.

Lemma lookup_inserted {A} (l : list A) (j : nat) (x : A) :
  j ≤ length l → (take j l ++ x :: drop j l) !! j = Some x.
Proof.
  intros Hj. rewrite lookup_app_r; rewrite length_take; [|lia].
  by replace (j - j `min` length l) with 0 by lia.
Qed.

Lemma onDragEnd_in_range (file : string) (event : DragEndEvent)
    (prev : Previews) (entry : Preview) (to : string) (i j : nat)
    (p : Page) :
  prev !! file = Some entry → over event = Some to →
  firstAt (pages entry) (active event) i → firstAt (pages entry) to j →
  i ≠ j → pages entry !! i = Some p →
  onDragEnd file event prev
  = Ok (<[file := mkPreview (take j (delete i (pages entry))
                             ++ p :: drop j (delete i (pages entry)))]>
          prev).
Proof.
  intros Hfile Hover Hi Hj Hij Hp. rewrite !onDragEnd_eq. rewrite Hover.
  destruct (String.eqb_spec (active event) to) as [Heq|_].
  { subst to. destruct Hij.
    apply findIndex_firstAt in Hi, Hj. rewrite Hi in Hj. lia. }
  rewrite Hfile.
  assert (j < length (pages entry)) as Hjlt.
  { destruct Hj as (q & Hq & _). by eapply lookup_lt_Some. }
  rewrite (findIndex_firstAt _ _ _ Hi), (findIndex_firstAt _ _ _ Hj).
  by rewrite (arrayMove_in_range _ i j p Hp Hjlt).
Qed.

(** Dragging back.  With the ids of the file distinct, after dragging a
    page from its position to that of another page, dragging it onto the
    page that now stands at its old position gives the state back. *)
Theorem onDragEnd_drag_back (file : string) (prev next : Previews)
    (entry entry' : Preview) (i j : nat) (p q c : Page) :
  prev !! file = Some entry →
  NoDup (id <$> pages entry) →
  pages entry !! i = Some p → pages entry !! j = Some q → i ≠ j →
  onDragEnd file (mkDragEnd (id p) (Some (id q))) prev = Ok next →
  next !! file = Some entry' → pages entry' !! i = Some c →
  onDragEnd file (mkDragEnd (id p) (Some (id c))) next = Ok prev.
Proof.
  intros Hfile Hnd Hp Hq Hij Hdrag Hentry' Hc.
  pose proof (lookup_lt_Some _ _ _ Hp) as Hi.
  pose proof (lookup_lt_Some _ _ _ Hq) as Hj.
  rewrite (onDragEnd_in_range file (mkDragEnd (id p) (Some (id q)))
             prev entry (id q) i j p Hfile eq_refl
             (firstAt_NoDup _ _ _ Hnd Hp) (firstAt_NoDup _ _ _ Hnd Hq)
             Hij Hp) in Hdrag.
  injection Hdrag as <-.
  rewrite lookup_insert_eq in Hentry'. injection Hentry' as <-.
  cbn [pages] in Hc.
  set (rest := delete i (pages entry)) in *.
  assert (length rest = length (pages entry) - 1) as Hrest.
  { unfold rest. rewrite length_delete by eauto. lia. }
  set (moved := take j rest ++ p :: drop j rest) in *.
  assert (moved ≡ₚ pages entry) as Hperm.
  { unfold moved. rewrite <- Permutation_middle, take_drop. unfold rest.
    symmetry. by apply delete_Permutation. }
  assert (NoDup (id <$> moved)) as Hnd' by (by rewrite Hperm).
  assert (moved !! j = Some p) as Hpj by (apply lookup_inserted; lia).
  rewrite (onDragEnd_in_range file (mkDragEnd (id p) (Some (id c)))
             (<[file := mkPreview moved]> prev) (mkPreview moved)
             (id c) j i p (lookup_insert_eq _ _ _) eq_refl
             (firstAt_NoDup _ _ _ Hnd' Hpj) (firstAt_NoDup _ _ _ Hnd' Hc)
             (not_eq_sym Hij) Hpj).
  cbn [pages]. unfold moved at 1 2. rewrite delete_inserted by lia.
  unfold rest. rewrite move_nowhere by done.
  rewrite insert_insert_eq, Preview_eta. f_equal. by apply insert_id.
Qed.

Lemma onDragEnd_drag_back_witness :
  onDragEnd "a.pdf" (mkDragEnd (id a1) (Some (id a2)))
    (session [a2; a3; a1] [b1; b2])
  = Ok (session [a1; a2; a3] [b1; b2]).
Proof.
  apply (onDragEnd_drag_back "a.pdf" (session [a1; a2; a3] [b1; b2])
           (session [a2; a3; a1] [b1; b2])
           (mkPreview [a1; a2; a3]) (mkPreview [a2; a3; a1]) 0 2 a1 a3 a2).
  - vm_compute. reflexivity.
  - apply (bool_decide_unpack _). vm_compute. exact I.
  - reflexivity.
  - reflexivity.
  - discriminate.
  - vm_compute. reflexivity.
  - vm_compute. reflexivity.
  - reflexivity.
Defined.

(** ** More on the export *)

Lemma filter_kept_Permutation (ps ps' : list Page) :
  ps ≡ₚ ps' → List.filter kept ps ≡ₚ List.filter kept ps'.
Proof.
  induction 1 as [|p ps ps' _ IH|p q ps|ps1 ps2 ps3 _ IH1 _ IH2]; simpl.
  - done.
  - destruct (kept p); [by constructor|done].
  - destruct (kept p), (kept q); try done. apply perm_swap.
  - by etrans.
Qed.

Lemma mapM_result_Permutation {A B} (f : A → result B) (l l' : list A)
    (k : list B) :
  l ≡ₚ l' → mapM f l = Ok k → ∃ k', mapM f l' = Ok k' ∧ k' ≡ₚ k.
Proof.
  intros Hperm. revert k.
  induction Hperm as [|x l l' _ IH|x y l|l1 l2 l3 _ IH1 _ IH2]; intros k.
  - intros [= <-]. by exists [].
  - intros (y & k0 & Hx & Hl & ->)%mapM_result_cons.
    destruct (IH k0 Hl) as (k0' & Hk0' & Hperm').
    exists (y :: k0'). simpl. rewrite Hx, Hk0'. split; [done|].
    by constructor.
  - intros (b & k0 & Hy & Hl & ->)%mapM_result_cons.
    apply mapM_result_cons in Hl as (a & k1 & Hx & Hl & ->).
    exists (a :: b :: k1). simpl. rewrite Hx, Hy, Hl. split; [done|].
    apply perm_swap.
  - intros Hk. destruct (IH1 k Hk) as (k2 & Hk2 & Hp2).
    destruct (IH2 k2 Hk2) as (k3 & Hk3 & Hp3).
    exists k3. split; [done|]. by etrans.
Qed.

Lemma dragAll_Permutation (events : list (string * DragEndEvent)) :
  ∀ (prev next : Previews) (file : string) (entry entry' : Preview),
  dragAll events prev = Ok next →
  prev !! file = Some entry → next !! file = Some entry' →
  pages entry' ≡ₚ pages entry.
Proof.
  induction events as [|[f event] events IH];
    intros prev next file entry entry'; simpl.
  - intros [= <-] Hentry Hentry'.
    by assert (entry' = entry) as -> by congruence.
  - destruct (onDragEnd f event prev) as [mid|e] eqn:Hstep; [|done].
    simpl. intros Hrun Hentry Hentry'.
    destruct (onDragEnd_Permutation _ _ _ _ Hstep file entry Hentry)
      as (entry1 & Hentry1 & Hperm1).
    rewrite <- Hperm1. by eapply IH.
Qed.

(** Reordering changes the order of the exported pages and nothing else:
    if the export of a file went through before a sequence of drags, it
    goes through after it and copies the same pages. *)
Theorem export_after_drags `{Collaborators}
    (events : list (string * DragEndEvent)) (prev next : Previews)
    (file : string) (entry entry' : Preview) (pdfDoc : PDFDocument)
    (newDoc : list PDFPage) :
  dragAll events prev = Ok next →
  prev !! file = Some entry → next !! file = Some entry' →
  copyLoop pdfDoc (pages entry) [] = Ok newDoc →
  ∃ newDoc', copyLoop pdfDoc (pages entry') [] = Ok newDoc' ∧
             newDoc' ≡ₚ newDoc.
Proof.
  intros Hdrags Hentry Hentry' Hcopy.
  pose proof (dragAll_Permutation _ _ _ _ _ _ Hdrags Hentry Hentry')
    as Hperm.
  rewrite copyLoop_mapM in *.
  eapply mapM_result_Permutation; [|done].
  apply filter_kept_Permutation. by symmetry.
Qed.

Lemma export_after_drags_witness :
  ∃ newDoc',
    @copyLoop toy [Byte.x01; Byte.x02; Byte.x03] [a3; flipDeleted a2; a1] []
    = Ok newDoc' ∧
    newDoc' ≡ₚ [Byte.x01; Byte.x03].
Proof.
  apply (@export_after_drags toy
           [("a.pdf", mkDragEnd "a.pdf-page-1" (Some "a.pdf-page-3"));
            ("a.pdf", mkDragEnd "a.pdf-page-3" (Some "a.pdf-page-2"))]
           (session [a1; flipDeleted a2; a3] [b1; b2])
           (session [a3; flipDeleted a2; a1] [b1; b2])
           "a.pdf" (mkPreview [a1; flipDeleted a2; a3])
           (mkPreview [a3; flipDeleted a2; a1])).
  - vm_compute. reflexivity.
  - vm_compute. reflexivity.
  - vm_compute. reflexivity.
  - reflexivity.
Defined.

Section MoreExportProperties.
Context `{Collaborators}.

(** Archive mode is all or nothing: when the export throws, whichever
    step did, nothing has been handed to the browser, and the busy state
    is cleared. *)
Theorem processPDFs_archive_throw (files : list File) (previews : Previews)
    (w : World) (e : exn) :
  (processPDFs files previews "zip" w).2 = Throw e →
  (processPDFs files previews "zip" w).1
  = {| loading := false; cursorLoading := false; downloads := downloads w |}.
Proof.
  unfold processPDFs, mbind, M_bind, setLoading, setCursorLoading,
    tryFinally, lift, deliver.
  simpl. rewrite !forFiles_archive by done.
  destruct (mapM (exported previews) files) as [entries|e1];
    unfold mbind, Js.result_bind; simpl; [|done].
  destruct (generateAsync entries) as [blob|e2]; simpl; [|done].
  by destruct (download "processed-pdfs.zip" blob).
Qed.

Lemma forFiles_single_throw (previews : Previews) (done : list File) :
  ∀ (bad : File) (rest : list File) (zip : list (string * Bytes))
    (w : World) (entries : list (string * Bytes)) (e : exn),
  mapM (exported previews) done = Ok entries →
  Forall (λ entry, download entry.1 entry.2 = Ok ()) entries →
  exported previews bad = Throw e →
  forFiles previews "single" (done ++ bad :: rest) zip w
  = ({| loading := loading w; cursorLoading := cursorLoading w;
        downloads := downloads w ++ entries |}, Throw e).
Proof.
  induction done as [|file done IH];
    intros bad rest zip w entries e Hentries Hdownloads Hbad.
  - injection Hentries as <-. simpl. unfold exported in Hbad.
    unfold mbind at 1 2 3 4, M_bind, lift.
    destruct (buildDoc previews bad) as [newDoc|e1]; simpl in *.
    + destruct (save newDoc) as [pdfBytes|e2]; simpl in *; [done|].
      injection Hbad as ->. destruct w. simpl. by rewrite app_nil_r.
    + injection Hbad as ->. destruct w. simpl. by rewrite app_nil_r.
  - apply mapM_result_cons in Hentries
      as (entry & entries' & Hentry & Hrest & ->).
    apply Forall_cons in Hdownloads as [Hfirst Hdownloads].
    unfold exported in Hentry.
    destruct (buildDoc previews file) as [newDoc|e1] eqn:Hbuild; [|done].
    simpl in Hentry.
    destruct (save newDoc) as [pdfBytes|e2] eqn:Hsave; [|done].
    injection Hentry as <-. simpl in Hfirst.
    simpl. unfold mbind at 1 2 3 4, M_bind, lift.
    rewrite Hbuild, Hsave. unfold deliver at 1. rewrite Hfirst.
    unfold mret at 1, M_ret.
    rewrite (IH bad rest _ _ entries' e Hrest Hdownloads Hbad). simpl.
    by rewrite <- app_assoc.
Qed.

(** Individual mode delivers as it goes: when a file cannot be built or
    saved, the files before it have been downloaded, in order, the files
    after it are not touched, and the busy state is cleared. *)
Theorem processPDFs_individual_throw (done : list File) (bad : File)
    (rest : list File) (previews : Previews) (w : World)
    (entries : list (string * Bytes)) (e : exn) :
  mapM (exported previews) done = Ok entries →
  Forall (λ entry, download entry.1 entry.2 = Ok ()) entries →
  exported previews bad = Throw e →
  processPDFs (done ++ bad :: rest) previews "single" w
  = ({| loading := false; cursorLoading := false;
        downloads := downloads w ++ entries |}, Throw e).
Proof.
  intros Hentries Hdownloads Hbad.
  unfold processPDFs, mbind at 1 2 3, M_bind, setLoading, setCursorLoading,
    tryFinally.
  simpl. by rewrite (forFiles_single_throw _ _ _ _ _ _ entries e).
Qed.

Lemma legacy_forFiles (previews : Previews) (files : list File) :
  ∀ zip w, Legacy.forFiles previews files zip w
           = forFiles previews "zip" files zip w.
Proof.
  induction files as [|file files IH]; intros zip w; [done|].
  cbn [Legacy.forFiles forFiles]. unfold mbind, M_bind, lift, mret, M_ret.
  destruct (buildDoc previews file) as [newDoc|e]; [|done].
  destruct (save newDoc) as [pdfBytes|e]; [|done].
  simpl. apply IH.
Qed.

(** The two copies of the export hand the same files to the browser and
    end the same way, with the same throw if any; they differ only in
    the busy state they leave when a step throws. *)
Theorem legacy_processPDFs_same_output (files : list File)
    (previews : Previews) (w : World) :
  (Legacy.processPDFs files previews w).2
  = (processPDFs files previews "zip" w).2 ∧
  downloads (Legacy.processPDFs files previews w).1
  = downloads (processPDFs files previews "zip" w).1 ∧
  ((Legacy.processPDFs files previews w).2 = Ok () →
   loading (Legacy.processPDFs files previews w).1 = false).
Proof.
  unfold Legacy.processPDFs, processPDFs, mbind, M_bind,
    setLoading, setCursorLoading, tryFinally, lift, deliver.
  simpl. rewrite !legacy_forFiles, !forFiles_archive by done.
  destruct (mapM (exported previews) files) as [entries|e1];
    unfold mbind, Js.result_bind; simpl; [|done].
  destruct (generateAsync entries) as [blob|e2]; simpl; [|done].
  by destruct (download "processed-pdfs.zip" blob).
Qed.

End MoreExportProperties.

Lemma processPDFs_archive_witness :
  @processPDFs toy [a_pdf; b_pdf] (session [a1; flipDeleted a2; a3] [b2; b1])
    "zip" idle
  = ({| loading := false; cursorLoading := false;
        downloads := downloads idle
                     ++ [("processed-pdfs.zip",
                          [Byte.x01; Byte.x03; Byte.x0a])] |}, Ok ()).
Proof.
  apply (@processPDFs_archive toy [a_pdf; b_pdf]
           (session [a1; flipDeleted a2; a3] [b2; b1]) idle
           [("modified-a.pdf", [Byte.x01; Byte.x03]);
            ("modified-b.pdf", [Byte.x0a])]).
  - vm_compute. reflexivity.
  - reflexivity.
  - reflexivity.
Defined.

Lemma processPDFs_individual_witness :
  @processPDFs toy [a_pdf; b_pdf] (session [a1; flipDeleted a2; a3] [b2; b1])
    "single" idle
  = ({| loading := false; cursorLoading := false;
        downloads := downloads idle
                     ++ [("modified-a.pdf", [Byte.x01; Byte.x03]);
                         ("modified-b.pdf", [Byte.x0a])] |}, Ok ()).
Proof.
  apply (@processPDFs_individual toy [a_pdf; b_pdf]
           (session [a1; flipDeleted a2; a3] [b2; b1]) idle).
  - vm_compute. reflexivity.
  - repeat constructor.
Defined.

Lemma processPDFs_archive_throw_witness :
  (@processPDFs toy [a_pdf; broken_pdf] (session [a1; a2; a3] [b1; b2])
     "zip" idle).1
  = {| loading := false; cursorLoading := false;
       downloads := downloads idle |}.
Proof.
  apply (@processPDFs_archive_throw toy [a_pdf; broken_pdf]
           (session [a1; a2; a3] [b1; b2]) idle
           (Failure "No PDF header found")).
  vm_compute. reflexivity.
Defined.

Lemma processPDFs_individual_throw_witness :
  @processPDFs toy ([a_pdf] ++ broken_pdf :: [b_pdf])
    (session [a1; a2; a3] [b1; b2]) "single" idle
  = ({| loading := false; cursorLoading := false;
        downloads := downloads idle
                     ++ [("modified-a.pdf",
                          [Byte.x01; Byte.x02; Byte.x03])] |},
     Throw (Failure "No PDF header found")).
Proof.
  apply (@processPDFs_individual_throw toy [a_pdf] broken_pdf [b_pdf]
           (session [a1; a2; a3] [b1; b2]) idle).
  - vm_compute. reflexivity.
  - repeat constructor.
  - vm_compute. reflexivity.
Defined.

Lemma legacy_processPDFs_throw_witness :
  loading (@Legacy.processPDFs toy [a_pdf; broken_pdf]
             (session [a1; a2; a3] [b1; b2]) idle).1 = true.
Proof.
  apply (@legacy_processPDFs_throw toy [a_pdf; broken_pdf]
           (session [a1; a2; a3] [b1; b2]) idle
           (Failure "No PDF header found")).
  vm_compute. reflexivity.
Defined.

Lemma legacy_processPDFs_same_output_witness :
  loading (@Legacy.processPDFs toy [a_pdf; b_pdf]
             (session [a1; a2; a3] [b1; b2]) idle).1 = false.
Proof.
  apply (@legacy_processPDFs_same_output toy [a_pdf; b_pdf]
           (session [a1; a2; a3] [b1; b2]) idle).
  vm_compute. reflexivity.
Defined.

(** A change of [files] replaces the session: whatever [previews] held,
    it now holds one entry without pages for each distinct file name and
    nothing else, and the [cursor-loading] class is off again before the
    first page is rendered. *)
Theorem startGenerate_fresh_session `{PdfJs} (files : list File)
    (cursorLoading : bool) (fileName : string) :
  (startGenerate files cursorLoading).1.2 !! fileName
  = (if decide (fileName ∈ name <$> files) then Some (mkPreview [])
     else None) ∧
  (startGenerate files cursorLoading).2 = false.
Proof.
  rewrite startGenerate_eq. simpl. split; [|done].
  apply initPreviews_lookup.
Qed.

(** A drag on a file that is not loaded: the updater throws.  A drag on a
    file without pages: the updater returns, and the render throws. *)
Lemma onDragEnd_throws_iff_witness :
  moveUpdater "c.pdf" "a.pdf-page-1" "a.pdf-page-3"
    (session [a1; a2; a3] [b1; b2]) = Throw TypeError ∧
  moveUpdater "a.pdf" "a.pdf-page-1" "a.pdf-page-3" (session [] [b1; b2])
  = Ok None ∧
  onDragEnd "a.pdf" (mkDragEnd "a.pdf-page-1" (Some "a.pdf-page-3"))
    (session [] [b1; b2]) = Throw TypeError.
Proof.
  split; [|split].
  - apply (onDragEnd_throws_iff "c.pdf" (mkDragEnd "" None)
             (session [a1; a2; a3] [b1; b2]) TypeError).
    split; [reflexivity|]. by vm_compute.
  - apply (onDragEnd_throws_iff "a.pdf" (mkDragEnd "" None)
             (session [] [b1; b2]) TypeError).
    by vm_compute.
  - apply (onDragEnd_throws_iff "a.pdf"
             (mkDragEnd "a.pdf-page-1" (Some "a.pdf-page-3"))
             (session [] [b1; b2]) TypeError).
    split; [reflexivity|]. exists "a.pdf-page-3".
    split; [reflexivity|]. split; [discriminate|]. right. by vm_compute.
Defined.

(** ** Ranges out of reach *)

(** A range that starts at [2^53] at most and is to end at [2^53] or
    above gives no state: whatever the number of rounds, the loop has not
    ended, since [i++] leaves [i] at [2^53]. *)
Theorem applyBulkDeleteAll_never_ends (deleteInput r s e : string)
    (rest : list string) (prev : Previews) :
  r ∈ Js.split deleteInput "," → Js.split r "-" = s :: e :: rest →
  Js.le (Js.Number s) (Int (2 ^ 53)) = true →
  Js.le (Int (2 ^ 53)) (Js.Number e) = true →
  (∀ fuel toDelete,
     forLoop fuel (Js.Number s) (Js.Number e) toDelete = None) ∧
  applyBulkDeleteAll deleteInput prev = None.
Proof.
  intros Hr Hsplit Hs He.
  assert (Js.includes r "-" = true) as Hdash.
  { apply split_includes. eauto. }
  split.
  - intros fuel toDelete.
    destruct (Number_without_dash s) as [Hinf Hnum].
    { apply (split_pieces r "-"). rewrite Hsplit. by left. }
    assert (Js.isFinite (Js.Number s) = true) as Hfin.
    { by destruct (Js.Number s) as [| | |[]]. }
    apply forLoop_never_ends; [done..| |done].
    rewrite le_finite in Hs by done. simpl in Hs. apply Z.leb_le in Hs. lia.
  - unfold applyBulkDeleteAll.
    rewrite (trim_not_blank deleteInput "-");
      [|by eapply split_includes_piece|done].
    destruct (parseRanges deleteInput) as [D|] eqn:HD; [|done].
    destruct (proj1 (forEachRange_is_Some _ []) (mk_is_Some _ _ HD) r Hr)
      as [Dr HDr].
    by rewrite (addRange_never_ends [] r s e rest) in HDr.
Qed.

Lemma applyBulkDeleteAll_never_ends_witness :
  (∀ fuel toDelete,
     forLoop fuel (Js.Number "3") (Js.Number "9007199254740992") toDelete
     = None) ∧
  applyBulkDeleteAll "1,3-9007199254740992" (session [a1; a2; a3] [b1; b2])
  = None.
Proof.
  apply (applyBulkDeleteAll_never_ends "1,3-9007199254740992"
           "3-9007199254740992" "3" "9007199254740992" []).
  - change (Js.split "1,3-9007199254740992" ",")
      with ["1"; "3-9007199254740992"]. by right; left.
  - by vm_compute.
  - by vm_compute.
  - by vm_compute.
Defined.

(** ** Distinct page numbers *)

Lemma map_markPage_pageNo (toDelete : list number) (ps : list Page) :
  pageNo <$> map (markPage toDelete) ps = pageNo <$> ps.
Proof.
  induction ps as [|p ps IH]; [done|]. cbn [map]. by rewrite !fmap_cons, IH.
Qed.

(** The edits keep the page numbers of every file distinct: a toggle and
    a bulk delete leave the page numbers where they are, and a drag
    permutes them. *)
Theorem edits_keep_pages_distinct (prev : Previews) :
  distinctPages prev →
  (∀ file n next, toggleDelete file n prev = Ok next → distinctPages next) ∧
  (∀ deleteInput next,
     applyBulkDeleteAll deleteInput prev = Some next → distinctPages next) ∧
  (∀ file event next,
     onDragEnd file event prev = Ok next → distinctPages next).
Proof.
  intros Hprev. split; [|split].
  - intros file n next. unfold toggleDelete.
    destruct (prev !! file) as [entry|] eqn:Hfile; [|done].
    intros [= <-] f entry'. destruct (decide (f = file)) as [->|Hne].
    + rewrite lookup_insert_eq. intros [= <-]. cbn [pages].
      rewrite map_toggle_pageNo. by eapply Hprev.
    + rewrite lookup_insert_ne by done. apply Hprev.
  - intros deleteInput next (D & -> & _)%applyBulkDeleteAll_markDeleted.
    intros f entry'. unfold markDeleted. rewrite lookup_fmap.
    destruct (prev !! f) as [entry|] eqn:Hf; [|done]. intros [= <-].
    cbn [pages]. rewrite map_markPage_pageNo. by eapply Hprev.
  - intros file event next. rewrite onDragEnd_eq.
    destruct (over event) as [to|]; [|by intros [= <-]].
    destruct (String.eqb (active event) to); [by intros [= <-]|].
    destruct (prev !! file) as [entry|] eqn:Hfile; [|done].
    destruct (arrayMove _ _ _) as [moved|] eqn:Hmoved; [|done].
    intros [= <-] f entry'. destruct (decide (f = file)) as [->|Hne].
    + rewrite lookup_insert_eq. intros [= <-]. cbn [pages].
      rewrite (fmap_Permutation pageNo _ _
                 (arrayMove_Permutation _ _ _ _ Hmoved)).
      by eapply Hprev.
    + rewrite lookup_insert_ne by done. apply Hprev.
Qed.

Lemma edits_keep_pages_distinct_witness :
  distinctPages (session [a3; a1; a2] [b1; b2]).
Proof.
  assert (distinctPages (session [a1; a2; a3] [b1; b2])) as Hprev.
  { intros file entry.
    destruct (decide (file = "a.pdf")) as [->|Ha].
    { intros [= <-]. apply (bool_decide_unpack _). by vm_compute. }
    destruct (decide (file = "b.pdf")) as [->|Hb].
    { intros [= <-]. apply (bool_decide_unpack _). by vm_compute. }
    unfold session. by rewrite !lookup_insert_ne, lookup_empty. }
  apply (proj2 (proj2 (edits_keep_pages_distinct
                         (session [a1; a2; a3] [b1; b2]) Hprev))
           "a.pdf" (mkDragEnd "a.pdf-page-3" (Some "a.pdf-page-1"))).
  by vm_compute.
Defined.
